(** * vinuxt: file-based routing, verified against its description

    A shallow embedding of
      - packages/vinuxt/src/routing/router.ts    (page routes)
      - packages/vinuxt/src/server/api-handler.ts (endpoint routes)
      - packages/vinuxt/src/server/middleware.ts  (middleware files)

    Conventions of the embedding.
      - A JavaScript string is a [string]; the operations the code applies
        (split on a separator, prefix and suffix tests, slices counted from
        either end, equality) are written out below.
      - The platform is POSIX: [path.sep] is the slash, [path.join]
        normalizes as [path.posix] does, and file names are compared with
        their case.
      - A parameter object ([Record<string, ...>]) is a [gmap string _] of
        its own properties. The page matcher builds it with
        [Object.create(null)], where every name is a property; the endpoint
        matcher builds it as an object literal, where an assignment to
        [__proto__] goes to the inherited accessor and binds nothing.
      - Arrays that the code shares between objects live in a store and are
        named by their address.
      - [localeCompare] and [decodeURIComponent] are host functions; the
        definitions that call them take them as arguments. *)

From Stdlib Require Import ZArith Ascii Bool Lia.
From Stdlib Require Import Sorting.Sorted Sorting.Permutation.
From stdpp Require Import gmap strings list fin_maps.

Local Open Scope Z_scope.
Set Warnings "-register-all,-clear-no-such-hyp".

(** ** Strings *)

Module Str.

(** [s.split(c)] for a one-character separator. *)
Fixpoint split (c : ascii) (s : string) : list string :=
  match s with
  | EmptyString => [EmptyString]
  | String x s' =>
      if Ascii.eqb x c then EmptyString :: split c s'
      else match split c s' with
           | h :: t => String x h :: t
           | [] => [String x EmptyString]
           end
  end.

(** [l.join(sep)]. *)
Fixpoint join (sep : string) (l : list string) : string :=
  match l with
  | [] => EmptyString
  | [x] => x
  | x :: l' => x +:+ sep +:+ join sep l'
  end.

(** Truthiness of a string: [Boolean(s)]. *)
Definition nonempty (s : string) : bool :=
  match s with EmptyString => false | _ => true end.

(** [s.split("/").filter(Boolean)]. *)
Definition segments (s : string) : list string :=
  filter (fun x => Is_true (nonempty x)) (split "/" s).

(** [s.startsWith(p)]. *)
Definition startsWith (p s : string) : bool := String.prefix p s.

(** [s.endsWith(suf)]: some tail of [s] is [suf]. *)
Fixpoint endsWith (suf s : string) : bool :=
  if String.eqb s suf then true
  else match s with
       | EmptyString => false
       | String _ s' => endsWith suf s'
       end.

(** [s.slice(n)] for [0 <= n]. *)
Fixpoint drop (n : nat) (s : string) : string :=
  match n, s with
  | O, _ => s
  | S n', String _ s' => drop n' s'
  | S _, EmptyString => EmptyString
  end.

(** [s.slice(0, -n)] for [0 < n]: all but the last [n] characters. *)
Definition dropEnd (n : nat) (s : string) : string :=
  String.substring 0 (String.length s - n) s.

(** [s.slice(1, -1)]. *)
Definition slice1m1 (s : string) : string := dropEnd 1 (drop 1 s).

(** [s.includes(c)] for a one-character needle. *)
Fixpoint includes (c : ascii) (s : string) : bool :=
  match s with
  | EmptyString => false
  | String x s' => Ascii.eqb x c || includes c s'
  end.

(** [s.toLowerCase()] on the letters A-Z. *)
Definition lowerChar (c : ascii) : ascii :=
  let n := nat_of_ascii c in
  if (Nat.leb 65 n && Nat.leb n 90)%bool then ascii_of_nat (n + 32) else c.

Fixpoint toLowerCase (s : string) : string :=
  match s with
  | EmptyString => EmptyString
  | String c s' => String (lowerChar c) (toLowerCase s')
  end.

(** The class [\w] of regular expressions. *)
Definition isWordChar (c : ascii) : bool :=
  let n := nat_of_ascii c in
  ((Nat.leb 48 n && Nat.leb n 57) || (Nat.leb 65 n && Nat.leb n 90)
   || (Nat.leb 97 n && Nat.leb n 122) || Nat.eqb n 95)%bool.

Fixpoint allWord (s : string) : bool :=
  match s with
  | EmptyString => true
  | String c s' => isWordChar c && allWord s'
  end.

(** [\w+] against a whole string. *)
Definition isWord (s : string) : bool := nonempty s && allWord s.

(** The text between a fixed opening and a fixed closing, when [s] has
    that shape: what [s.match(/^open(...)close$/)] captures before the
    capture group is checked. *)
Definition between (op cl s : string) : option string :=
  if (startsWith op s && endsWith cl (drop (String.length op) s))%bool
  then Some (dropEnd (String.length cl) (drop (String.length op) s))
  else None.

(** [s.replace(/(e1|e2|...)$/, "")] for literal alternatives: the first
    alternative that ends [s] is removed. *)
Fixpoint stripSuffixes (exts : list string) (s : string) : string :=
  match exts with
  | [] => s
  | e :: exts' =>
      if endsWith e s then dropEnd (String.length e) s
      else stripSuffixes exts' s
  end.

End Str.

(** ** Page routes: data *)

(** A value bound to a parameter: one URL segment, or a list of them. *)
Inductive ParamValue : Type :=
| PStr (s : string)
| PList (l : list string).

Global Instance ParamValue_eq_dec : EqDecision ParamValue.
Proof. solve_decision. Defined.

(** [interface Route] as a value: what a reader of the tree sees. *)
Inductive Route : Type := mkRoute {
  pattern : string;
  filePath : string;
  isDynamic : bool;
  params : list string;
  children : list Route
}.

(** The object returned by a successful page match. *)
Record Match : Type := mkMatch {
  m_route : Route;
  m_params : gmap string ParamValue
}.

(** ** Page routes: precedence (router.ts, routePrecedence) *)

Fixpoint precedenceLoop (i : Z) (parts : list string) (score : Z) : Z :=
  match parts with
  | [] => score
  | p :: rest =>
      let score' :=
        if Str.endsWith "+" p then score + (10000 + i)
        else if Str.endsWith "*" p then score + (20000 + i)
        else if Str.startsWith ":" p then score + (100 + i)
        else score in
      precedenceLoop (i + 1) rest score'
  end.

Definition routePrecedence (pattern : string) : Z :=
  precedenceLoop 0 (Str.segments pattern) 0.

(** ** Page routes: matching (router.ts, matchPattern / matchChildren /
    matchRoute) *)

(** The [for] loop of [matchPattern] from index [i] on; [n] is
    [parts_pattern.length], read by the test that follows the loop. *)
Fixpoint matchPatternLoop (n i : nat) (pats parts_url : list string)
    (acc : gmap string ParamValue) : option (gmap string ParamValue) :=
  match pats with
  | [] => if Nat.eqb (length parts_url) n then Some acc else None
  | pp :: rest =>
      if Str.endsWith "+" pp then
        let remaining := drop i parts_url in
        match remaining with
        | [] => None
        | _ :: _ => Some (<[Str.slice1m1 pp := PList remaining]> acc)
        end
      else if Str.endsWith "*" pp then
        Some (<[Str.slice1m1 pp := PList (drop i parts_url)]> acc)
      else if Str.startsWith ":" pp then
        match parts_url !! i with
        | None => None
        | Some u =>
            matchPatternLoop n (S i) rest parts_url (<[Str.drop 1 pp := PStr u]> acc)
        end
      else
        match parts_url !! i with
        | None => None
        | Some u =>
            if String.eqb u pp then matchPatternLoop n (S i) rest parts_url acc
            else None
        end
  end.

Definition matchPattern (url pattern : string) : option (gmap string ParamValue) :=
  let parts_url := Str.segments url in
  let parts_pattern := Str.segments pattern in
  matchPatternLoop (length parts_pattern) 0 parts_pattern parts_url ∅.

(** The pattern a child is matched under. *)
Definition patternFull (parent child : Route) : string :=
  if String.eqb (pattern parent) "/" then "/" +:+ pattern child
  else if String.eqb (pattern child) "" then pattern parent
  else pattern parent +:+ "/" +:+ pattern child.

Fixpoint matchChildrenLoop (url : string) (parent : Route) (cs : list Route)
    : option Match :=
  match cs with
  | [] => None
  | child :: cs' =>
      match matchPattern url (patternFull parent child) with
      | Some ps => Some (mkMatch child ps)
      | None => matchChildrenLoop url parent cs'
      end
  end.

Definition matchChildren (url : string) (parent : Route) : option Match :=
  matchChildrenLoop url parent (children parent).

(** One iteration of the loop of [matchRoute]: [Some] is a [return]. *)
Definition matchRouteStep (url_normalized : string) (route : Route) : option Match :=
  let direct :=
    match matchPattern url_normalized (pattern route) with
    | Some ps => Some (mkMatch route ps)
    | None => None
    end in
  match children route with
  | [] => direct
  | _ :: _ =>
      match matchPattern url_normalized (pattern route) with
      | Some params_parent =>
          match matchChildren url_normalized route with
          | Some result_child => Some result_child
          | None => Some (mkMatch route params_parent)
          end
      | None =>
          let prefix :=
            if String.eqb (pattern route) "/" then "/" else pattern route +:+ "/" in
          if (Str.startsWith prefix url_normalized
              || String.eqb url_normalized (pattern route))%bool
          then match matchChildren url_normalized route with
               | Some result_child => Some result_child
               | None => direct
               end
          else direct
      end
  end.

Fixpoint matchRouteLoop (url_normalized : string) (routes : list Route)
    : option Match :=
  match routes with
  | [] => None
  | route :: rest =>
      match matchRouteStep url_normalized route with
      | Some r => Some r
      | None => matchRouteLoop url_normalized rest
      end
  end.

(** [url.split("?")[0]]. *)
Definition pathnameOf (url : string) : string :=
  match Str.split "?" url with
  | p :: _ => p
  | [] => EmptyString
  end.

(** [pathname === "/" ? "/" : pathname.replace(/\/$/, "")]. *)
Definition stripTrailingSlash (pathname : string) : string :=
  if String.eqb pathname "/" then "/" else Str.stripSuffixes ["/"] pathname.

Section PageMatcher.

(** [decodeURIComponent]: [None] stands for a thrown [URIError]. *)
Variable decodeURIComponent : string -> option string.

Definition normalizeUrl (url : string) : string :=
  let url_normalized := stripTrailingSlash (pathnameOf url) in
  match decodeURIComponent url_normalized with
  | Some decoded => decoded
  | None => url_normalized
  end.

Definition matchRoute (url : string) (routes : list Route) : option Match :=
  matchRouteLoop (normalizeUrl url) routes.

End PageMatcher.

(** ** Endpoint routes (api-handler.ts) *)

(** [interface ApiRoute]; [method] is [string | null]. *)
Record ApiRoute : Type := mkApiRoute {
  api_pattern : string;
  api_file_path : string;
  api_method : option string
}.

Record ApiMatch : Type := mkApiMatch {
  am_route : ApiRoute;
  am_params : gmap string string
}.

(** The two endpoint directories. *)
Inductive DirType : Type := Api | Routes.

Definition dirName (t : DirType) : string :=
  match t with Api => "api" | Routes => "routes" end.

Definition HTTP_METHODS : list string :=
  ["get"; "post"; "put"; "delete"; "patch"; "head"; "options"].

Definition isHttpMethod (s : string) : bool :=
  existsb (String.eqb s) HTTP_METHODS.

(** [l[l.length - 1]] on a list that [split] returned (never empty). *)
Definition lastOf (l : list string) : string := List.last l EmptyString.

(** [filename.replace(/\.(ts|js)$/, "")]. *)
Definition stripTsJs (s : string) : string := Str.stripSuffixes [".ts"; ".js"] s.

Definition extractHttpMethod (filename : string) : option string :=
  let name_without_ext := stripTsJs filename in
  let parts := Str.split "." name_without_ext in
  if Nat.ltb (length parts) 2 then None
  else
    let method_candidate := Str.toLowerCase (lastOf parts) in
    if isHttpMethod method_candidate then Some method_candidate else None.

(** [segment.match(/^open(\w+)close$/)]: the captured name. *)
Definition captureWord (op cl segment : string) : option string :=
  match Str.between op cl segment with
  | Some name => if Str.isWord name then Some name else None
  | None => None
  end.

(** The callback of [segments.map] in [filePathToRoutePattern]. *)
Definition apiSegmentToUrl (segment : string) : string :=
  match captureWord "[..." "]" segment with
  | Some name => ":" +:+ name +:+ "+"
  | None =>
      match captureWord "[" "]" segment with
      | Some name => ":" +:+ name
      | None => segment
      end
  end.

(** [segments[segments.length - 1] = v] on a non-empty array. *)
Definition setLast (v : string) (l : list string) : list string :=
  removelast l ++ [v].

Definition filePathToRoutePattern (file_relative : string) (dir_type : DirType)
    : string :=
  let prefix := "server/" +:+ dirName dir_type +:+ "/" in
  let stripped :=
    if Str.startsWith prefix file_relative
    then Str.drop (String.length prefix) file_relative
    else file_relative in
  let without_ext := stripTsJs stripped in
  let segments := Str.split "/" without_ext in
  let segment_last := lastOf segments in
  let parts_last := Str.split "." segment_last in
  let segments :=
    if Nat.leb 2 (length parts_last) then
      if isHttpMethod (Str.toLowerCase (lastOf parts_last))
      then setLast (Str.join "." (removelast parts_last)) segments
      else segments
    else segments in
  let segments :=
    if String.eqb (lastOf segments) "index" then removelast segments
    else segments in
  let segments_url := map apiSegmentToUrl segments in
  let route_path := Str.join "/" segments_url in
  match dir_type with
  | Api => if Str.nonempty route_path then "/api/" +:+ route_path else "/api"
  | Routes => if Str.nonempty route_path then "/" +:+ route_path else "/"
  end.

(** [params[name] = value] on the object literal [{}] of the endpoint
    matcher, the values being strings. [__proto__] names the accessor that
    the object inherits from [Object.prototype], whose setter ignores a
    value that is not an object: nothing is bound. Every other name
    becomes a property of the object. *)
Definition setParam (name value : string) (params : gmap string string)
    : gmap string string :=
  if String.eqb name "__proto__" then params else <[name := value]> params.

(** The [for] loop of the endpoint [matchPattern]. *)
Fixpoint apiMatchPatternLoop (n i : nat) (pats segments_path : list string)
    (acc : gmap string string) : option (gmap string string) :=
  match pats with
  | [] => if Nat.eqb n (length segments_path) then Some acc else None
  | seg :: rest =>
      if (Str.startsWith ":" seg && Str.endsWith "+" seg)%bool then
        if Nat.leb (length segments_path) i then None
        else Some (setParam (Str.slice1m1 seg) (Str.join "/" (drop i segments_path)) acc)
      else if Str.startsWith ":" seg then
        match segments_path !! i with
        | None => None
        | Some u =>
            apiMatchPatternLoop n (S i) rest segments_path (setParam (Str.drop 1 seg) u acc)
        end
      else
        match segments_path !! i with
        | None => None
        | Some u =>
            if String.eqb seg u then apiMatchPatternLoop n (S i) rest segments_path acc
            else None
        end
  end.

Definition apiMatchPattern (pattern pathname : string) : option (gmap string string) :=
  let segments_pattern := Str.segments pattern in
  let segments_path := Str.segments pathname in
  apiMatchPatternLoop (length segments_pattern) 0 segments_pattern segments_path ∅.

(** [route.method && route.method !== method_lower]: the empty string is
    falsy, like [null]. *)
Definition methodExcludes (m : option string) (method_lower : string) : bool :=
  match m with
  | None => false
  | Some rm => Str.nonempty rm && negb (String.eqb rm method_lower)
  end.

Fixpoint matchApiRouteLoop (pathname method_lower : string) (routes : list ApiRoute)
    : option ApiMatch :=
  match routes with
  | [] => None
  | route :: rest =>
      if methodExcludes (api_method route) method_lower
      then matchApiRouteLoop pathname method_lower rest
      else match apiMatchPattern (api_pattern route) pathname with
           | Some ps => Some (mkApiMatch route ps)
           | None => matchApiRouteLoop pathname method_lower rest
           end
  end.

Definition matchApiRoute (pathname method : string) (routes : list ApiRoute)
    : option ApiMatch :=
  matchApiRouteLoop pathname (Str.toLowerCase method) routes.

(** ** Page routes: from files to flat routes (router.ts, fileToRoute) *)

(** A route object as the builder handles it: [children] is the address of
    the array in the store, so that a copy made with a spread shares the
    array of the object it was copied from. *)
Record RouteObj : Type := mkRouteObj {
  o_pattern : string;
  o_filePath : string;
  o_isDynamic : bool;
  o_params : list string;
  o_children : nat
}.

(** The store of [children] arrays. *)
Abbreviation Store := (list (list RouteObj)).

Definition readArray (st : Store) (a : nat) : list RouteObj := st !!! a.

(** [arr.push(x)] on the array at address [a]. *)
Definition pushArray (a : nat) (x : RouteObj) (st : Store) : Store :=
  alter (fun arr => arr ++ [x]) a st.

(** [file.replace(/\.(vue|tsx?|jsx?)$/, "")]. *)
Definition PAGE_EXTENSIONS : list string := [".vue"; ".tsx"; ".ts"; ".jsx"; ".js"].

Definition stripPageExt (file : string) : string :=
  Str.stripSuffixes PAGE_EXTENSIONS file.

(** The callback of [segments.map] in [fileToRoute]: the token, and the
    name it pushes on [params] (with [is_dynamic = true]) when there is
    one. *)
Definition pageSegmentToUrl (segment : string) : string * option string :=
  match captureWord "[..." "]" segment with
  | Some name => (":" +:+ name +:+ "+", Some name)
  | None =>
      match captureWord "[[..." "]]" segment with
      | Some name => (":" +:+ name +:+ "*", Some name)
      | None =>
          match captureWord "[" "]" segment with
          | Some name => (":" +:+ name, Some name)
          | None => (segment, None)
          end
      end
  end.

(** [segments.map(callback)], threading [params] and [is_dynamic]. *)
Fixpoint mapPageSegments (segments : list string) (ps : list string) (is_dynamic : bool)
    : list string * list string * bool :=
  match segments with
  | [] => ([], ps, is_dynamic)
  | segment :: rest =>
      match pageSegmentToUrl segment with
      | (tok, Some name) =>
          let '(toks, ps', d') := mapPageSegments rest (ps ++ [name]) true in
          (tok :: toks, ps', d')
      | (tok, None) =>
          let '(toks, ps', d') := mapPageSegments rest ps is_dynamic in
          (tok :: toks, ps', d')
      end
  end.

(** [normalizeString] of [node:path]: the segments of a path with the
    empty ones and the dots resolved. [res] holds the segments kept so
    far, the last one first. A [..] removes the segment before it, unless
    there is none or it is itself [..]; then it is kept when the path is
    relative and dropped when it is absolute. *)
Fixpoint normalizeSegments (allowAboveRoot : bool) (segs res : list string) : list string :=
  match segs with
  | [] => rev res
  | seg :: segs' =>
      if (String.eqb seg "" || String.eqb seg ".")%bool
      then normalizeSegments allowAboveRoot segs' res
      else if String.eqb seg ".." then
        match res with
        | top :: res' =>
            if String.eqb top ".."
            then normalizeSegments allowAboveRoot segs'
                   (if allowAboveRoot then ".." :: res else res)
            else normalizeSegments allowAboveRoot segs' res'
        | [] =>
            normalizeSegments allowAboveRoot segs'
              (if allowAboveRoot then [".."] else [])
        end
      else normalizeSegments allowAboveRoot segs' (seg :: res)
  end.

(** [path.normalize(p)]. *)
Definition pathNormalize (p : string) : string :=
  if String.eqb p "" then "."
  else
    let isAbsolute := Str.startsWith "/" p in
    let trailingSeparator := Str.endsWith "/" p in
    let res := Str.join "/" (normalizeSegments (negb isAbsolute) (Str.split "/" p) []) in
    if String.eqb res "" then
      if isAbsolute then "/" else if trailingSeparator then "./" else "."
    else
      (if isAbsolute then "/" else "") +:+ res +:+ (if trailingSeparator then "/" else "").

(** [path.join(...args)]: the arguments that are not empty, joined by
    slashes and normalized. *)
Definition pathJoinN (args : list string) : string :=
  match filter (fun a => Is_true (Str.nonempty a)) args with
  | [] => "."
  | first :: more => pathNormalize (Str.join "/" (first :: more))
  end.

(** [path.join(dir, file)]. *)
Definition pathJoin (dir file : string) : string := pathJoinN [dir; file].

(** [path.basename(p)]. *)
Definition basename (p : string) : string := lastOf (Str.segments p).

(** The fields [fileToRoute] computes: pattern, isDynamic, params. *)
Definition fileToFields (file : string) : string * bool * list string :=
  let ext_without := stripPageExt file in
  let segments := Str.split "/" ext_without in
  let segments :=
    if String.eqb (lastOf segments) "index" then removelast segments else segments in
  let '(segments_url, ps, is_dynamic) := mapPageSegments segments [] false in
  ("/" +:+ Str.join "/" segments_url, is_dynamic, ps).

(** [fileToRoute]: the new object owns a fresh, empty [children] array. *)
Definition fileToRoute (file pagesDir : string) (st : Store) : RouteObj * Store :=
  let '(pat, is_dynamic, ps) := fileToFields file in
  (mkRouteObj pat (pathJoin pagesDir file) is_dynamic ps (length st), st ++ [[]]).

(** ** Page routes: the nested tree (router.ts, buildRouteTree) *)

(** A JavaScript [Map] with string keys: insertion-ordered, a second
    [set] of a key replaces the value in place. *)
Fixpoint mapSet {V : Type} (k : string) (v : V) (m : list (string * V))
    : list (string * V) :=
  match m with
  | [] => [(k, v)]
  | (k', v') :: m' =>
      if String.eqb k' k then (k, v) :: m' else (k', v') :: mapSet k v m'
  end.

(** [basename.match(/^index\.(vue|tsx?|jsx?)$/)]. *)
Definition isIndexFile (base : string) : bool :=
  existsb (fun e => String.eqb base ("index" +:+ e)) PAGE_EXTENSIONS.

(** First pass. A route object is identified by its index in
    [flat_routes]; the map keeps the index next to the object. *)
Fixpoint indexParents (i : nat) (flat : list RouteObj)
    (map_parent : list (string * (nat * RouteObj))) : list (string * (nat * RouteObj)) :=
  match flat with
  | [] => map_parent
  | route :: rest =>
      if String.eqb (o_pattern route) "/" then indexParents (S i) rest map_parent
      else if isIndexFile (basename (o_filePath route))
      then indexParents (S i) rest map_parent
      else indexParents (S i) rest (mapSet (o_pattern route) (i, route) map_parent)
  end.

(** [route.pattern.startsWith(prefix) &&
     !route.pattern.slice(prefix.length).includes("/")]. *)
Definition isDirectChild (pat pattern_parent : string) : bool :=
  let prefix := pattern_parent +:+ "/" in
  Str.startsWith prefix pat && negb (Str.includes "/" (Str.drop (String.length prefix) pat)).

(** The relative pattern of a child. *)
Definition patternChild (pat pattern_parent : string) : string :=
  if String.eqb pat pattern_parent then EmptyString
  else Str.drop (String.length (pattern_parent +:+ "/")) pat.

(** [{ ...route, pattern: pattern_child }]. *)
Definition withPattern (route : RouteObj) (p : string) : RouteObj :=
  mkRouteObj p (o_filePath route) (o_isDynamic route) (o_params route) (o_children route).

(** Second pass, inner loop: route [i] against every entry of the map. *)
Fixpoint attachToParents (i : nat) (route : RouteObj)
    (map_parent : list (string * (nat * RouteObj)))
    (st : Store) (set_child_indices : gset nat) : Store * gset nat :=
  match map_parent with
  | [] => (st, set_child_indices)
  | (pattern_parent, (j, route_parent)) :: rest =>
      if Nat.eqb i j then attachToParents i route rest st set_child_indices
      else
        let is_direct_child := isDirectChild (o_pattern route) pattern_parent in
        let is_index_child := String.eqb (o_pattern route) pattern_parent in
        if (is_direct_child || is_index_child)%bool then
          attachToParents i route rest
            (pushArray (o_children route_parent)
               (withPattern route (patternChild (o_pattern route) pattern_parent)) st)
            ({[ i ]} ∪ set_child_indices)
        else attachToParents i route rest st set_child_indices
  end.

(** Second pass, outer loop. *)
Fixpoint findChildren (i : nat) (flat : list RouteObj)
    (map_parent : list (string * (nat * RouteObj)))
    (st : Store) (set_child_indices : gset nat) : Store * gset nat :=
  match flat with
  | [] => (st, set_child_indices)
  | route :: rest =>
      let '(st', set') := attachToParents i route map_parent st set_child_indices in
      findChildren (S i) rest map_parent st' set'
  end.

Section Sorting.

Context {A : Type}.
Variable compareFn : A -> A -> Z.

(** [Array.prototype.sort(compareFn)] is a stable sort; for a consistent
    comparator every stable sort gives the same array. *)
Fixpoint insertSorted (x : A) (l : list A) : list A :=
  match l with
  | [] => [x]
  | y :: l' => if compareFn x y <=? 0 then x :: y :: l' else y :: insertSorted x l'
  end.

Definition sortBy (l : list A) : list A := foldr insertSorted [] l.

End Sorting.

Section TreeBuilder.

(** [String.prototype.localeCompare]. *)
Variable localeCompare : string -> string -> Z.

(** The comparator given to both calls of [sort]. *)
Definition compareRoutes (a b : RouteObj) : Z :=
  let diff := routePrecedence (o_pattern a) - routePrecedence (o_pattern b) in
  if negb (diff =? 0) then diff else localeCompare (o_pattern a) (o_pattern b).

(** Third pass: the routes that did not become children, each with its
    own array sorted in place. *)
Fixpoint collectTop (i : nat) (flat : list RouteObj) (set_child_indices : gset nat)
    (st : Store) (routes_top : list RouteObj) : list RouteObj * Store :=
  match flat with
  | [] => (routes_top, st)
  | route :: rest =>
      if decide (i ∈ set_child_indices)
      then collectTop (S i) rest set_child_indices st routes_top
      else
        let st' :=
          if Nat.ltb 0 (length (readArray st (o_children route)))
          then alter (sortBy compareRoutes) (o_children route) st
          else st in
        collectTop (S i) rest set_child_indices st' (routes_top ++ [route])
  end.

Definition buildRouteTree (flat_routes : list RouteObj) (st : Store)
    : list RouteObj * Store :=
  let map_parent := indexParents 0 flat_routes [] in
  let '(st1, set_child_indices) := findChildren 0 flat_routes map_parent st ∅ in
  let '(routes_top, st2) := collectTop 0 flat_routes set_child_indices st1 [] in
  (sortBy compareRoutes routes_top, st2).

End TreeBuilder.

(** ** Page routes: scanning (router.ts, scanPageRoutes) *)

(** The file system as the scanners see it: for a directory, [None] when
    it does not exist, otherwise the relative paths of the files beneath
    it, in the order a walk yields them. *)
Definition FileSystem : Type := string -> option (list string).

(** [fs.existsSync(dir)]. *)
Definition existsSync (fs : FileSystem) (dir : string) : bool :=
  match fs dir with Some _ => true | None => false end.

(** A path with a directory or a file whose name starts with a dot: the
    wildcards of a glob pattern do not match such a name. *)
Definition hasDotSegment (file : string) : bool :=
  existsb (Str.startsWith ".") (Str.split "/" file).

(** [glob("**/*.{e1,e2,...}", { cwd })]: the files beneath [cwd] whose
    name ends in one of the extensions, those under a name that starts
    with a dot left out. A walk of a directory that cannot be read yields
    nothing. *)
Definition glob (exts : list string) (fs : FileSystem) (cwd : string) : list string :=
  match fs cwd with
  | None => []
  | Some files =>
      filter (fun f => Is_true (existsb (fun e => Str.endsWith e f) exts
                                && negb (hasDotSegment f))) files
  end.

(** [file.split(path.sep).some((segment) => segment.startsWith("_"))]. *)
Definition hasPrivateSegment (file : string) : bool :=
  existsb (Str.startsWith "_") (Str.split "/" file).

(** The [for await] loop of [scanPageRoutes]. *)
Fixpoint collectFlat (files : list string) (pagesDir : string)
    (flat_routes : list RouteObj) (st : Store) : list RouteObj * Store :=
  match files with
  | [] => (flat_routes, st)
  | file :: rest =>
      if hasPrivateSegment file then collectFlat rest pagesDir flat_routes st
      else
        let '(route, st') := fileToRoute file pagesDir st in
        collectFlat rest pagesDir (flat_routes ++ [route]) st'
  end.

(** Reading the tree out of the store: the value of a route object, its
    [children] followed [fuel] levels down. *)
Fixpoint reify (fuel : nat) (st : Store) (o : RouteObj) : Route :=
  mkRoute (o_pattern o) (o_filePath o) (o_isDynamic o) (o_params o)
    match fuel with
    | O => []
    | S fuel' => map (reify fuel' st) (readArray st (o_children o))
    end.

Section Scanner.

Variable localeCompare : string -> string -> Z.

(** [scanPageRoutes], with the objects still in the store. *)
Definition scanPageObjects (fs : FileSystem) (pagesDir : string)
    : list RouteObj * Store :=
  let '(flat_routes, st) := collectFlat (glob PAGE_EXTENSIONS fs pagesDir) pagesDir [] [] in
  buildRouteTree localeCompare flat_routes st.

(** [scanPageRoutes] as the caller reads its result. A chain of nested
    parents is no longer than the list of routes. *)
Definition scanPageRoutes (fs : FileSystem) (pagesDir : string) : list Route :=
  let '(routes, st) := scanPageObjects fs pagesDir in
  map (reify (length st) st) routes.

End Scanner.

(** Comparison of strings by character code, a comparator to run the
    definitions with. *)
Definition codeCompare (a b : string) : Z :=
  match String.compare a b with Lt => -1 | Eq => 0 | Gt => 1 end.

Definition pagesOf (files : list string) : FileSystem :=
  fun dir => if String.eqb dir "/app/pages" then Some files else None.

(** ** Page routes: the scan cache (router.ts, scanRoutes /
    invalidateRouteCache)

    [scanRoutes] is an [async] function: a call runs up to its [await]
    and hands a promise to the caller; the rest of its body runs when the
    awaited walk settles. [scanPageRoutes] is [async] too: the call
    returns its promise at once, the directory is read later, when the
    walk runs, and the promise is fulfilled after that. In between, other
    calls may run and the directory may change. The module-level
    [routeCache] and the walks in flight are the state. The walk is taken
    to read the directory in one step. *)

(** A value of [routeCache]: [{ routes, promise }]; the promise is named by
    the index of its walk. *)
Record CacheEntry : Type := mkCacheEntry {
  ce_routes : list Route;
  ce_promise : nat
}.

(** A call of [scanPageRoutes]: the directory it walks, the list it has
    built once it has read the directory, and whether its promise has
    been fulfilled with that list. *)
Record Walk : Type := mkWalk {
  walk_dir : string;
  walk_result : option (list Route);
  walk_settled : bool
}.

Record World : Type := mkWorld {
  w_fs : FileSystem;
  w_cache : gmap string CacheEntry;
  w_walks : list Walk
}.

Inductive Event : Type :=
| CallScan (pagesDir : string)        (* scanRoutes(pagesDir), up to the await *)
| ReadDir (promise : nat)             (* the walk reads its directory *)
| Settle (promise : nat)              (* the walk settles; the awaiting body resumes *)
| Invalidate (pagesDir : string)      (* invalidateRouteCache(pagesDir) *)
| WriteFs (pagesDir : string) (files : option (list string)).

Section Cache.

Variable localeCompare : string -> string -> Z.

(** [scanRoutes(pagesDir)] up to its [await]: the promise the caller is
    left with, and the new state. The walk that a call starts has not
    read the directory yet. *)
Definition scanRoutes (pagesDir : string) (w : World) : nat * World :=
  match w_cache w !! pagesDir with
  | Some cached => (ce_promise cached, w)
  | None =>
      let promise := length (w_walks w) in
      (promise,
       mkWorld (w_fs w)
         (<[pagesDir := mkCacheEntry [] promise]> (w_cache w))
         (w_walks w ++ [mkWalk pagesDir None false]))
  end.

(** The walk runs: it reads the directory as it is now, and builds its
    list. *)
Definition readDir (promise : nat) (w : World) : World :=
  match w_walks w !! promise with
  | Some wk =>
      match walk_result wk with
      | Some _ => w
      | None =>
          mkWorld (w_fs w) (w_cache w)
            (<[promise := mkWalk (walk_dir wk)
                            (Some (scanPageRoutes localeCompare (w_fs w) (walk_dir wk)))
                            false]> (w_walks w))
      end
  | None => w
  end.

(** The body of [scanRoutes] after the [await], run when the walk
    settles, which it does once it has read the directory:
    [routeCache.set(pagesDir, { routes, promise })]. *)
Definition settleWalk (promise : nat) (w : World) : World :=
  match w_walks w !! promise with
  | Some wk =>
      match walk_result wk with
      | Some routes =>
          if walk_settled wk then w
          else mkWorld (w_fs w)
                 (<[walk_dir wk := mkCacheEntry routes promise]> (w_cache w))
                 (<[promise := mkWalk (walk_dir wk) (Some routes) true]> (w_walks w))
      | None => w
      end
  | None => w
  end.

Definition invalidateRouteCache (pagesDir : string) (w : World) : World :=
  mkWorld (w_fs w) (delete pagesDir (w_cache w)) (w_walks w).

Definition writeFs (pagesDir : string) (files : option (list string)) (w : World) : World :=
  mkWorld (fun d => if String.eqb d pagesDir then files else w_fs w d) (w_cache w) (w_walks w).

(** One event; a call also yields the promise it returned. *)
Definition step (w : World) (e : Event) : option nat * World :=
  match e with
  | CallScan d => let '(p, w') := scanRoutes d w in (Some p, w')
  | ReadDir p => (None, readDir p w)
  | Settle p => (None, settleWalk p w)
  | Invalidate d => (None, invalidateRouteCache d w)
  | WriteFs d files => (None, writeFs d files w)
  end.

(** A run: the promises returned by the calls, in order, and the final
    state. *)
Fixpoint run (w : World) (es : list Event) : list nat * World :=
  match es with
  | [] => ([], w)
  | e :: es' =>
      let '(r, w') := step w e in
      let '(rs, w'') := run w' es' in
      (match r with Some p => p :: rs | None => rs end, w'')
  end.

(** What a caller holding [promise] receives, once the walk has settled. *)
Definition promiseValue (w : World) (promise : nat) : option (list Route) :=
  match w_walks w !! promise with
  | Some wk => if walk_settled wk then walk_result wk else None
  | None => None
  end.

End Cache.

Definition initialWorld (fs : FileSystem) : World := mkWorld fs ∅ [].

(** ** Endpoint routes: scanning (api-handler.ts, scanApiRoutes) *)

Definition API_EXTENSIONS : list string := [".ts"; ".js"].

(** The inner [for await] loop, for one directory. *)
Fixpoint collectApi (files : list string) (dir : string) (t : DirType)
    (routes : list ApiRoute) : list ApiRoute :=
  match files with
  | [] => routes
  | file :: rest =>
      let file_absolute := pathJoin dir file in
      let file_relative := "server/" +:+ dirName t +:+ "/" +:+ file in
      let filename := basename file in
      collectApi rest dir t
        (routes ++ [mkApiRoute (filePathToRoutePattern file_relative t)
                      file_absolute (extractHttpMethod filename)])
  end.

(** The outer loop over [dirs_to_scan]. *)
Fixpoint scanDirs (fs : FileSystem) (dirs : list (string * DirType))
    (routes : list ApiRoute) : list ApiRoute :=
  match dirs with
  | [] => routes
  | (dir, t) :: rest =>
      if negb (existsSync fs dir) then scanDirs fs rest routes
      else scanDirs fs rest (collectApi (glob API_EXTENSIONS fs dir) dir t routes)
  end.

Definition scanApiRoutes (fs : FileSystem) (root : string) : list ApiRoute :=
  scanDirs fs
    [ (pathJoinN [root; "server"; "api"], Api);
      (pathJoinN [root; "server"; "routes"], Routes) ]
    [].

Definition serverOf (api routes : option (list string)) : FileSystem :=
  fun dir =>
    if String.eqb dir "/app/server/api" then api
    else if String.eqb dir "/app/server/routes" then routes
    else None.


(** ** Host functions, to run the definitions with *)

(** [decodeURIComponent] on strings read as UTF-8: every escape [%XX] is
    replaced by its byte; an escape that is cut short, or a run of escaped
    bytes that is not the UTF-8 encoding of a code point, is an error. *)
Module Uri.

Definition hexVal (c : ascii) : option N :=
  let n := N_of_ascii c in
  if (N.leb 48 n && N.leb n 57)%bool then Some (n - 48)%N
  else if (N.leb 65 n && N.leb n 70)%bool then Some (n - 55)%N
  else if (N.leb 97 n && N.leb n 102)%bool then Some (n - 87)%N
  else None.

(** One escape at the head of [s]: its byte and the rest. *)
Definition escape (s : string) : option (N * string) :=
  match s with
  | String "%" (String h (String l rest)) =>
      match hexVal h, hexVal l with
      | Some a, Some b => Some (16 * a + b, rest)%N
      | _, _ => None
      end
  | _ => None
  end.

(** [k] continuation bytes, each escaped. *)
Fixpoint continuation (k : nat) (s : string) : option (list N * string) :=
  match k with
  | O => Some ([], s)
  | S k' =>
      match escape s with
      | Some (b, rest) =>
          if (N.leb 128 b && N.ltb b 192)%bool then
            match continuation k' rest with
            | Some (bs, r) => Some (b :: bs, r)
            | None => None
            end
          else None
      | None => None
      end
  end.

(** Is [lead] followed by [conts] the encoding of a code point? *)
Definition wellEncoded (lead : N) (conts : list N) : bool :=
  match conts with
  | [c1] =>
      let cp := ((lead - 192) * 64 + (c1 - 128))%N in
      N.leb 128 cp
  | [c1; c2] =>
      let cp := ((lead - 224) * 4096 + (c1 - 128) * 64 + (c2 - 128))%N in
      (N.leb 2048 cp && negb (N.leb 55296 cp && N.leb cp 57343))%bool
  | [c1; c2; c3] =>
      let cp := ((lead - 240) * 262144 + (c1 - 128) * 4096
                 + (c2 - 128) * 64 + (c3 - 128))%N in
      (N.leb 65536 cp && N.leb cp 1114111)%bool
  | _ => false
  end.

Definition bytesToString (bs : list N) : string :=
  foldr (fun b s => String (ascii_of_N b) s) EmptyString bs.

Fixpoint decodeLoop (fuel : nat) (s : string) : option string :=
  match fuel with
  | O => None
  | S fuel' =>
      match s with
      | EmptyString => Some EmptyString
      | String "%" _ =>
          match escape s with
          | None => None
          | Some (b, rest) =>
              if N.ltb b 128 then
                option_map (String (ascii_of_N b)) (decodeLoop fuel' rest)
              else
                let k := if N.ltb b 192 then 0%nat
                         else if N.ltb b 224 then 1%nat
                         else if N.ltb b 240 then 2%nat
                         else if N.ltb b 248 then 3%nat
                         else 0%nat in
                match k with
                | O => None
                | S _ =>
                    match continuation k rest with
                    | Some (bs, rest') =>
                        if wellEncoded b bs then
                          option_map (String.append (bytesToString (b :: bs)))
                            (decodeLoop fuel' rest')
                        else None
                    | None => None
                    end
                end
          end
      | String c rest => option_map (String c) (decodeLoop fuel' rest)
      end
  end.

Definition decodeURIComponent (s : string) : option string :=
  decodeLoop (S (String.length s)) s.

End Uri.

(** ** The description's reading of a pattern

    Definitions that follow the words of the description rather than the
    code, to compare the code with. *)

Inductive SegmentKind : Type := Static | Dynamic | CatchAll | OptionalCatchAll.

(** The tokens of a pattern are [:name+], [:name*] and [:name]; any other
    segment is literal text. *)
Definition specKind (seg : string) : SegmentKind :=
  if Str.startsWith ":" seg then
    if Str.endsWith "+" seg then CatchAll
    else if Str.endsWith "*" seg then OptionalCatchAll
    else Dynamic
  else Static.

(** The penalty of a segment at a position. *)
Definition specPenalty (k : SegmentKind) (position : Z) : Z :=
  match k with
  | Static => 0
  | Dynamic => 100 + position
  | CatchAll => 10000 + position
  | OptionalCatchAll => 20000 + position
  end.

(** The sum of the penalties, over the segments from [position] on. *)
Fixpoint specScoreFrom (position : Z) (segs : list string) : Z :=
  match segs with
  | [] => 0
  | seg :: rest => specPenalty (specKind seg) position + specScoreFrom (position + 1) rest
  end.

Definition specPrecedence (pattern : string) : Z :=
  specScoreFrom 0 (Str.segments pattern).

(** The direct match of a pattern against a URL, segment by segment. *)
Fixpoint specMatchSegments (pats urls : list string) (acc : gmap string ParamValue)
    : option (gmap string ParamValue) :=
  match pats with
  | [] => match urls with [] => Some acc | _ :: _ => None end
  | seg :: rest =>
      match specKind seg with
      | CatchAll =>
          match urls with
          | [] => None
          | _ :: _ => Some (<[Str.slice1m1 seg := PList urls]> acc)
          end
      | OptionalCatchAll => Some (<[Str.slice1m1 seg := PList urls]> acc)
      | Dynamic =>
          match urls with
          | [] => None
          | u :: urls' => specMatchSegments rest urls' (<[Str.drop 1 seg := PStr u]> acc)
          end
      | Static =>
          match urls with
          | [] => None
          | u :: urls' => if String.eqb u seg then specMatchSegments rest urls' acc else None
          end
      end
  end.

Definition specMatch (url pattern : string) : option (gmap string ParamValue) :=
  specMatchSegments (Str.segments pattern) (Str.segments url) ∅.

(** A segment that ends like a catch-all token also starts like one. *)
Definition tokenShaped (seg : string) : bool :=
  implb (Str.endsWith "+" seg || Str.endsWith "*" seg) (Str.startsWith ":" seg).



(** The root an endpoint pattern is put under: [/api] for the [api]
    directory, the bare root for [routes]; an empty remainder is the root
    itself. *)
Definition withRoot (t : DirType) (route_path : string) : string :=
  match t with
  | Api => if Str.nonempty route_path then "/api/" +:+ route_path else "/api"
  | Routes => if Str.nonempty route_path then "/" +:+ route_path else "/"
  end.

(** A last segment ["index"] is dropped. *)
Definition dropIndex (segs : list string) : list string :=
  if String.eqb (lastOf segs) "index" then removelast segs else segs.

(** *** The endpoint matcher as the description, amended, has it *)







(** ** Middleware files (server/middleware.ts)

    The scanner of the two middleware directories, which the server runs
    beside the endpoint scan. *)

(** [interface MiddlewareEntry]. *)
Record MiddlewareEntry : Type := mkMiddlewareEntry {
  mw_name : string;
  mw_file_path : string;
  mw_global : bool
}.

Definition MIDDLEWARE_EXTENSIONS : list string := [".ts"; ".js"].

(** [parseMiddlewareName]: the name, and [is_global]. *)
Definition parseMiddlewareName (filename : string) : string * bool :=
  let without_ext := stripTsJs filename in
  if Str.endsWith ".global" without_ext
  then (Str.dropEnd (String.length ".global") without_ext, true)
  else (without_ext, false).

(** The [for await] loop of [scanDir]. *)
Fixpoint collectMiddleware (files : list string) (dir : string)
    (entries : list MiddlewareEntry) : list MiddlewareEntry :=
  match files with
  | [] => entries
  | file :: rest =>
      let filename := basename file in
      let '(name, is_global) := parseMiddlewareName filename in
      collectMiddleware rest dir
        (entries ++ [mkMiddlewareEntry name (pathJoin dir file) is_global])
  end.

Definition scanDir (fs : FileSystem) (dir : string) : list MiddlewareEntry :=
  if negb (existsSync fs dir) then []
  else collectMiddleware (glob MIDDLEWARE_EXTENSIONS fs dir) dir [].

Definition scanMiddleware (fs : FileSystem) (root : string) : list MiddlewareEntry :=
  scanDir fs (pathJoinN [root; "middleware"]).

Definition scanServerMiddleware (fs : FileSystem) (root : string) : list MiddlewareEntry :=
  scanDir fs (pathJoinN [root; "server"; "middleware"]).

(** ** Notions used to state the properties *)

(** Reversal, to compare strings from their end. *)
Fixpoint srev (s : string) : string :=
  match s with
  | EmptyString => EmptyString
  | String c s' => srev s' +:+ String c EmptyString
  end.

(** [seg] is none of the three bracket forms. *)
Definition plainSegment (seg : string) : Prop :=
  forall name, Str.isWord name = true ->
    seg <> "[..." +:+ name +:+ "]" /\ seg <> "[[..." +:+ name +:+ "]]"
    /\ seg <> "[" +:+ name +:+ "]".

(** The last segment of a path ends in a dot and a recognised verb. *)
Definition lastHasVerb (seg : string) : bool :=
  let parts := Str.split "." seg in
  Nat.leb 2 (length parts) && isHttpMethod (Str.toLowerCase (lastOf parts)).

(** The test of the second pass of [buildRouteTree]:
    [is_direct_child || is_index_child]. *)
Definition isChildPattern (pat pattern_parent : string) : bool :=
  isDirectChild pat pattern_parent || String.eqb pat pattern_parent.

(** The copy of [route] that is pushed on the array of a parent. *)
Definition childCopy (route : RouteObj) (pattern_parent : string) : RouteObj :=
  withPattern route (patternChild (o_pattern route) pattern_parent).

(** Route [i] is taken as a child by the parent of an entry of the map. *)
Definition claims (i : nat) (route : RouteObj) (e : string * (nat * RouteObj)) : bool :=
  negb (Nat.eqb i (fst (snd e))) && isChildPattern (o_pattern route) (fst e).

(** The children of the parent at index [p]: the copies of the other
    routes whose pattern has the shape of a child, in the order of the
    scan; [k] is the index of the head of [flat]. *)
Fixpoint childrenFrom (k p : nat) (pattern_parent : string) (flat : list RouteObj)
    : list RouteObj :=
  match flat with
  | [] => []
  | r :: rest =>
      (if negb (Nat.eqb k p) && isChildPattern (o_pattern r) pattern_parent
       then [childCopy r pattern_parent] else [])
      ++ childrenFrom (S k) p pattern_parent rest
  end.

Definition childrenOf (p : nat) (pattern_parent : string) (flat : list RouteObj)
    : list RouteObj :=
  childrenFrom 0 p pattern_parent flat.

(** The routes whose index is not in [set]; [k] is the index of the head. *)
Fixpoint topFrom (k : nat) (set : gset nat) (flat : list RouteObj) : list RouteObj :=
  match flat with
  | [] => []
  | r :: rest => (if decide (k ∈ set) then [] else [r]) ++ topFrom (S k) set rest
  end.

(** The flat routes as [scanPageRoutes] hands them to [buildRouteTree]:
    route [i] owns the array at address [i], and every array is empty. *)
Definition Fresh (flat : list RouteObj) (st : Store) : Prop :=
  length st = length flat
  /\ (forall i r, flat !! i = Some r -> o_children r = i)
  /\ (forall a, readArray st a = []).

(** The order both calls of [sort] establish. *)
Definition routeLe (localeCompare : string -> string -> Z) (a b : RouteObj) : Prop :=
  compareRoutes localeCompare a b <= 0.

(** A comparison of strings that a sort can rely on. *)
Definition ConsistentCompare (cmp : string -> string -> Z) : Prop :=
  (forall a b, cmp a b <= 0 \/ cmp b a <= 0)
  /\ (forall a b c, cmp a b <= 0 -> cmp b c <= 0 -> cmp a c <= 0).

(** What the first pass leaves in [map_parent]: one entry per pattern,
    each naming a route of the list that is neither the root nor an index
    file. *)
Definition MapOK (flat : list RouteObj) (m : list (string * (nat * RouteObj))) : Prop :=
  NoDup (m.*1)
  /\ forall pat j r, (pat, (j, r)) ∈ m ->
       flat !! j = Some r /\ o_pattern r = pat /\ pat <> "/"
       /\ isIndexFile (basename (o_filePath r)) = false.

(** The copies that route [i] pushes on the array at address [a]. *)
Definition pushesTo (a i : nat) (route : RouteObj) (m : list (string * (nat * RouteObj)))
    : list RouteObj :=
  flat_map (fun e => if claims i route e && Nat.eqb (o_children (snd (snd e))) a
                     then [childCopy route (fst e)] else []) m.

Fixpoint pushedFrom (a i : nat) (flat : list RouteObj) (m : list (string * (nat * RouteObj)))
    : list RouteObj :=
  match flat with
  | [] => []
  | r :: rest => pushesTo a i r m ++ pushedFrom a (S i) rest m
  end.

(** How many routes have a pattern longer than [x]. *)
Definition longerThan (x : nat) (flat : list RouteObj) : nat :=
  length (filter (fun r => (x < String.length (o_pattern r))%nat) flat).

(** Either nothing hangs under address [a], or fewer than [fuel] routes
    have a longer pattern than the route that owns it. *)
Definition shallow (flat : list RouteObj) (st : Store) (fuel a : nat) : Prop :=
  readArray st a = []
  \/ exists r, flat !! a = Some r
               /\ (longerThan (String.length (o_pattern r)) flat < fuel)%nat.

(** ** Notions used to state further properties of the matchers *)

(** The three tests of the page [matchPattern] all fail on [seg]: the
    segment is compared with the URL segment as it stands. *)
Definition literalSegment (seg : string) : bool :=
  negb (Str.endsWith "+" seg) && negb (Str.endsWith "*" seg)
  && negb (Str.startsWith ":" seg).

(** The first two tests of the page [matchPattern]: [seg] takes the rest
    of the URL. *)
Definition isCatchAll (seg : string) : bool :=
  Str.endsWith "+" seg || Str.endsWith "*" seg.

(** The name the page [matchPattern] binds for a segment of the pattern. *)
Definition boundName (seg : string) : option string :=
  if isCatchAll seg then Some (Str.slice1m1 seg)
  else if Str.startsWith ":" seg then Some (Str.drop 1 seg)
  else None.

(** The URL segments a segment of the pattern stands for, under the
    parameters of a match. *)
Definition fillSegment (ps : gmap string ParamValue) (seg : string) : list string :=
  match boundName seg with
  | None => [seg]
  | Some name =>
      match ps !! name with
      | Some (PStr u) => [u]
      | Some (PList l) => l
      | None => []
      end
  end.

Definition fillPattern (ps : gmap string ParamValue) (pattern : string) : list string :=
  flat_map (fillSegment ps) (Str.segments pattern).

(** A catch-all, where there is one, is the last segment. *)
Fixpoint catchAllLast (pats : list string) : Prop :=
  match pats with
  | [] => True
  | seg :: rest => (isCatchAll seg = true -> rest = []) /\ catchAllLast rest
  end.

(** The test of [matchRoute] that lets the children of a route be tried
    when the pattern of the route itself does not match. *)
Definition underRoute (url_normalized : string) (route : Route) : bool :=
  Str.startsWith (if String.eqb (pattern route) "/" then "/" else pattern route +:+ "/")
    url_normalized
  || String.eqb url_normalized (pattern route).

(** A path segment as a file name gives it to both derivers and both
    matchers: not empty, without a slash, none of the bracket forms, and
    taken literally by the matchers. *)
Definition plainName (seg : string) : Prop :=
  seg <> "" /\ Str.includes "/" seg = false /\ plainSegment seg
  /\ literalSegment seg = true.

(** A segment of a URL. *)
Definition urlSegment (u : string) : Prop :=
  u <> "" /\ Str.includes "/" u = false.

(** A segment that [path.normalize] resolves rather than keeps. *)
Definition isDots (s : string) : bool := String.eqb s "." || String.eqb s "..".

(** An absolute path none of whose segments is [.] or [..]; it may have
    doubled slashes and a slash at its end. *)
Definition resolvedRoot (root : string) : Prop :=
  Str.startsWith "/" root = true
  /\ Forall (fun s => isDots s = false) (Str.segments root).

(** The route [scanApiRoutes] records for one file of a directory. *)
Definition apiRouteOf (dir : string) (t : DirType) (file : string) : ApiRoute :=
  mkApiRoute (filePathToRoutePattern ("server/" +:+ dirName t +:+ "/" +:+ file) t)
    (pathJoin dir file) (extractHttpMethod (basename file)).

(** The order of the routes of a scan, read on their patterns. *)
Definition patternLe (localeCompare : string -> string -> Z) (a b : Route) : Prop :=
  let diff := routePrecedence (pattern a) - routePrecedence (pattern b) in
  (if negb (diff =? 0) then diff else localeCompare (pattern a) (pattern b)) <= 0.

(** The segments under which the patterns of an endpoint directory are
    put. *)
Definition rootSegments (t : DirType) : list string :=
  match t with Api => ["api"] | Routes => [] end.

(** ** Notions used to state properties of runs of the scan cache *)

(** The directories of the calls of [scanRoutes] among the events, in
    order. *)
Fixpoint calledDirs (es : list Event) : list string :=
  match es with
  | [] => []
  | CallScan d :: es' => d :: calledDirs es'
  | _ :: es' => calledDirs es'
  end.

Definition isInvalidate (e : Event) : bool :=
  match e with Invalidate _ => true | _ => false end.

Definition isWriteFs (e : Event) : bool :=
  match e with WriteFs _ _ => true | _ => false end.

(** [e] is [invalidateRouteCache(d)]. *)
Definition invalidates (d : string) (e : Event) : bool :=
  match e with Invalidate d' => String.eqb d' d | _ => false end.

(** [e] is the reading of the directory by the walk [p]. *)
Definition reads (p : nat) (e : Event) : bool :=
  match e with ReadDir p' => Nat.eqb p' p | _ => false end.

(** The directory of the walk behind a promise, and the list the walk has
    built if it has read the directory. *)
Definition walkOf (w : World) (promise : nat) : option (string * option (list Route)) :=
  (fun wk => (walk_dir wk, walk_result wk)) <$> w_walks w !! promise.

(** Every entry of the cache holds the promise of a walk of its
    directory, and the routes of that walk once it has settled. *)
Definition cacheOK (w : World) : Prop :=
  forall d e, w_cache w !! d = Some e ->
    exists wk, w_walks w !! ce_promise e = Some wk /\ walk_dir wk = d
               /\ ce_routes e = if walk_settled wk then default [] (walk_result wk) else [].

(** Every walk is the one the cache holds for its directory. *)
Definition walksCached (w : World) : Prop :=
  forall p wk, w_walks w !! p = Some wk ->
    exists e, w_cache w !! walk_dir wk = Some e /\ ce_promise e = p.

(** The walk has read its directory. *)
Definition hasRead (wk : Walk) : bool :=
  match walk_result wk with Some _ => true | None => false end.

(** The walk has read its directory and its promise is fulfilled. *)
Definition walkDone (wk : Walk) : bool := hasRead wk && walk_settled wk.

(** No walk of [d] is in flight. *)
Definition settledFor (d : string) (w : World) : Prop :=
  forall q wk, w_walks w !! q = Some wk -> walk_dir wk = d -> walkDone wk = true.

(** The cache holds, for [d], the promise [p] of a walk of [d] that has
    built [routes] (nothing yet, if it has not read the directory), and
    no other walk of [d] is in flight. *)
Definition freshFor (d : string) (p : nat) (routes : option (list Route)) (w : World)
    : Prop :=
  (exists e, w_cache w !! d = Some e /\ ce_promise e = p)
  /\ walkOf w p = Some (d, routes)
  /\ forall q wk, w_walks w !! q = Some wk -> q <> p -> walk_dir wk = d ->
       walkDone wk = true.

(** A segment of the path of a page file: a plain name, or one of the
    bracket forms around a word. *)
Definition pageSegment (seg : string) : Prop :=
  plainName seg
  \/ exists name, Str.isWord name = true
       /\ (seg = "[" +:+ name +:+ "]" \/ seg = "[..." +:+ name +:+ "]"
           \/ seg = "[[..." +:+ name +:+ "]]").

(** ** The definitions at work *)

Example split_abs : Str.split "/" "/users/:id" = [""; "users"; ":id"].
Proof. reflexivity. Qed.
Example split_empty : Str.split "/" "" = [""].
Proof. reflexivity. Qed.
Example segments_root : Str.segments "/" = [].
Proof. reflexivity. Qed.
Example slice_token : Str.slice1m1 ":slug+" = "slug".
Proof. reflexivity. Qed.
Example between_catch : Str.between "[..." "]" "[...slug]" = Some "slug".
Proof. reflexivity. Qed.
Example lower_get : Str.toLowerCase "GeT" = "get".
Proof. reflexivity. Qed.
Example precedence_about : routePrecedence "/about" = 0.
Proof. reflexivity. Qed.
Example precedence_id : routePrecedence "/:id" = 100.
Proof. reflexivity. Qed.
Example precedence_posts_id : routePrecedence "/posts/:id" = 101.
Proof. reflexivity. Qed.
Example precedence_slug : routePrecedence "/:slug+" = 10000.
Proof. reflexivity. Qed.
Example precedence_opt : routePrecedence "/docs/:rest*" = 20001.
Proof. reflexivity. Qed.
Example match_posts_42 :
  matchPattern "/posts/42" "/posts/:id" = Some {[ "id" := PStr "42" ]}.
Proof. vm_compute. reflexivity. Qed.
Example match_missing : matchPattern "/missing" "/about" = None.
Proof. reflexivity. Qed.
Example extract_get : extractHttpMethod "users.get.ts" = Some "get".
Proof. reflexivity. Qed.
Example extract_none : extractHttpMethod "users.ts" = None.
Proof. reflexivity. Qed.
Example extract_index : extractHttpMethod "index.ts" = None.
Proof. reflexivity. Qed.
Example pattern_users : filePathToRoutePattern "server/api/users.ts" Api = "/api/users".
Proof. reflexivity. Qed.
Example pattern_nested :
  filePathToRoutePattern "server/api/users/[id]/posts/[postId].ts" Api
  = "/api/users/:id/posts/:postId".
Proof. reflexivity. Qed.
Example pattern_index : filePathToRoutePattern "server/api/users/index.ts" Api = "/api/users".
Proof. reflexivity. Qed.
Example pattern_catch : filePathToRoutePattern "server/api/[...slug].ts" Api = "/api/:slug+".
Proof. reflexivity. Qed.
Example pattern_health : filePathToRoutePattern "server/routes/health.ts" Routes = "/health".
Proof. reflexivity. Qed.
Example pattern_method : filePathToRoutePattern "server/api/users.get.ts" Api = "/api/users".
Proof. reflexivity. Qed.
Example pattern_root : filePathToRoutePattern "server/api/index.ts" Api = "/api".
Proof. reflexivity. Qed.
Example pattern_root_routes : filePathToRoutePattern "server/routes/index.ts" Routes = "/".
Proof. reflexivity. Qed.
Example fields_index : fileToFields "index.vue" = ("/", false, []).
Proof. reflexivity. Qed.
Example fields_about : fileToFields "about.vue" = ("/about", false, []).
Proof. reflexivity. Qed.
Example fields_posts_id : fileToFields "posts/[id].vue" = ("/posts/:id", true, ["id"]).
Proof. reflexivity. Qed.
Example fields_slug : fileToFields "[...slug].vue" = ("/:slug+", true, ["slug"]).
Proof. reflexivity. Qed.
Example fields_opt : fileToFields "docs/[[...rest]].tsx" = ("/docs/:rest*", true, ["rest"]).
Proof. reflexivity. Qed.
Example fields_users_index : fileToFields "users/index.vue" = ("/users", false, []).
Proof. reflexivity. Qed.
Example scan_sorted :
  map pattern (scanPageRoutes codeCompare (pagesOf ["[...slug].vue"; "[id].vue"; "about.vue"]) "/app/pages")
  = ["/about"; "/:id"; "/:slug+"].
Proof. vm_compute. reflexivity. Qed.
Example scan_nested :
  map (fun r => (pattern r, map pattern (children r)))
    (scanPageRoutes codeCompare (pagesOf ["users/[id].vue"; "users.vue"; "users/index.vue"]) "/app/pages")
  = [("/users", [""; ":id"])].
Proof. vm_compute. reflexivity. Qed.
Example scan_deep :
  map (fun r => (pattern r, map (fun c => (pattern c, map pattern (children c))) (children r)))
    (scanPageRoutes codeCompare
       (pagesOf ["users.vue"; "users/profile.vue"; "users/profile/[id].vue";
                 "users/profile/about.vue"]) "/app/pages")
  = [("/users", [("profile", [":id"; "about"])])].
Proof. vm_compute. reflexivity. Qed.
Example scan_api_both :
  map api_pattern (scanApiRoutes (serverOf (Some ["users.ts"]) (Some ["health.ts"])) "/app")
  = ["/api/users"; "/health"].
Proof. reflexivity. Qed.
Example scan_api_methods :
  map (fun r => (api_pattern r, api_method r))
    (scanApiRoutes (serverOf (Some ["users.get.ts"; "users.post.ts"]) None) "/app")
  = [("/api/users", Some "get"); ("/api/users", Some "post")].
Proof. reflexivity. Qed.
Example decode_plain : Uri.decodeURIComponent "/about" = Some "/about".
Proof. reflexivity. Qed.
Example decode_space : Uri.decodeURIComponent "/a%20b" = Some "/a b".
Proof. reflexivity. Qed.
Example decode_two_bytes :
  Uri.decodeURIComponent "/caf%C3%A9" = Some ("/caf" +:+ Uri.bytesToString [195; 169]%N).
Proof. reflexivity. Qed.
Example decode_cut_short : Uri.decodeURIComponent "/%E0%A4%A" = None.
Proof. reflexivity. Qed.
Example decode_not_hex : Uri.decodeURIComponent "/100%zz" = None.
Proof. reflexivity. Qed.
Example decode_lone_continuation : Uri.decodeURIComponent "/%80" = None.
Proof. reflexivity. Qed.
Example match_decoded :
  option_map (fun m => pattern (m_route m))
    (matchRoute Uri.decodeURIComponent "/hello%20world?x=1"
       [mkRoute "/hello world" "/p/hello world.vue" false [] []])
  = Some "/hello world".
Proof. vm_compute. reflexivity. Qed.
Example match_raw_fallback :
  option_map (fun m => (pattern (m_route m), m_params m))
    (matchRoute Uri.decodeURIComponent "/posts/%zz"
       [mkRoute "/posts/:id" "/p/posts/[id].vue" true ["id"] []])
  = Some ("/posts/:id", {[ "id" := PStr "%zz" ]}).
Proof. vm_compute. reflexivity. Qed.

(** ** Facts about the string operations *)

#[local] Arguments String.append : simpl nomatch.

Module StrFacts.

Lemma app_nil_r (s : string) : s +:+ "" = s.
Proof. induction s as [|c s IH]; simpl; [reflexivity | now f_equal]. Qed.

Lemma app_assoc (a b c : string) : (a +:+ b) +:+ c = a +:+ (b +:+ c).
Proof. induction a as [|x a IH]; simpl; [reflexivity | now f_equal]. Qed.

Lemma app_length (a b : string) :
  String.length (a +:+ b) = (String.length a + String.length b)%nat.
Proof. induction a as [|x a IH]; simpl; [reflexivity | now f_equal]. Qed.

Lemma app_inv_head (a b c : string) : a +:+ b = a +:+ c -> b = c.
Proof. induction a as [|x a IH]; simpl; intros H; [assumption | injection H; auto]. Qed.

(** *** Prefixes *)

Lemma startsWith_app (p r : string) : Str.startsWith p (p +:+ r) = true.
Proof.
  unfold Str.startsWith. induction p as [|x p IH]; simpl.
  - now destruct r.
  - destruct (ascii_dec x x); [assumption | contradiction].
Qed.

Lemma startsWith_inv (p s : string) :
  Str.startsWith p s = true -> exists r, s = p +:+ r.
Proof.
  unfold Str.startsWith. revert s. induction p as [|x p IH]; intros s H.
  - exists s. reflexivity.
  - destruct s as [|y s]; simpl in H; [discriminate|].
    destruct (ascii_dec x y) as [->|]; [|discriminate].
    destruct (IH s H) as [r ->]. exists r. reflexivity.
Qed.

Lemma startsWith_spec (p s : string) :
  Str.startsWith p s = true <-> exists r, s = p +:+ r.
Proof.
  split; [apply startsWith_inv|]. intros [r ->]. apply startsWith_app.
Qed.

Lemma drop_app (p r : string) : Str.drop (String.length p) (p +:+ r) = r.
Proof. induction p as [|x p IH]; simpl; [now destruct r | assumption]. Qed.

(** *** Suffixes *)

Lemma endsWith_unfold (suf s : string) :
  Str.endsWith suf s =
  if String.eqb s suf then true
  else match s with EmptyString => false | String _ s' => Str.endsWith suf s' end.
Proof. destruct s; reflexivity. Qed.

Lemma endsWith_refl (s : string) : Str.endsWith s s = true.
Proof. rewrite endsWith_unfold. now rewrite String.eqb_refl. Qed.

Lemma endsWith_app (a suf : string) : Str.endsWith suf (a +:+ suf) = true.
Proof.
  induction a as [|x a IH].
  - apply endsWith_refl.
  - change (String x a +:+ suf) with (String x (a +:+ suf)).
    rewrite endsWith_unfold, IH. now destruct (String.eqb _ suf).
Qed.

Lemma endsWith_inv (suf s : string) :
  Str.endsWith suf s = true -> exists a, s = a +:+ suf.
Proof.
  induction s as [|x s IH]; rewrite endsWith_unfold; intros H.
  - destruct (String.eqb_spec "" suf) as [E|E]; [|discriminate].
    subst suf. now exists "".
  - destruct (String.eqb_spec (String x s) suf) as [E|E].
    + subst suf. now exists "".
    + destruct (IH H) as [a ->]. now exists (String x a).
Qed.

Lemma endsWith_spec (suf s : string) :
  Str.endsWith suf s = true <-> exists a, s = a +:+ suf.
Proof. split; [apply endsWith_inv|]. intros [a ->]. apply endsWith_app. Qed.

Lemma substring_app (a b : string) : String.substring 0 (String.length a) (a +:+ b) = a.
Proof.
  induction a as [|x a IH]; simpl.
  - now destruct b.
  - now rewrite IH.
Qed.

Lemma dropEnd_app (a suf : string) : Str.dropEnd (String.length suf) (a +:+ suf) = a.
Proof.
  unfold Str.dropEnd. rewrite app_length.
  replace (String.length a + String.length suf - String.length suf)%nat
    with (String.length a) by lia.
  apply substring_app.
Qed.

Lemma between_app (op cl name : string) :
  Str.between op cl (op +:+ name +:+ cl) = Some name.
Proof.
  unfold Str.between. rewrite startsWith_app, drop_app, endsWith_app. simpl.
  now rewrite dropEnd_app.
Qed.

Lemma between_inv (op cl s name : string) :
  Str.between op cl s = Some name -> s = op +:+ name +:+ cl.
Proof.
  unfold Str.between. destruct (Str.startsWith op s) eqn:Hp; [|discriminate].
  apply startsWith_inv in Hp as [r ->]. rewrite drop_app. simpl.
  destruct (Str.endsWith cl r) eqn:Hs; [|discriminate].
  apply endsWith_inv in Hs as [a ->]. rewrite dropEnd_app. now intros [= ->].
Qed.

(** The last character of a string decides a one-character suffix. *)
Lemma endsWith_char_app (c : ascii) (a b : string) :
  b <> "" -> Str.endsWith (String c "") (a +:+ b) = Str.endsWith (String c "") b.
Proof.
  intros Hb. induction a as [|x a IH]; [reflexivity|].
  simpl. rewrite IH.
  destruct (a +:+ b) eqn:E.
  - destruct a; [simpl in E; contradiction | discriminate].
  - destruct (Ascii.eqb x c); reflexivity.
Qed.

(** *** Characters that do not occur *)

Lemma includes_app (c : ascii) (a b : string) :
  Str.includes c (a +:+ b) = (Str.includes c a || Str.includes c b)%bool.
Proof.
  induction a as [|x a IH]; simpl; [reflexivity|].
  rewrite IH. now rewrite orb_assoc.
Qed.

(** *** Splitting and joining *)

Lemma split_nonnil (c : ascii) (s : string) : Str.split c s <> [].
Proof.
  induction s as [|x s IH]; simpl; [discriminate|].
  destruct (Ascii.eqb x c); [discriminate|].
  destruct (Str.split c s); discriminate.
Qed.

Lemma split_none (c : ascii) (s : string) :
  Str.includes c s = false -> Str.split c s = [s].
Proof.
  induction s as [|x s IH]; simpl; [reflexivity|].
  destruct (Ascii.eqb x c); simpl; [discriminate|].
  intros H. now rewrite (IH H).
Qed.

Lemma split_app (c : ascii) (a b : string) :
  Str.includes c a = false ->
  Str.split c (a +:+ String c b) = a :: Str.split c b.
Proof.
  induction a as [|x a IH]; simpl.
  - now rewrite Ascii.eqb_refl.
  - destruct (Ascii.eqb x c); simpl; [discriminate|].
    intros H. now rewrite (IH H).
Qed.

Lemma join_cons (sep x : string) (l : list string) :
  l <> [] -> Str.join sep (x :: l) = x +:+ sep +:+ Str.join sep l.
Proof. destruct l; [contradiction | reflexivity]. Qed.

Lemma split_join (c : ascii) (l : list string) :
  l <> [] -> Forall (fun x => Str.includes c x = false) l ->
  Str.split c (Str.join (String c "") l) = l.
Proof.
  induction l as [|x l IH]; [contradiction|].
  intros _ Hall. inversion Hall as [|? ? Hx Hl]; subst.
  destruct l as [|y l].
  - simpl. now apply split_none.
  - rewrite join_cons by discriminate. simpl String.append.
    rewrite split_app by assumption. f_equal. apply IH; [discriminate | assumption].
Qed.

Lemma join_split (c : ascii) (s : string) :
  Str.join (String c "") (Str.split c s) = s.
Proof.
  induction s as [|x s IH]; simpl; [reflexivity|].
  destruct (Ascii.eqb_spec x c) as [->|Hne].
  - rewrite join_cons by apply split_nonnil. simpl. now rewrite IH.
  - destruct (Str.split c s) as [|h t] eqn:E; [now apply split_nonnil in E|].
    destruct t as [|h' t].
    + simpl in *. now rewrite IH.
    + rewrite join_cons in IH by discriminate. rewrite join_cons by discriminate.
      simpl. now rewrite <- IH.
Qed.

Lemma split_parts_clean (c : ascii) (s : string) :
  Forall (fun x => Str.includes c x = false) (Str.split c s).
Proof.
  induction s as [|x s IH]; simpl.
  - now repeat constructor.
  - destruct (Ascii.eqb x c) eqn:E; [now constructor|].
    destruct (Str.split c s) as [|h t].
    + repeat constructor. simpl. now rewrite E.
    + inversion IH; subst. constructor; [|assumption]. simpl. now rewrite E.
Qed.

Lemma join_snoc (sep x : string) (l : list string) :
  l <> [] -> Str.join sep (l ++ [x]) = Str.join sep l +:+ sep +:+ x.
Proof.
  induction l as [|y l IH]; [contradiction|]. intros _.
  destruct l as [|z l]; [reflexivity|].
  change ((y :: z :: l) ++ [x]) with (y :: ((z :: l) ++ [x])).
  rewrite join_cons by (simpl; discriminate).
  rewrite IH by discriminate. rewrite (join_cons sep y (z :: l)) by discriminate.
  now rewrite !app_assoc.
Qed.

Lemma lastOf_snoc (l : list string) (x : string) : lastOf (l ++ [x]) = x.
Proof. unfold lastOf. apply last_last. Qed.

(** Splitting a string whose last separator is known. *)
Lemma split_snoc (c : ascii) (a b : string) :
  Str.includes c b = false ->
  Str.split c (a +:+ String c b) = Str.split c a ++ [b].
Proof.
  intros Hb. induction a as [|x a IH]; simpl.
  - rewrite Ascii.eqb_refl. now rewrite split_none.
  - destruct (Ascii.eqb x c); [now rewrite IH|].
    rewrite IH. destruct (Str.split c a) eqn:E; [now apply split_nonnil in E|].
    reflexivity.
Qed.

(** *** Stripping a file extension *)

Lemma stripSuffixes_none (exts : list string) (s : string) :
  Forall (fun e => Str.endsWith e s = false) exts -> Str.stripSuffixes exts s = s.
Proof.
  induction 1 as [|e exts He _ IH]; simpl; [reflexivity|]. now rewrite He.
Qed.

End StrFacts.

(** ** The page matcher: normalisation of the URL *)

Section Normalisation.

Variable decodeURIComponent : string -> option string.



Lemma stripTrailingSlash_root : stripTrailingSlash "/" = "/".
Proof. reflexivity. Qed.





End Normalisation.


(** ** Scanning a directory that is not there *)

Section MissingDirectory.

Variable localeCompare : string -> string -> Z.

Lemma glob_missing (exts : list string) (fs : FileSystem) (dir : string) :
  fs dir = None -> glob exts fs dir = [].
Proof. intros H. unfold glob. now rewrite H. Qed.

Lemma scanPageObjects_missing (fs : FileSystem) (pagesDir : string) :
  fs pagesDir = None -> scanPageObjects localeCompare fs pagesDir = ([], []).
Proof. intros H. unfold scanPageObjects. now rewrite glob_missing. Qed.

Lemma existsSync_missing (fs : FileSystem) (dir : string) :
  fs dir = None -> existsSync fs dir = false.
Proof. intros H. unfold existsSync. now rewrite H. Qed.

(** C10. A page directory that does not exist scans to the empty list of
    routes, through [scanPageRoutes] and through the cached [scanRoutes]
    alike (the walk it starts reads nothing and is fulfilled with the
    empty list); an endpoint directory that does not exist contributes
    no route, so with both missing the endpoint scan is empty, and with
    one missing it is the scan of the other. None of these is an error:
    the scanners are total functions. *)
Theorem scan_missing_directory_is_empty (fs : FileSystem) (w : World) (root pagesDir : string) :
  (fs pagesDir = None -> scanPageRoutes localeCompare fs pagesDir = [])
  /\ (w_fs w pagesDir = None -> w_cache w !! pagesDir = None ->
      let '(promise, w') := scanRoutes pagesDir w in
      promiseValue (settleWalk promise (readDir localeCompare promise w')) promise
      = Some [])
  /\ (fs (pathJoinN [root; "server"; "api"]) = None ->
      fs (pathJoinN [root; "server"; "routes"]) = None ->
      scanApiRoutes fs root = [])
  /\ (fs (pathJoinN [root; "server"; "api"]) = None ->
      scanApiRoutes fs root
      = scanDirs fs [(pathJoinN [root; "server"; "routes"], Routes)] [])
  /\ (fs (pathJoinN [root; "server"; "routes"]) = None ->
      scanApiRoutes fs root
      = scanDirs fs [(pathJoinN [root; "server"; "api"], Api)] []).
Proof.
  split; [|split; [|split; [|split]]].
  - intros H. unfold scanPageRoutes. now rewrite scanPageObjects_missing.
  - intros Hfs Hc. unfold scanRoutes. rewrite Hc.
    assert (Hlen : (length (w_walks w) < length (w_walks w ++ [mkWalk pagesDir None false]))%nat)
      by (rewrite length_app; simpl; lia).
    unfold readDir. cbn [w_walks w_fs w_cache].
    rewrite lookup_app_r by reflexivity.
    rewrite Nat.sub_diag. cbn [lookup list_lookup walk_settled walk_dir walk_result].
    unfold scanPageRoutes. rewrite scanPageObjects_missing by assumption.
    unfold settleWalk. cbn [w_walks w_fs w_cache map].
    rewrite list_lookup_insert_eq by assumption.
    cbn [walk_settled walk_dir walk_result].
    unfold promiseValue. cbn [w_walks].
    rewrite list_lookup_insert_eq by (now rewrite length_insert).
    reflexivity.
  - intros Ha Hr. unfold scanApiRoutes. cbn [scanDirs].
    now rewrite !existsSync_missing.
  - intros Ha. unfold scanApiRoutes. cbn [scanDirs].
    now rewrite (existsSync_missing _ _ Ha).
  - intros Hr. unfold scanApiRoutes. cbn [scanDirs].
    rewrite (existsSync_missing _ _ Hr). cbn [negb].
    now destruct (existsSync fs _).
Qed.

End MissingDirectory.

(** A project with neither [pages/] nor [server/]. *)
Lemma scan_missing_directory_is_empty_witness :
  scanPageRoutes codeCompare (fun _ => None) "/app/pages" = []
  /\ scanApiRoutes (fun _ => None) "/app" = [].
Proof.
  pose proof (scan_missing_directory_is_empty codeCompare (fun _ => None)
                (initialWorld (fun _ => None)) "/app" "/app/pages") as (H1 & _ & H3 & _).
  split; [exact (H1 eq_refl) | exact (H3 eq_refl eq_refl)].
Defined.

(** ** The page matcher: routes with children *)

Lemma matchPatternLoop_self (pre suf : list string) (acc : gmap string ParamValue) :
  is_Some (matchPatternLoop (length (pre ++ suf)) (length pre) suf (pre ++ suf) acc).
Proof.
  revert pre acc. induction suf as [|pp rest IH]; intros pre acc; cbn [matchPatternLoop].
  - rewrite Nat.eqb_refl. eauto.
  - assert (Hdrop : drop (length pre) (pre ++ pp :: rest) = pp :: rest)
      by now rewrite drop_app_length.
    assert (Hlook : (pre ++ pp :: rest) !! length pre = Some pp)
      by now rewrite list_lookup_middle.
    assert (Hstep : forall acc',
      is_Some (matchPatternLoop (length (pre ++ pp :: rest)) (S (length pre)) rest
                 (pre ++ pp :: rest) acc')).
    { intros acc'. specialize (IH (pre ++ [pp]) acc').
      replace (length (pre ++ [pp])) with (S (length pre)) in IH
        by (rewrite length_app; simpl; lia).
      now rewrite <- app_assoc in IH. }
    rewrite Hdrop, Hlook.
    destruct (Str.endsWith "+" pp); [eauto|].
    destruct (Str.endsWith "*" pp); [eauto|].
    destruct (Str.startsWith ":" pp); [apply Hstep|].
    rewrite String.eqb_refl. apply Hstep.
Qed.

(** A URL that is the pattern, character for character, matches it. *)
Lemma matchPattern_self (s : string) : is_Some (matchPattern s s).
Proof. unfold matchPattern. apply (matchPatternLoop_self [] (Str.segments s) ∅). Qed.

Lemma matchRouteLoop_skip (u : string) (before : list Route) (rest : list Route) :
  Forall (fun r => matchRouteStep u r = None) before ->
  matchRouteLoop u (before ++ rest) = matchRouteLoop u rest.
Proof.
  induction 1 as [|r before Hr _ IH]; [reflexivity|].
  cbn [app matchRouteLoop]. now rewrite Hr.
Qed.

Lemma matchChildrenLoop_child (u : string) (parent : Route) (cs : list Route) (m : Match) :
  matchChildrenLoop u parent cs = Some m ->
  m_route m ∈ cs /\ matchPattern u (patternFull parent (m_route m)) = Some (m_params m).
Proof.
  induction cs as [|c cs IH]; cbn [matchChildrenLoop]; [discriminate|].
  destruct (matchPattern u (patternFull parent c)) as [ps|] eqn:E.
  - intros [= <-]. cbn. split; [left | assumption].
  - intros H. destruct (IH H) as [Hin Hp]. split; [now right | assumption].
Qed.

(** The pattern an index child is matched under is the parent's own. *)
Lemma patternFull_index (parent child : Route) (u : string) :
  pattern child = "" ->
  matchPattern u (patternFull parent child) = matchPattern u (pattern parent).
Proof.
  intros Hc. unfold patternFull. rewrite Hc.
  destruct (String.eqb_spec (pattern parent) "/") as [->|_]; reflexivity.
Qed.

Section NestedMatch.

Variable decodeURIComponent : string -> option string.

(** C3. A route with children, reached by the loop of [matchRoute]
    (no earlier route of the list returned): its own pattern is tested
    against the normalised URL first. When that succeeds, the children
    are tried: a child that matches is the result, so an index child
    (relative pattern [""]), which matches whenever the parent does, wins
    over the bare parent, and when no child matches the parent is the
    result with the parameters of its own pattern. When it fails and the
    URL starts with the parent pattern followed by ["/"] (for the root
    route, with ["/"]), or is the pattern itself, the children are tried
    and a child that matches is returned at once. A URL equal to the
    pattern always passes the first test. *)
Theorem matchRoute_children_first
    (url : string) (before rest : list Route) (route : Route) :
  children route <> [] ->
  let u := normalizeUrl decodeURIComponent url in
  Forall (fun r => matchRouteStep u r = None) before ->
  let result := matchRoute decodeURIComponent url (before ++ route :: rest) in
  (u = pattern route -> is_Some (matchPattern u (pattern route)))
  /\ (forall params_parent, matchPattern u (pattern route) = Some params_parent ->
        (forall m, matchChildren u route = Some m ->
           result = Some m /\ m_route m ∈ children route)
        /\ (matchChildren u route = None -> result = Some (mkMatch route params_parent))
        /\ (forall idx, idx ∈ children route -> pattern idx = "" ->
              exists m, result = Some m /\ m_route m ∈ children route)
        /\ (forall idx cs, children route = idx :: cs -> pattern idx = "" ->
              result = Some (mkMatch idx params_parent)))
  /\ (matchPattern u (pattern route) = None ->
      Str.startsWith (if String.eqb (pattern route) "/" then "/" else pattern route +:+ "/") u = true
      \/ u = pattern route ->
      forall m, matchChildren u route = Some m ->
        result = Some m /\ m_route m ∈ children route)
  /\ (Str.startsWith (if String.eqb (pattern route) "/" then "/" else pattern route +:+ "/") u = true
      \/ u = pattern route ->
      forall m, matchChildren u route = Some m -> result = Some m).
Proof.
  intros Hc u Hbefore result. subst result. unfold matchRoute. fold u.
  rewrite (matchRouteLoop_skip u before (route :: rest) Hbefore).
  cbn [matchRouteLoop]. unfold matchRouteStep.
  destruct (children route) as [|c0 cs0] eqn:Ecs; [contradiction|].
  split; [intros H; rewrite <- H; apply matchPattern_self|].
  split.
  - intros pp Hpp. rewrite Hpp.
    assert (Hchild : forall m, matchChildren u route = Some m -> m_route m ∈ c0 :: cs0).
    { intros m Hm. unfold matchChildren in Hm. rewrite Ecs in Hm.
      now apply matchChildrenLoop_child in Hm as [? _]. }
    split; [|split; [|split]].
    + intros m Hm. rewrite Hm. split; [reflexivity | now apply Hchild].
    + intros ->. reflexivity.
    + intros idx Hin Hidx.
      assert (Hsome : is_Some (matchChildren u route)).
      { unfold matchChildren. rewrite Ecs. clear -Hin Hidx Hpp.
        induction Hin as [idx cs|idx c cs Hin IH]; cbn [matchChildrenLoop].
        - rewrite (patternFull_index route idx u Hidx), Hpp. cbn. eauto.
        - destruct (matchPattern u (patternFull route c)); [cbn; eauto | now apply IH]. }
      destruct Hsome as [m Hm]. exists m. rewrite Hm. split; [reflexivity | now apply Hchild].
    + intros idx cs [= -> ->] Hidx.
      unfold matchChildren. rewrite Ecs. cbn [matchChildrenLoop].
      now rewrite (patternFull_index route idx u Hidx), Hpp.
  - assert (Hcond : Str.startsWith
              (if String.eqb (pattern route) "/" then "/" else pattern route +:+ "/") u = true
            \/ u = pattern route ->
            (Str.startsWith
              (if String.eqb (pattern route) "/" then "/" else pattern route +:+ "/") u
            || String.eqb u (pattern route))%bool = true).
    { intros [H | H]; [now rewrite H|].
      rewrite <- H, String.eqb_refl. apply orb_true_r. }
    split.
    + intros Hnone Hprefix m Hm. rewrite Hnone, (Hcond Hprefix), Hm.
      split; [reflexivity|].
      unfold matchChildren in Hm. rewrite Ecs in Hm.
      now apply matchChildrenLoop_child in Hm as [? _].
    + intros Hprefix m Hm. rewrite (Hcond Hprefix), Hm.
      now destruct (matchPattern u (pattern route)).
Qed.

End NestedMatch.

(** [/users] with an index child and a dynamic child: the index child
    answers [/users], the dynamic child answers [/users/7]. *)
Lemma matchRoute_children_first_witness :
  let idx := mkRoute "" "/p/users/index.vue" false [] [] in
  let dyn := mkRoute ":id" "/p/users/[id].vue" true ["id"] [] in
  let users := mkRoute "/users" "/p/users.vue" false [] [idx; dyn] in
  let about := mkRoute "/about" "/p/about.vue" false [] [] in
  matchRoute Uri.decodeURIComponent "/users" [about; users] = Some (mkMatch idx ∅)
  /\ matchRoute Uri.decodeURIComponent "/users/7" [about; users]
     = Some (mkMatch dyn {[ "id" := PStr "7" ]}).
Proof.
  intros idx dyn users about.
  assert (Hc : children users <> []) by discriminate.
  split.
  - pose proof (matchRoute_children_first Uri.decodeURIComponent "/users" [about] [] users Hc
                  ltac:(repeat constructor)) as (_ & H & _).
    destruct (H ∅ ltac:(vm_compute; reflexivity)) as (_ & _ & _ & Hidx).
    exact (Hidx idx [dyn] eq_refl eq_refl).
  - pose proof (matchRoute_children_first Uri.decodeURIComponent "/users/7" [about] [] users Hc
                  ltac:(repeat constructor)) as (_ & _ & H & _).
    refine (proj1 (H _ _ (mkMatch dyn {[ "id" := PStr "7" ]}) _)).
    + vm_compute. reflexivity.
    + left. vm_compute. reflexivity.
    + vm_compute. reflexivity.
Defined.

(** ** The scan cache *)

Section CacheFacts.

Variable localeCompare : string -> string -> Z.

(** A cached directory is not walked again: the call returns the
    promise of the entry and leaves the state as it is. *)
Lemma scanRoutes_cached (d : string) (w : World) (e : CacheEntry) :
  w_cache w !! d = Some e -> scanRoutes d w = (ce_promise e, w).
Proof. intros H. unfold scanRoutes. now rewrite H. Qed.

(** A directory that is not cached is walked once, and the pending walk is
    what the cache holds from then on. *)
Lemma scanRoutes_uncached (d : string) (w : World) :
  w_cache w !! d = None ->
  let '(p, w') := scanRoutes d w in
  p = length (w_walks w)
  /\ length (w_walks w') = S (length (w_walks w))
  /\ w_cache w' !! d = Some (mkCacheEntry [] p)
  /\ promiseValue w' p = None.
Proof.
  intros H. unfold scanRoutes. rewrite H. cbn [w_walks w_cache].
  split; [reflexivity|]. split; [rewrite length_app; simpl; lia|].
  split; [apply lookup_insert_eq|].
  unfold promiseValue. cbn [w_walks].
  rewrite lookup_app_r by reflexivity. now rewrite Nat.sub_diag.
Qed.

(** Two calls for the same directory while its walk is pending: the same
    promise, one walk. *)
Lemma scanRoutes_shared (d : string) (w : World) :
  w_cache w !! d = None ->
  let '(p1, w1) := scanRoutes d w in
  let '(p2, w2) := scanRoutes d w1 in
  p2 = p1 /\ w2 = w1 /\ length (w_walks w2) = S (length (w_walks w)).
Proof.
  intros H. pose proof (scanRoutes_uncached d w H) as Hu.
  destruct (scanRoutes d w) as [p1 w1].
  destruct Hu as (_ & Hlen & Hc & _).
  rewrite (scanRoutes_cached d w1 _ Hc). auto.
Qed.

(** The walk that a call has started, once it has read the directory
    and settled. *)
Lemma walk_read_and_settled (d : string) (w : World) :
  w_cache w !! d = None ->
  let '(p1, w1) := scanRoutes d w in
  let w2 := settleWalk p1 (readDir localeCompare p1 w1) in
  w_cache w2 !! d = Some (mkCacheEntry (scanPageRoutes localeCompare (w_fs w) d) p1)
  /\ promiseValue w2 p1 = Some (scanPageRoutes localeCompare (w_fs w) d)
  /\ w_fs w2 = w_fs w.
Proof.
  intros H. unfold scanRoutes. rewrite H.
  assert (Hlen : (length (w_walks w) < length (w_walks w ++ [mkWalk d None false]))%nat)
    by (rewrite length_app; simpl; lia).
  unfold readDir. cbn [w_walks w_fs w_cache].
  rewrite lookup_app_r by reflexivity. rewrite Nat.sub_diag.
  cbn [lookup list_lookup walk_settled walk_dir walk_result].
  unfold settleWalk. cbn [w_walks w_fs w_cache].
  rewrite list_lookup_insert_eq by assumption.
  cbn [walk_settled walk_dir walk_result w_cache w_fs].
  split; [apply lookup_insert_eq|]. split; [|reflexivity].
  unfold promiseValue. cbn [w_walks].
  rewrite list_lookup_insert_eq by (now rewrite length_insert).
  reflexivity.
Qed.

(** After the walk has settled, further calls still return its promise,
    now fulfilled. *)
Lemma scanRoutes_settled (d : string) (w : World) :
  w_cache w !! d = None ->
  let '(p1, w1) := scanRoutes d w in
  let w2 := settleWalk p1 (readDir localeCompare p1 w1) in
  scanRoutes d w2 = (p1, w2)
  /\ promiseValue w2 p1 = Some (scanPageRoutes localeCompare (w_fs w) d).
Proof.
  intros H. pose proof (walk_read_and_settled d w H) as Hw.
  destruct (scanRoutes d w) as [p1 w1]. cbn zeta in *.
  destruct Hw as (Hc & Hv & _). split; [|assumption].
  now rewrite (scanRoutes_cached d _ _ Hc).
Qed.

Lemma invalidate_removes (d : string) (w : World) :
  w_cache (invalidateRouteCache d w) !! d = None.
Proof. apply lookup_delete_eq. Qed.

Lemma invalidate_noop (d : string) (w : World) :
  w_cache w !! d = None -> invalidateRouteCache d w = w.
Proof.
  intros H. destruct w as [fs c ws]. unfold invalidateRouteCache. cbn in *.
  now rewrite delete_id.
Qed.

(** A call that follows the invalidation directly walks the directory. *)
Lemma invalidate_then_scan (d : string) (w : World) :
  let '(p, w') := scanRoutes d (invalidateRouteCache d w) in
  length (w_walks w') = S (length (w_walks w))
  /\ promiseValue (settleWalk p (readDir localeCompare p w')) p
     = Some (scanPageRoutes localeCompare (w_fs w) d).
Proof.
  pose proof (walk_read_and_settled d (invalidateRouteCache d w) (invalidate_removes d w))
    as Hw.
  pose proof (scanRoutes_uncached d (invalidateRouteCache d w) (invalidate_removes d w))
    as Hu.
  destruct (scanRoutes d (invalidateRouteCache d w)) as [p w']. cbn zeta in *.
  destruct Hw as (_ & Hv & _). destruct Hu as (_ & Hlen & _). auto.
Qed.

(** The interleaving in which the invalidation falls between the
    reading of the directory and the settling of the walk: the body of
    [scanRoutes] that resumes after the [await] stores its result
    again, and the next call is served from it without a walk. *)
Lemma invalidated_in_flight (fs : FileSystem) (d : string) (files : option (list string)) :
  let '(ps, w) := run localeCompare (initialWorld fs)
                    [CallScan d; ReadDir 0; WriteFs d files; Invalidate d; Settle 0;
                     CallScan d] in
  ps = [0; 0]%nat
  /\ length (w_walks w) = 1%nat
  /\ promiseValue w 0 = Some (scanPageRoutes localeCompare fs d)
  /\ w_fs w d = files.
Proof.
  unfold initialWorld, run, step, writeFs, invalidateRouteCache.
  unfold scanRoutes at 1. cbn [w_cache w_walks w_fs length app].
  rewrite lookup_empty.
  unfold readDir. cbn [w_cache w_walks w_fs lookup list_lookup walk_result walk_dir
                       insert list_insert].
  unfold settleWalk. cbn [w_cache w_walks w_fs lookup list_lookup walk_settled walk_dir
                          walk_result].
  unfold scanRoutes. cbn [w_cache w_walks w_fs]. rewrite lookup_insert_eq.
  cbn [ce_promise w_walks w_fs insert list_insert length]. repeat split.
  now rewrite String.eqb_refl.
Qed.

End CacheFacts.

(** The walk reads the directory when it runs, not when it is called: a
    page added between the call and the reading is in the list. *)
Example walk_reads_lazily (localeCompare : string -> string -> Z) :
  let d := "/app/pages" in
  let '(ps, w) := run localeCompare (initialWorld (pagesOf ["about.vue"]))
                    [CallScan d; WriteFs d (Some ["about.vue"; "[id].vue"]);
                     ReadDir 0; Settle 0] in
  (map pattern <$> promiseValue w 0) = Some ["/about"; "/:id"].
Proof. vm_compute. reflexivity. Qed.

(** C5. [scanRoutes("/app/pages")] is called and its walk reads the
    directory; while the walk is still in flight a page [[id].vue] is
    added and the watcher calls [invalidateRouteCache("/app/pages")]; the
    walk settles; [scanRoutes] is called again. The second call is handed
    the promise of the first walk: no second walk is started, and the
    list delivered has no route for the page that was added before the
    invalidation. *)
Theorem scanRoutes_stale_after_invalidate (localeCompare : string -> string -> Z) :
  let d := "/app/pages" in
  let '(ps, w) := run localeCompare (initialWorld (pagesOf ["about.vue"]))
                    [CallScan d; ReadDir 0; WriteFs d (Some ["about.vue"; "[id].vue"]);
                     Invalidate d; Settle 0; CallScan d] in
  ps = [0; 0]%nat
  /\ length (w_walks w) = 1%nat
  /\ (map pattern <$> promiseValue w 0) = Some ["/about"]
  /\ map pattern (scanPageRoutes localeCompare (w_fs w) d) = ["/about"; "/:id"].
Proof. vm_compute. repeat split. Qed.

(** ** Patterns: the code against the description *)

Lemma precedenceLoop_spec (segs : list string) (i score : Z) :
  Forall (fun seg => tokenShaped seg = true) segs ->
  precedenceLoop i segs score = score + specScoreFrom i segs.
Proof.
  intros H. revert i score. induction H as [|seg segs Hseg _ IH]; intros i score.
  - simpl. lia.
  - cbn [precedenceLoop specScoreFrom]. rewrite IH.
    unfold tokenShaped in Hseg. unfold specKind.
    destruct (Str.endsWith "+" seg), (Str.endsWith "*" seg), (Str.startsWith ":" seg);
      simpl in *; try discriminate; lia.
Qed.

(** On patterns made of literal text and tokens, the score is the sum of
    the description. *)
Lemma routePrecedence_spec (pattern : string) :
  Forall (fun seg => tokenShaped seg = true) (Str.segments pattern) ->
  routePrecedence pattern = specPrecedence pattern.
Proof. intros H. unfold routePrecedence. now rewrite precedenceLoop_spec. Qed.



(** Without a catch-all of either kind, a match needs as many URL segments
    as the pattern has. *)
Lemma specMatchSegments_counts (pats urls : list string) (acc r : gmap string ParamValue) :
  Forall (fun seg => specKind seg = Static \/ specKind seg = Dynamic) pats ->
  specMatchSegments pats urls acc = Some r -> length urls = length pats.
Proof.
  intros H. revert urls acc. induction H as [|seg pats Hseg _ IH]; intros urls acc.
  - destruct urls; [reflexivity | discriminate].
  - cbn [specMatchSegments].
    destruct Hseg as [-> | ->]; destruct urls as [|u us]; try discriminate.
    + destruct (String.eqb u seg); [|discriminate]. intros Hm. simpl. f_equal. eauto.
    + intros Hm. simpl. f_equal. eauto.
Qed.

(** C1. The page [c++.vue] yields the pattern [/c++], a single literal
    segment. The description scores it 0; [routePrecedence] looks at the
    last character only and returns the catch-all penalty, so the literal
    route sorts behind a dynamic one. *)
Theorem routePrecedence_literal_plus (localeCompare : string -> string -> Z) :
  fileToFields "c++.vue" = ("/c++", false, [])
  /\ specKind "c++" = Static
  /\ specPrecedence "/c++" = 0
  /\ routePrecedence "/c++" = 10000
  /\ map pattern (scanPageRoutes localeCompare (pagesOf ["c++.vue"; "[id].vue"]) "/app/pages")
     = ["/:id"; "/c++"].
Proof. vm_compute. repeat split. Qed.

(** C2. Against the pattern [/c++], whose one segment is literal text, the
    URLs [/foo] and [/a/b] match: the segment is taken for a catch-all
    named ["+"], neither compared with the URL segment nor held to the
    segment count. The direct match of the description refuses both. *)
Theorem matchPattern_literal_plus :
  specKind "c++" = Static
  /\ matchPattern "/foo" "/c++" = Some {[ "+" := PList ["foo"] ]}
  /\ specMatch "/foo" "/c++" = None
  /\ matchPattern "/a/b" "/c++" = Some {[ "+" := PList ["a"; "b"] ]}
  /\ specMatch "/a/b" "/c++" = None.
Proof. vm_compute. repeat split. Qed.

(** ** The endpoint matcher *)

Lemma lowerChar_idempotent (c : ascii) : Str.lowerChar (Str.lowerChar c) = Str.lowerChar c.
Proof. destruct c as [[] [] [] [] [] [] [] []]; reflexivity. Qed.

Lemma toLowerCase_idempotent (s : string) :
  Str.toLowerCase (Str.toLowerCase s) = Str.toLowerCase s.
Proof.
  induction s as [|c s IH]; [reflexivity|].
  cbn [Str.toLowerCase]. now rewrite lowerChar_idempotent, IH.
Qed.

(** A recorded method that is set and is not the request method in lower
    case excludes the route. *)
Lemma methodExcludes_other (m method_lower : string) :
  m <> "" -> m <> method_lower -> methodExcludes (Some m) method_lower = true.
Proof.
  intros Hne Hdiff. unfold methodExcludes.
  destruct m; [contradiction|]. cbn [Str.nonempty andb].
  now destruct (String.eqb_spec (String a m) method_lower).
Qed.

(** A recorded method that differs from the request method when case is
    ignored excludes the route. *)
Lemma methodExcludes_differs (m method : string) :
  m <> "" -> Str.toLowerCase m <> Str.toLowerCase method ->
  methodExcludes (Some m) (Str.toLowerCase method) = true.
Proof.
  intros Hne Hdiff. apply methodExcludes_other; [assumption|].
  intros E. apply Hdiff. rewrite E. apply toLowerCase_idempotent.
Qed.








(** The segments of a path of one segment. *)
Lemma segments_single (s : string) :
  Str.includes "/" s = false -> s <> "" -> Str.segments ("/" +:+ s) = [s].
Proof.
  intros Hs Hne. unfold Str.segments. change ("/" +:+ s) with (String "/" s).
  cbn [Str.split]. rewrite Ascii.eqb_refl, StrFacts.split_none by assumption.
  rewrite filter_cons, decide_False by (cbn; tauto).
  rewrite filter_cons, decide_True by (destruct s; [contradiction | exact I]).
  reflexivity.
Qed.








(** ** Deriving a page pattern from a file *)

Lemma srev_app (a b : string) : srev (a +:+ b) = srev b +:+ srev a.
Proof.
  induction a as [|c a IH]; simpl.
  - now rewrite StrFacts.app_nil_r.
  - now rewrite IH, StrFacts.app_assoc.
Qed.

(** Two decompositions of one string whose ends differ cannot both hold. *)
Ltac suffix_clash H :=
  apply (f_equal srev) in H; rewrite !srev_app in H; simpl in H; discriminate H.

Lemma endsWith_clash (suf b a : string) :
  (forall x y, srev b +:+ x <> srev suf +:+ y) -> Str.endsWith suf (a +:+ b) = false.
Proof.
  intros Hc. destruct (Str.endsWith suf (a +:+ b)) eqn:E; [|reflexivity].
  apply StrFacts.endsWith_inv in E as [c E].
  apply (f_equal srev) in E. rewrite !srev_app in E. now apply Hc in E.
Qed.

Lemma stripPageExt_app (x ext : string) :
  ext ∈ PAGE_EXTENSIONS -> stripPageExt (x +:+ ext) = x.
Proof.
  unfold stripPageExt, PAGE_EXTENSIONS. rewrite !elem_of_cons, elem_of_nil.
  intros [->|[->|[->|[->|[->|[]]]]]]; cbn [Str.stripSuffixes];
    repeat first
      [ rewrite endsWith_clash by (intros ? ?; simpl; discriminate); cbn iota
      | rewrite StrFacts.endsWith_app; cbn iota; apply (StrFacts.dropEnd_app x) ].
Qed.

Lemma captureWord_app (op cl name : string) :
  Str.isWord name = true -> captureWord op cl (op +:+ name +:+ cl) = Some name.
Proof. intros H. unfold captureWord. now rewrite StrFacts.between_app, H. Qed.

Lemma captureWord_inv (op cl seg name : string) :
  captureWord op cl seg = Some name -> seg = op +:+ name +:+ cl /\ Str.isWord name = true.
Proof.
  unfold captureWord. destruct (Str.between op cl seg) as [n|] eqn:E; [|discriminate].
  destruct (Str.isWord n) eqn:W; [|discriminate]. intros [= ->].
  split; [now apply StrFacts.between_inv | assumption].
Qed.

(** A word has no bracket and no dot in front. *)
Lemma isWord_head (name rest : string) (c : ascii) :
  Str.isWordChar c = false -> Str.isWord (String c rest) = false.
Proof. intros H. unfold Str.isWord. simpl. now rewrite H. Qed.

Lemma captureWord_catch_all_of_dynamic (name : string) :
  Str.isWord name = true -> captureWord "[..." "]" ("[" +:+ name +:+ "]") = None.
Proof.
  intros W. destruct (captureWord "[..." "]" ("[" +:+ name +:+ "]")) as [n|] eqn:E; [|reflexivity].
  apply captureWord_inv in E as [E _]. simpl in E. injection E as E.
  destruct name as [|c name]; [discriminate|]. simpl in E. injection E as -> _.
  now rewrite (isWord_head name name "."%char) in W.
Qed.

Lemma captureWord_optional_of_dynamic (name : string) :
  Str.isWord name = true -> captureWord "[[..." "]]" ("[" +:+ name +:+ "]") = None.
Proof.
  intros W. destruct (captureWord "[[..." "]]" ("[" +:+ name +:+ "]")) as [n|] eqn:E; [|reflexivity].
  apply captureWord_inv in E as [E _]. simpl in E. injection E as E.
  destruct name as [|c name]; [discriminate|]. simpl in E. injection E as -> _.
  now rewrite (isWord_head name name "["%char) in W.
Qed.

Lemma pageSegmentToUrl_catch_all (name : string) :
  Str.isWord name = true ->
  pageSegmentToUrl ("[..." +:+ name +:+ "]") = (":" +:+ name +:+ "+", Some name).
Proof. intros W. unfold pageSegmentToUrl. now rewrite captureWord_app. Qed.

Lemma pageSegmentToUrl_optional (name : string) :
  Str.isWord name = true ->
  pageSegmentToUrl ("[[..." +:+ name +:+ "]]") = (":" +:+ name +:+ "*", Some name).
Proof.
  intros W. unfold pageSegmentToUrl.
  replace (captureWord "[..." "]" ("[[..." +:+ name +:+ "]]")) with (@None string)
    by reflexivity.
  now rewrite captureWord_app.
Qed.

Lemma pageSegmentToUrl_dynamic (name : string) :
  Str.isWord name = true ->
  pageSegmentToUrl ("[" +:+ name +:+ "]") = (":" +:+ name, Some name).
Proof.
  intros W. unfold pageSegmentToUrl.
  rewrite captureWord_catch_all_of_dynamic, captureWord_optional_of_dynamic by assumption.
  now rewrite captureWord_app.
Qed.

Lemma pageSegmentToUrl_plain (seg : string) :
  plainSegment seg -> pageSegmentToUrl seg = (seg, None).
Proof.
  intros Hp. unfold pageSegmentToUrl.
  destruct (captureWord "[..." "]" seg) as [n|] eqn:E1.
  { apply captureWord_inv in E1 as [E W]. now destruct (Hp n W) as (? & _). }
  destruct (captureWord "[[..." "]]" seg) as [n|] eqn:E2.
  { apply captureWord_inv in E2 as [E W]. now destruct (Hp n W) as (_ & ? & _). }
  destruct (captureWord "[" "]" seg) as [n|] eqn:E3; [|reflexivity].
  apply captureWord_inv in E3 as [E W]. now destruct (Hp n W) as (_ & _ & ?).
Qed.

Lemma mapPageSegments_plain (dirs tail : list string) (ps : list string) (d : bool) :
  Forall plainSegment dirs ->
  mapPageSegments (dirs ++ tail) ps d
  = let '(toks, ps', d') := mapPageSegments tail ps d in (dirs ++ toks, ps', d').
Proof.
  induction 1 as [|seg dirs Hs _ IH]; cbn [app mapPageSegments].
  - now destruct (mapPageSegments tail ps d) as [[? ?] ?].
  - rewrite (pageSegmentToUrl_plain seg Hs), IH.
    now destruct (mapPageSegments tail ps d) as [[? ?] ?].
Qed.


Lemma fileToFields_segments (segs : list string) (ext : string) :
  segs <> [] -> Forall (fun s => Str.includes "/" s = false) segs ->
  ext ∈ PAGE_EXTENSIONS ->
  fileToFields (Str.join "/" segs +:+ ext)
  = let '(toks, ps, d) :=
      mapPageSegments (if String.eqb (lastOf segs) "index" then removelast segs else segs)
        [] false in
    ("/" +:+ Str.join "/" toks, d, ps).
Proof.
  intros Hne Hall Hext. unfold fileToFields.
  now rewrite stripPageExt_app, StrFacts.split_join.
Qed.





Lemma plainSegment_literal (c : ascii) (s : string) :
  c <> "["%char -> plainSegment (String c s).
Proof.
  intros Hc name _. repeat split; intros E; simpl in E; injection E as E _; contradiction.
Qed.


(** ** Deriving an endpoint pattern and method from a file *)

Lemma stripTsJs_app (x ext : string) :
  ext ∈ API_EXTENSIONS -> stripTsJs (x +:+ ext) = x.
Proof.
  unfold stripTsJs, API_EXTENSIONS. rewrite !elem_of_cons, elem_of_nil.
  intros [->|[->|[]]]; cbn [Str.stripSuffixes];
    repeat first
      [ rewrite endsWith_clash by (intros ? ?; simpl; discriminate); cbn iota
      | rewrite StrFacts.endsWith_app; cbn iota; apply (StrFacts.dropEnd_app x) ].
Qed.

Lemma apiSegmentToUrl_catch_all (name : string) :
  Str.isWord name = true -> apiSegmentToUrl ("[..." +:+ name +:+ "]") = ":" +:+ name +:+ "+".
Proof. intros W. unfold apiSegmentToUrl. now rewrite captureWord_app. Qed.

Lemma apiSegmentToUrl_dynamic (name : string) :
  Str.isWord name = true -> apiSegmentToUrl ("[" +:+ name +:+ "]") = ":" +:+ name.
Proof.
  intros W. unfold apiSegmentToUrl.
  rewrite captureWord_catch_all_of_dynamic by assumption. now rewrite captureWord_app.
Qed.

(** There is no optional form: the double bracket stays as it is. *)
Lemma apiSegmentToUrl_optional (name : string) :
  apiSegmentToUrl ("[[..." +:+ name +:+ "]]") = "[[..." +:+ name +:+ "]]".
Proof.
  unfold apiSegmentToUrl.
  replace (captureWord "[..." "]" ("[[..." +:+ name +:+ "]]")) with (@None string)
    by reflexivity.
  destruct (captureWord "[" "]" ("[[..." +:+ name +:+ "]]")) as [n|] eqn:E; [|reflexivity].
  apply captureWord_inv in E as [E W]. simpl in E. injection E as E.
  destruct n as [|c n]; [discriminate|]. simpl in E. injection E as <- _.
  now rewrite (isWord_head n n "["%char) in W.
Qed.

Lemma apiSegmentToUrl_plain (seg : string) :
  (forall name, Str.isWord name = true ->
     seg <> "[..." +:+ name +:+ "]" /\ seg <> "[" +:+ name +:+ "]") ->
  apiSegmentToUrl seg = seg.
Proof.
  intros Hp. unfold apiSegmentToUrl.
  destruct (captureWord "[..." "]" seg) as [n|] eqn:E1.
  { apply captureWord_inv in E1 as [E W]. now destruct (Hp n W) as (? & _). }
  destruct (captureWord "[" "]" seg) as [n|] eqn:E2; [|reflexivity].
  apply captureWord_inv in E2 as [E W]. now destruct (Hp n W) as (_ & ?).
Qed.

(** The last segment carries a recognised verb after its last dot. *)
Lemma verb_suffix_split (b v : string) :
  Str.includes "." v = false ->
  Str.split "." (b +:+ "." +:+ v) = Str.split "." b ++ [v].
Proof. intros Hv. now apply (StrFacts.split_snoc "." b v). Qed.

Lemma removelast_snoc {A : Type} (l : list A) (x : A) : removelast (l ++ [x]) = l.
Proof. apply removelast_last. Qed.

Lemma split_length_pos (c : ascii) (s : string) : (1 <= length (Str.split c s))%nat.
Proof. pose proof (StrFacts.split_nonnil c s). destruct (Str.split c s); simpl; [contradiction | lia]. Qed.

Lemma filePathToRoutePattern_segments (t : DirType) (segs : list string) (ext : string) :
  segs <> [] -> Forall (fun s => Str.includes "/" s = false) segs -> ext ∈ API_EXTENSIONS ->
  filePathToRoutePattern (("server/" +:+ dirName t +:+ "/") +:+ (Str.join "/" segs +:+ ext)) t
  = withRoot t (Str.join "/" (map apiSegmentToUrl (dropIndex (
      if lastHasVerb (lastOf segs)
      then setLast (Str.join "." (removelast (Str.split "." (lastOf segs)))) segs
      else segs)))).
Proof.
  intros Hne Hall Hext. unfold filePathToRoutePattern.
  rewrite StrFacts.startsWith_app, StrFacts.drop_app, stripTsJs_app by assumption.
  rewrite StrFacts.split_join by assumption.
  unfold lastHasVerb, dropIndex, withRoot.
  destruct (Nat.leb 2 (length (Str.split "." (lastOf segs)))); cbn [andb];
    [destruct (isHttpMethod _)|]; destruct t; reflexivity.
Qed.

Lemma lastHasVerb_suffix (b v : string) :
  Str.includes "." v = false -> isHttpMethod (Str.toLowerCase v) = true ->
  lastHasVerb (b +:+ "." +:+ v) = true
  /\ Str.join "." (removelast (Str.split "." (b +:+ "." +:+ v))) = b.
Proof.
  intros Hv Hm. unfold lastHasVerb. rewrite verb_suffix_split by assumption.
  rewrite StrFacts.lastOf_snoc, Hm, removelast_snoc, StrFacts.join_split, length_app.
  split; [|reflexivity]. rewrite andb_true_r. apply Nat.leb_le.
  pose proof (split_length_pos "." b). simpl. lia.
Qed.

Lemma extractHttpMethod_Some (filename m : string) :
  extractHttpMethod filename = Some m <->
  exists b v, stripTsJs filename = b +:+ "." +:+ v /\ Str.includes "." v = false
              /\ m = Str.toLowerCase v /\ isHttpMethod m = true.
Proof.
  unfold extractHttpMethod. split.
  - destruct (Nat.ltb_spec (length (Str.split "." (stripTsJs filename))) 2) as [|Hlen];
      [discriminate|].
    destruct (isHttpMethod _) eqn:Hm; [|discriminate]. intros [= <-].
    pose proof (StrFacts.join_split "." (stripTsJs filename)) as Hj.
    pose proof (StrFacts.split_parts_clean "." (stripTsJs filename)) as Hclean.
    induction (Str.split "." (stripTsJs filename)) as [|v l _] using rev_ind;
      [simpl in Hlen; lia|].
    rewrite StrFacts.lastOf_snoc in *.
    exists (Str.join "." l), v.
    assert (l <> []) by (intros ->; simpl in Hlen; lia).
    rewrite StrFacts.join_snoc in Hj by assumption.
    apply Forall_app in Hclean as [_ Hps]. inversion Hps; subst. auto.
  - intros (b & v & E & Hv & -> & Hm). rewrite E.
    rewrite verb_suffix_split by assumption.
    rewrite StrFacts.lastOf_snoc, Hm, length_app.
    pose proof (split_length_pos "." b). simpl.
    destruct (Nat.ltb_spec (length (Str.split "." b) + 1) 2); [lia | reflexivity].
Qed.

(** C8. Deriving the pattern of an endpoint file: the directory prefix
    [server/<kind>/] and the extension are removed, the path is cut at its
    slashes, a verb after the last dot of the last segment is removed when
    it is one of the seven recognised ones (case ignored), a last segment
    ["index"] is dropped, [[name]] becomes [:name] and [[...name]] becomes
    [:name+] (the double bracket is left alone), and the result is put
    under [/api] for the [api] kind and under the bare root for [routes],
    an empty result being the root itself. [extractHttpMethod] returns the
    lower-cased verb after the last dot of the file name without its
    extension when there is one and it is recognised, and nothing
    otherwise. *)
Theorem filePathToRoutePattern_derivation
    (t : DirType) (dirs : list string) (b v name ext : string) :
  Forall (fun s => Str.includes "/" s = false) dirs ->
  Str.includes "/" b = false -> Str.includes "/" v = false -> Str.includes "." v = false ->
  ext ∈ API_EXTENSIONS -> Str.isWord name = true ->
  let prefix := "server/" +:+ dirName t +:+ "/" in
  (* a verb after the last dot *)
  (isHttpMethod (Str.toLowerCase v) = true ->
   filePathToRoutePattern (prefix +:+ (Str.join "/" (dirs ++ [b +:+ "." +:+ v]) +:+ ext)) t
   = withRoot t (Str.join "/" (map apiSegmentToUrl (dropIndex (dirs ++ [b]))))
   /\ extractHttpMethod (b +:+ "." +:+ v +:+ ext) = Some (Str.toLowerCase v))
  (* no verb *)
  /\ (lastHasVerb b = false ->
      filePathToRoutePattern (prefix +:+ (Str.join "/" (dirs ++ [b]) +:+ ext)) t
      = withRoot t (Str.join "/" (map apiSegmentToUrl (dropIndex (dirs ++ [b]))))
      /\ extractHttpMethod (b +:+ ext) = None)
  (* the segments *)
  /\ apiSegmentToUrl ("[" +:+ name +:+ "]") = ":" +:+ name
  /\ apiSegmentToUrl ("[..." +:+ name +:+ "]") = ":" +:+ name +:+ "+"
  /\ apiSegmentToUrl ("[[..." +:+ name +:+ "]]") = "[[..." +:+ name +:+ "]]"
  /\ (forall seg,
        (forall n, Str.isWord n = true ->
           seg <> "[..." +:+ n +:+ "]" /\ seg <> "[" +:+ n +:+ "]") ->
        apiSegmentToUrl seg = seg)
  (* the root *)
  /\ withRoot Api "" = "/api" /\ withRoot Routes "" = "/"
  /\ withRoot Api "users" = "/api/users" /\ withRoot Routes "health" = "/health"
  (* the method *)
  /\ (forall filename m,
        extractHttpMethod filename = Some m <->
        exists b' v', stripTsJs filename = b' +:+ "." +:+ v' /\ Str.includes "." v' = false
                      /\ m = Str.toLowerCase v' /\ isHttpMethod m = true).
Proof.
  intros Hdirs Hb Hv Hvdot Hext W prefix.
  assert (Hsnoc : forall x, Str.includes "/" x = false ->
            Forall (fun s => Str.includes "/" s = false) (dirs ++ [x])).
  { intros x Hx. apply Forall_app. split; [assumption | now constructor]. }
  assert (Hnil : forall x : string, dirs ++ [x] <> []) by (intros x; destruct dirs; discriminate).
  split; [|split].
  - intros Hm. destruct (lastHasVerb_suffix b v Hvdot Hm) as [Hhas Hjoin]. split.
    + subst prefix. rewrite filePathToRoutePattern_segments; [|apply Hnil| |assumption].
      * rewrite StrFacts.lastOf_snoc, Hhas, Hjoin. unfold setLast.
        now rewrite removelast_snoc.
      * apply Hsnoc. rewrite StrFacts.includes_app, Hb. simpl. exact Hv.
    + apply extractHttpMethod_Some. exists b, v.
      rewrite <- !StrFacts.app_assoc, stripTsJs_app by assumption.
      rewrite StrFacts.app_assoc. auto.
  - intros Hno. split.
    + subst prefix. rewrite filePathToRoutePattern_segments; [|apply Hnil|now apply Hsnoc|assumption].
      now rewrite StrFacts.lastOf_snoc, Hno.
    + unfold extractHttpMethod. rewrite stripTsJs_app by assumption.
      unfold lastHasVerb in Hno.
      destruct (Nat.ltb_spec (length (Str.split "." b)) 2) as [|Hlen]; [reflexivity|].
      apply Nat.leb_le in Hlen. rewrite Hlen in Hno. cbn [andb] in Hno. now rewrite Hno.
  - split; [now apply apiSegmentToUrl_dynamic|].
    split; [now apply apiSegmentToUrl_catch_all|].
    split; [apply apiSegmentToUrl_optional|].
    split; [apply apiSegmentToUrl_plain|].
    repeat (split; [reflexivity|]).
    apply extractHttpMethod_Some.
Qed.

(** [server/api/users/index.GET.ts]: the verb and the index segment go, the
    method is [get]. *)
Lemma filePathToRoutePattern_derivation_witness :
  filePathToRoutePattern "server/api/users/index.GET.ts" Api = "/api/users"
  /\ extractHttpMethod "index.GET.ts" = Some "get"
  /\ filePathToRoutePattern "server/api/users/list.ts" Api = "/api/users/list"
  /\ extractHttpMethod "list.ts" = None.
Proof.
  pose proof (filePathToRoutePattern_derivation Api ["users"] "index" "GET" "id" ".ts"
                ltac:(repeat constructor) eq_refl eq_refl eq_refl
                ltac:(apply list_elem_of_here) eq_refl) as (Hverb & _).
  pose proof (filePathToRoutePattern_derivation Api ["users"] "list" "GET" "id" ".ts"
                ltac:(repeat constructor) eq_refl eq_refl eq_refl
                ltac:(apply list_elem_of_here) eq_refl) as (_ & Hplain & _).
  destruct (Hverb eq_refl) as [H1 H2]. destruct (Hplain eq_refl) as [H3 H4].
  split; [exact H1|]. split; [exact H2|]. split; [exact H3 | exact H4].
Defined.

(** ** The tree builder *)

(** *** Sorting *)

Section SortFacts.

Context {A : Type} (cmp : A -> A -> Z).

Lemma insertSorted_Permutation (x : A) (l : list A) : insertSorted cmp x l ≡ₚ x :: l.
Proof.
  induction l as [|y l IH]; [reflexivity|]. cbn [insertSorted].
  destruct (cmp x y <=? 0); [reflexivity|]. now rewrite IH, Permutation_swap.
Qed.

Lemma sortBy_Permutation (l : list A) : sortBy cmp l ≡ₚ l.
Proof.
  induction l as [|x l IH]; [reflexivity|]. cbn [sortBy foldr].
  rewrite insertSorted_Permutation. now f_equiv.
Qed.

Hypothesis cmp_total : forall a b, cmp a b <= 0 \/ cmp b a <= 0.

Lemma insertSorted_Sorted (x : A) (l : list A) :
  Sorted (fun a b => cmp a b <= 0) l -> Sorted (fun a b => cmp a b <= 0) (insertSorted cmp x l).
Proof.
  induction 1 as [|y l Hs IH Hhd]; cbn [insertSorted]; [now repeat constructor|].
  destruct (Z.leb_spec (cmp x y) 0) as [Hle|Hgt].
  - constructor; [now constructor | now constructor].
  - constructor; [assumption|].
    destruct l as [|z l]; cbn [insertSorted].
    + constructor. destruct (cmp_total x y); lia.
    + inversion Hhd; subst. destruct (cmp x z <=? 0); constructor; [|assumption].
      destruct (cmp_total x y); lia.
Qed.

Lemma sortBy_Sorted (l : list A) : Sorted (fun a b => cmp a b <= 0) (sortBy cmp l).
Proof.
  induction l as [|x l IH]; [constructor|]. cbn [sortBy foldr].
  now apply insertSorted_Sorted.
Qed.

End SortFacts.

Lemma sortBy_nil {A : Type} (cmp : A -> A -> Z) : sortBy cmp [] = [].
Proof. reflexivity. Qed.

Section CompareRoutes.

Variable localeCompare : string -> string -> Z.
Hypothesis consistent : ConsistentCompare localeCompare.

Lemma compareRoutes_total (a b : RouteObj) :
  compareRoutes localeCompare a b <= 0 \/ compareRoutes localeCompare b a <= 0.
Proof.
  unfold compareRoutes.
  destruct (Z.eqb_spec (routePrecedence (o_pattern a) - routePrecedence (o_pattern b)) 0);
  destruct (Z.eqb_spec (routePrecedence (o_pattern b) - routePrecedence (o_pattern a)) 0);
    cbn [negb]; try lia. apply consistent.
Qed.

(** The order is by score first, and by [localeCompare] among equal scores. *)
Lemma routeLe_spec (a b : RouteObj) :
  routeLe localeCompare a b <->
  routePrecedence (o_pattern a) < routePrecedence (o_pattern b)
  \/ (routePrecedence (o_pattern a) = routePrecedence (o_pattern b)
      /\ localeCompare (o_pattern a) (o_pattern b) <= 0).
Proof.
  unfold routeLe, compareRoutes.
  destruct (Z.eqb_spec (routePrecedence (o_pattern a) - routePrecedence (o_pattern b)) 0);
    cbn [negb]; split; intros H.
  - right. split; [lia | assumption].
  - destruct H as [|[_ ?]]; [lia | assumption].
  - left. lia.
  - destruct H as [|[? _]]; lia.
Qed.

End CompareRoutes.

(** *** The store *)

Lemma readArray_push (a a' : nat) (x : RouteObj) (st : Store) :
  (a < length st)%nat ->
  readArray (pushArray a x st) a'
  = if Nat.eqb a a' then readArray st a' ++ [x] else readArray st a'.
Proof.
  intros Ha. unfold readArray, pushArray.
  destruct (Nat.eqb_spec a a') as [<-|Hne].
  - now rewrite list_lookup_total_alter_eq.
  - now rewrite list_lookup_total_alter_ne.
Qed.

Lemma readArray_sort (cmp : RouteObj -> RouteObj -> Z) (a a' : nat) (st : Store) :
  readArray (alter (sortBy cmp) a st) a'
  = if Nat.eqb a a' then sortBy cmp (readArray st a') else readArray st a'.
Proof.
  unfold readArray. destruct (Nat.eqb_spec a a') as [<-|Hne].
  - destruct (decide (a < length st)%nat) as [Hlt|Hge].
    + now rewrite list_lookup_total_alter_eq.
    + rewrite !list_lookup_total_alt, list_lookup_alter_eq.
      now rewrite (lookup_ge_None_2 st a) by lia.
  - now rewrite list_lookup_total_alter_ne.
Qed.

(** *** First pass *)

Lemma mapSet_elem {V : Type} (k : string) (v : V) (m : list (string * V)) (e : string * V) :
  e ∈ mapSet k v m -> e = (k, v) \/ e ∈ m.
Proof.
  induction m as [|[k' v'] m IH]; cbn [mapSet].
  - rewrite list_elem_of_singleton. auto.
  - destruct (String.eqb_spec k' k) as [->|Hne]; rewrite !elem_of_cons.
    + intros [->|Hin]; auto.
    + intros [->|Hin]; [auto|]. destruct (IH Hin); auto.
Qed.

Lemma mapSet_keys {V : Type} (k : string) (v : V) (m : list (string * V)) :
  (mapSet k v m).*1 = if decide (k ∈ m.*1) then m.*1 else m.*1 ++ [k].
Proof.
  induction m as [|[k' v'] m IH]; cbn [mapSet fmap list_fmap].
  - rewrite decide_False by apply not_elem_of_nil. reflexivity.
  - destruct (String.eqb_spec k' k) as [->|Hne]; cbn [fmap list_fmap fst].
    + rewrite decide_True by apply list_elem_of_here. reflexivity.
    + fold (@fmap list _ _ _ (@fst string V) (mapSet k v m)). rewrite IH.
      destruct (decide (k ∈ m.*1)) as [Hin|Hnin].
      * rewrite decide_True by now apply list_elem_of_further. reflexivity.
      * rewrite decide_False; [reflexivity|].
        rewrite elem_of_cons. intros [E|E]; [now symmetry in E | contradiction].
Qed.

Lemma mapSet_NoDup {V : Type} (k : string) (v : V) (m : list (string * V)) :
  NoDup (m.*1) -> NoDup ((mapSet k v m).*1).
Proof.
  intros H. rewrite mapSet_keys. destruct (decide (k ∈ m.*1)); [assumption|].
  apply NoDup_app. split; [assumption|]. split.
  - intros x Hx. rewrite list_elem_of_singleton. now intros ->.
  - apply NoDup_singleton.
Qed.

Lemma indexParents_ok (suffix prefix : list RouteObj) (m : list (string * (nat * RouteObj))) :
  MapOK (prefix ++ suffix) m ->
  MapOK (prefix ++ suffix) (indexParents (length prefix) suffix m).
Proof.
  revert prefix m. induction suffix as [|route rest IH]; intros prefix m Hm; [assumption|].
  cbn [indexParents].
  assert (Estep : forall m', MapOK (prefix ++ route :: rest) m' ->
            MapOK (prefix ++ route :: rest) (indexParents (S (length prefix)) rest m')).
  { intros m' Hm'. specialize (IH (prefix ++ [route]) m').
    rewrite <- app_assoc in IH. cbn [app] in IH.
    replace (length (prefix ++ [route])) with (S (length prefix)) in IH
      by (rewrite length_app; simpl; lia).
    now apply IH. }
  destruct (String.eqb_spec (o_pattern route) "/") as [|Hroot]; [now apply Estep|].
  destruct (isIndexFile (basename (o_filePath route))) eqn:Hidx; [now apply Estep|].
  apply Estep. destruct Hm as [Hnd Hent]. split; [now apply mapSet_NoDup|].
  intros pat j r Hin. apply mapSet_elem in Hin as [[= -> -> ->]|Hin]; [|now apply Hent].
  rewrite list_lookup_middle by reflexivity. auto.
Qed.

Lemma MapOK_nil (flat : list RouteObj) : MapOK flat [].
Proof. split; [constructor | intros ? ? ? H; now apply elem_of_nil in H]. Qed.

Lemma indexParents_sound (flat : list RouteObj) : MapOK flat (indexParents 0 flat []).
Proof. apply (indexParents_ok flat [] []), MapOK_nil. Qed.

(** *** Second pass *)

Lemma pushesTo_cons (a i : nat) (route : RouteObj) (e : string * (nat * RouteObj))
    (m : list (string * (nat * RouteObj))) :
  pushesTo a i route (e :: m)
  = (if claims i route e && Nat.eqb (o_children (snd (snd e))) a
     then [childCopy route (fst e)] else []) ++ pushesTo a i route m.
Proof. reflexivity. Qed.

Lemma attachToParents_cons (i : nat) (route : RouteObj) (pp : string) (j : nat)
    (rp : RouteObj) (m : list (string * (nat * RouteObj))) (st : Store) (set : gset nat) :
  attachToParents i route ((pp, (j, rp)) :: m) st set
  = if claims i route (pp, (j, rp))
    then attachToParents i route m (pushArray (o_children rp) (childCopy route pp) st)
           ({[ i ]} ∪ set)
    else attachToParents i route m st set.
Proof.
  cbn [attachToParents]. unfold claims, isChildPattern. cbn [fst snd].
  destruct (Nat.eqb i j); [reflexivity|]. cbn [negb andb].
  now destruct (isDirectChild _ _ || String.eqb _ _)%bool.
Qed.

Lemma attachToParents_spec (i : nat) (route : RouteObj)
    (m : list (string * (nat * RouteObj))) (st : Store) (set : gset nat) :
  (forall e, e ∈ m -> (o_children (snd (snd e)) < length st)%nat) ->
  let '(st', set') := attachToParents i route m st set in
  length st' = length st
  /\ (forall a, readArray st' a = readArray st a ++ pushesTo a i route m)
  /\ set' = (if existsb (claims i route) m then {[ i ]} ∪ set else set).
Proof.
  revert st set. induction m as [|[pp [j rp]] m IH]; intros st set Haddr.
  - cbn. split; [reflexivity|]. split; [|reflexivity]. intros a. now rewrite app_nil_r.
  - rewrite attachToParents_cons. cbn [existsb].
    assert (Hrest : forall st0 : Store, length st0 = length st ->
              forall e, e ∈ m -> (o_children (snd (snd e)) < length st0)%nat).
    { intros st0 E e He. rewrite E. apply Haddr. now right. }
    assert (Hhead : (o_children rp < length st)%nat)
      by (apply (Haddr (pp, (j, rp))); now left).
    destruct (claims i route (pp, (j, rp))) eqn:Hc; cbn [orb].
    + set (st1 := pushArray _ _ st).
      assert (Hlen1 : length st1 = length st) by apply length_alter.
      specialize (IH st1 ({[ i ]} ∪ set) (Hrest st1 Hlen1)).
      destruct (attachToParents i route m st1 ({[ i ]} ∪ set)) as [st' set'].
      destruct IH as (Hlen & Hread & Hset).
      split; [congruence|]. split.
      * intros a. rewrite Hread, pushesTo_cons, Hc. subst st1.
        rewrite readArray_push by assumption. cbn [fst snd andb].
        destruct (Nat.eqb (o_children rp) a); [now rewrite <- app_assoc | reflexivity].
      * rewrite Hset. destruct (existsb (claims i route) m); [set_solver | reflexivity].
    + specialize (IH st set (Hrest st eq_refl)).
      destruct (attachToParents i route m st set) as [st' set'].
      destruct IH as (Hlen & Hread & Hset).
      split; [assumption|]. split; [|assumption].
      intros a. now rewrite Hread, pushesTo_cons, Hc.
Qed.

Lemma findChildren_spec (flat : list RouteObj) (i : nat)
    (m : list (string * (nat * RouteObj))) (st : Store) (set : gset nat) :
  (forall e, e ∈ m -> (o_children (snd (snd e)) < length st)%nat) ->
  let '(st', set') := findChildren i flat m st set in
  length st' = length st
  /\ (forall a, readArray st' a = readArray st a ++ pushedFrom a i flat m)
  /\ (forall k, k ∈ set' <->
        k ∈ set \/ exists r, (i <= k)%nat /\ flat !! (k - i)%nat = Some r
                             /\ existsb (claims k r) m = true).
Proof.
  revert i st set. induction flat as [|route rest IH]; intros i st set Haddr.
  - cbn. split; [reflexivity|]. split; [intros a; now rewrite app_nil_r|].
    intros k. split; [auto|]. intros [?|(r & _ & Hr & _)]; [assumption | discriminate].
  - cbn [findChildren pushedFrom].
    pose proof (attachToParents_spec i route m st set Haddr) as Hatt.
    destruct (attachToParents i route m st set) as [st1 set1].
    destruct Hatt as (Hlen1 & Hread1 & Hset1).
    assert (Haddr1 : forall e, e ∈ m -> (o_children (snd (snd e)) < length st1)%nat)
      by (intros e He; rewrite Hlen1; now apply Haddr).
    specialize (IH (S i) st1 set1 Haddr1).
    destruct (findChildren (S i) rest m st1 set1) as [st' set'].
    destruct IH as (Hlen & Hread & Hset).
    split; [congruence|]. split.
    + intros a. now rewrite Hread, Hread1, <- app_assoc.
    + intros k. rewrite Hset, Hset1. split.
      * intros [Hk|(r & Hle & Hr & Hc)].
        -- destruct (existsb (claims i route) m) eqn:Ec; [|now left].
           apply elem_of_union in Hk as [Hk|Hk]; [|now left].
           apply elem_of_singleton in Hk as ->. right. exists route.
           rewrite Nat.sub_diag. auto.
        -- right. exists r. split; [lia|]. split; [|assumption].
           replace (k - i)%nat with (S (k - S i)) by lia. exact Hr.
      * intros [Hk|(r & Hle & Hr & Hc)].
        -- left. destruct (existsb (claims i route) m); [set_solver | assumption].
        -- destruct (decide (k = i)) as [->|Hne].
           ++ rewrite Nat.sub_diag in Hr. injection Hr as <-. left. rewrite Hc. set_solver.
           ++ right. exists r. split; [lia|]. split; [|assumption].
              replace (k - i)%nat with (S (k - S i)) in Hr by lia. exact Hr.
Qed.

(** One entry of the map pushes on the array of a given parent. *)
Lemma pushesTo_parent (flat : list RouteObj) (m : list (string * (nat * RouteObj)))
    (pat : string) (p : nat) (parent : RouteObj) (k : nat) (r : RouteObj) :
  (forall i x, flat !! i = Some x -> o_children x = i) ->
  MapOK flat m -> (pat, (p, parent)) ∈ m ->
  pushesTo p k r m
  = if negb (Nat.eqb k p) && isChildPattern (o_pattern r) pat then [childCopy r pat] else [].
Proof.
  intros Haddr [Hnd Hent] Hin. unfold pushesTo.
  induction m as [|[pat' [j r']] m IH]; [now apply elem_of_nil in Hin|].
  cbn [flat_map fst snd].
  cbn [fmap list_fmap fst] in Hnd. apply NoDup_cons in Hnd as [Hfresh Hnd].
  assert (Hent' : forall pat0 j0 r0, (pat0, (j0, r0)) ∈ m ->
            flat !! j0 = Some r0 /\ o_pattern r0 = pat0 /\ pat0 <> "/"
            /\ isIndexFile (basename (o_filePath r0)) = false)
    by (intros ? ? ? H; apply Hent; now right).
  assert (Hnone : forall m0 : list (string * (nat * RouteObj)),
            (forall e, e ∈ m0 -> o_children (snd (snd e)) <> p) ->
            flat_map (fun e => if claims k r e && Nat.eqb (o_children (snd (snd e))) p
                               then [childCopy r (fst e)] else []) m0 = []).
  { induction m0 as [|e m0 IH0]; [reflexivity|]. intros Hm0. cbn [flat_map].
    rewrite IH0 by (intros e' He'; apply Hm0; now right).
    destruct (Nat.eqb_spec (o_children (snd (snd e))) p) as [E|_].
    - exfalso. apply (Hm0 e); [now left | assumption].
    - now rewrite andb_false_r. }
  destruct (Hent pat' j r' ltac:(now left)) as (Hj & Hpat' & _).
  pose proof (Haddr j r' Hj) as Hcj.
  destruct (Hent pat p parent Hin) as (Hp & Hpat & _).
  apply elem_of_cons in Hin as [[= <- <- <-]|Hin].
  - rewrite Hnone.
    + rewrite Hcj, Nat.eqb_refl, andb_true_r, app_nil_r. reflexivity.
    + intros [pat0 [j0 r0]] He E. cbn [fst snd] in E.
      destruct (Hent' pat0 j0 r0 He) as (Hj0 & Hpat0 & _).
      rewrite (Haddr j0 r0 Hj0) in E. subst j0.
      assert (r0 = parent) by congruence. subst r0.
      apply Hfresh. apply list_elem_of_fmap. exists (pat0, (p, parent)).
      split; [cbn; congruence | assumption].
  - rewrite (IH Hnd Hent' Hin).
    destruct (Nat.eqb_spec (o_children r') p) as [E|_]; [|now rewrite andb_false_r].
    exfalso. rewrite Hcj in E. subst j. assert (r' = parent) by congruence. subst r'.
    apply Hfresh. apply list_elem_of_fmap. exists (pat, (p, parent)).
    split; [cbn; congruence | assumption].
Qed.

Lemma pushedFrom_parent (flat suffix prefix : list RouteObj)
    (m : list (string * (nat * RouteObj))) (pat : string) (p : nat) (parent : RouteObj) :
  (forall i x, flat !! i = Some x -> o_children x = i) ->
  MapOK flat m -> (pat, (p, parent)) ∈ m ->
  pushedFrom p (length prefix) suffix m = childrenFrom (length prefix) p pat suffix.
Proof.
  intros Haddr Hm Hin. revert prefix.
  induction suffix as [|r rest IH]; intros prefix; [reflexivity|].
  cbn [pushedFrom childrenFrom].
  rewrite (pushesTo_parent flat m pat p parent) by assumption.
  f_equal. specialize (IH (prefix ++ [r])).
  now replace (length (prefix ++ [r])) with (S (length prefix)) in IH
    by (rewrite length_app; simpl; lia).
Qed.

(** After the second pass the array of a parent holds the copies of its
    children, and nothing else. *)
Lemma findChildren_children (flat : list RouteObj) (st : Store)
    (pat : string) (p : nat) (parent : RouteObj) :
  Fresh flat st ->
  (pat, (p, parent)) ∈ indexParents 0 flat [] ->
  readArray (fst (findChildren 0 flat (indexParents 0 flat []) st ∅)) (o_children parent)
  = childrenOf p pat flat.
Proof.
  intros (Hlen & Haddr & Hempty) Hin.
  pose proof (indexParents_sound flat) as Hm.
  assert (Hrange : forall e, e ∈ indexParents 0 flat [] ->
            (o_children (snd (snd e)) < length st)%nat).
  { intros [pat0 [j0 r0]] He. destruct Hm as [_ Hent].
    destruct (Hent pat0 j0 r0 He) as (Hj & _). cbn [snd].
    rewrite (Haddr j0 r0 Hj), Hlen. now apply lookup_lt_Some in Hj. }
  pose proof (findChildren_spec flat 0 (indexParents 0 flat []) st ∅ Hrange) as Hspec.
  destruct (findChildren 0 flat (indexParents 0 flat []) st ∅) as [st1 set1].
  destruct Hspec as (_ & Hread & _). cbn [fst].
  rewrite Hread, Hempty. cbn [app].
  destruct Hm as [Hnd Hent]. destruct (Hent pat p parent Hin) as (Hp & _).
  rewrite (Haddr p parent Hp).
  apply (pushedFrom_parent flat flat [] _ pat p parent); [assumption | now split | assumption].
Qed.

(** *** Third pass *)

Section ThirdPass.

Variable localeCompare : string -> string -> Z.

Lemma collectTop_spec (flat : list RouteObj) (i : nat) (set : gset nat)
    (st : Store) (tops : list RouteObj) :
  (forall k r, flat !! k = Some r -> o_children r = (i + k)%nat) ->
  let '(tops', st') := collectTop localeCompare i flat set st tops in
  tops' = tops ++ topFrom i set flat
  /\ forall a, readArray st' a
       = if decide ((i <= a < i + length flat)%nat /\ a ∉ set)
         then sortBy (compareRoutes localeCompare) (readArray st a)
         else readArray st a.
Proof.
  revert i st tops. induction flat as [|route rest IH]; intros i st tops Haddr.
  - cbn. split; [now rewrite app_nil_r|]. intros a.
    rewrite decide_False by lia. reflexivity.
  - cbn [collectTop topFrom].
    assert (Hroute : o_children route = i)
      by (rewrite (Haddr 0%nat route eq_refl); lia).
    assert (Haddr' : forall k r, rest !! k = Some r -> o_children r = (S i + k)%nat).
    { intros k r Hk. rewrite (Haddr (S k) r Hk). lia. }
    destruct (decide (i ∈ set)) as [Hin|Hnin].
    + specialize (IH (S i) st tops Haddr').
      destruct (collectTop localeCompare (S i) rest set st tops) as [tops' st'].
      destruct IH as [Htops Hread]. split; [assumption|].
      intros a. rewrite Hread.
      destruct (decide (a = i)) as [->|Hne].
      * rewrite !decide_False; [reflexivity | tauto | lia].
      * destruct (decide ((S i <= a < S i + length rest)%nat /\ a ∉ set)) as [[? ?]|Hn].
        -- rewrite decide_True; [reflexivity | split; [simpl; lia | assumption]].
        -- rewrite decide_False; [reflexivity|]. simpl. intros [? ?]. apply Hn. split; [lia | assumption].
    + set (st1 := if Nat.ltb 0 (length (readArray st (o_children route)))
                  then alter (sortBy (compareRoutes localeCompare)) (o_children route) st
                  else st).
      assert (Hst1 : forall a, readArray st1 a
                = if Nat.eqb i a then sortBy (compareRoutes localeCompare) (readArray st a)
                  else readArray st a).
      { intros a. subst st1. rewrite Hroute.
        destruct (Nat.ltb_spec 0 (length (readArray st i))) as [_|Hz].
        - apply readArray_sort.
        - destruct (Nat.eqb_spec i a) as [<-|_]; [|reflexivity].
          destruct (readArray st i); [reflexivity | simpl in Hz; lia]. }
      specialize (IH (S i) st1 (tops ++ [route]) Haddr').
      destruct (collectTop localeCompare (S i) rest set st1 (tops ++ [route])) as [tops' st'].
      destruct IH as [Htops Hread]. split; [now rewrite Htops, <- app_assoc|].
      intros a. rewrite Hread, Hst1.
      destruct (Nat.eqb_spec i a) as [<-|Hne].
      * rewrite decide_False by lia. rewrite decide_True by (split; [simpl; lia | assumption]).
        reflexivity.
      * destruct (decide ((S i <= a < S i + length rest)%nat /\ a ∉ set)) as [[? ?]|Hn].
        -- rewrite decide_True; [reflexivity | split; [simpl; lia | assumption]].
        -- rewrite decide_False; [reflexivity|]. simpl. intros [? ?]. apply Hn. split; [lia | assumption].
Qed.

End ThirdPass.

(** *** The shape of a child pattern *)

Lemma app_slash_neq (pp seg : string) : pp +:+ "/" +:+ seg <> pp.
Proof.
  intros E. apply (f_equal String.length) in E. rewrite StrFacts.app_length in E.
  simpl in E. lia.
Qed.

Lemma isChildPattern_shape (pat pp : string) :
  isChildPattern pat pp = true <->
  (exists seg, Str.includes "/" seg = false /\ pat = pp +:+ "/" +:+ seg) \/ pat = pp.
Proof.
  unfold isChildPattern, isDirectChild. rewrite orb_true_iff, andb_true_iff, negb_true_iff.
  rewrite String.eqb_eq. split.
  - intros [[Hp Hs]| ->]; [left | now right].
    apply StrFacts.startsWith_inv in Hp as [seg ->]. rewrite StrFacts.drop_app in Hs.
    exists seg. now rewrite StrFacts.app_assoc.
  - intros [(seg & Hs & ->)| ->]; [left | now right].
    rewrite <- StrFacts.app_assoc.
    now rewrite StrFacts.startsWith_app, StrFacts.drop_app.
Qed.

Lemma childCopy_pattern (r : RouteObj) (pp seg : string) :
  o_pattern r = pp +:+ "/" +:+ seg -> o_pattern (childCopy r pp) = seg.
Proof.
  intros E. unfold childCopy, withPattern, patternChild. cbn [o_pattern]. rewrite E.
  destruct (String.eqb_spec (pp +:+ "/" +:+ seg) pp) as [H|_]; [now apply app_slash_neq in H|].
  rewrite <- StrFacts.app_assoc. apply StrFacts.drop_app.
Qed.

Lemma childCopy_index (r : RouteObj) : o_pattern (childCopy r (o_pattern r)) = "".
Proof.
  unfold childCopy, withPattern, patternChild. cbn [o_pattern].
  now rewrite String.eqb_refl.
Qed.

(** *** What the scanner hands to the builder *)

Lemma collectFlat_fresh (files : list string) (pagesDir : string)
    (flat : list RouteObj) (st : Store) :
  Fresh flat st ->
  let '(flat', st') := collectFlat files pagesDir flat st in Fresh flat' st'.
Proof.
  revert flat st. induction files as [|f files IH]; intros flat st Hf; [assumption|].
  cbn [collectFlat]. destruct (hasPrivateSegment f); [now apply IH|].
  unfold fileToRoute. destruct (fileToFields f) as [[pat d] ps].
  apply IH. destruct Hf as (Hlen & Haddr & Hempty). split; [|split].
  - rewrite !length_app. simpl. lia.
  - intros i r Hi. destruct (decide (i < length flat)%nat) as [Hlt|Hge].
    + rewrite lookup_app_l in Hi by assumption. now apply Haddr.
    + rewrite lookup_app_r in Hi by lia.
      destruct (i - length flat)%nat as [|n] eqn:E; [|destruct n; discriminate].
      injection Hi as <-. cbn [o_children]. lia.
  - intros a. unfold readArray in *. rewrite list_lookup_total_alt.
    destruct (decide (a < length st)%nat) as [Hlt|Hge].
    + rewrite lookup_app_l by assumption. rewrite <- list_lookup_total_alt. apply Hempty.
    + rewrite lookup_app_r by lia. destruct (a - length st)%nat as [|[|n]]; reflexivity.
Qed.

Lemma Fresh_nil : Fresh [] [].
Proof. split; [reflexivity|]. split; [intros i r H; discriminate | intros a; now destruct a]. Qed.

Lemma childrenFrom_elem (flat : list RouteObj) (i p : nat) (pat : string) (c : RouteObj) :
  c ∈ childrenFrom i p pat flat <->
  exists k r, (i <= k)%nat /\ flat !! (k - i)%nat = Some r /\ k <> p
              /\ isChildPattern (o_pattern r) pat = true /\ c = childCopy r pat.
Proof.
  revert i. induction flat as [|r0 flat IH]; intros i; cbn [childrenFrom].
  - split; [intros H; now apply elem_of_nil in H | intros (k & r & _ & Hk & _); discriminate].
  - rewrite elem_of_app, IH. split.
    + intros [H|(k & r & Hle & Hk & Hrest)].
      * destruct (Nat.eqb_spec i p) as [|Hne]; cbn [negb andb] in H;
          [now apply elem_of_nil in H|].
        destruct (isChildPattern (o_pattern r0) pat) eqn:Hc; [|now apply elem_of_nil in H].
        apply list_elem_of_singleton in H as ->.
        exists i, r0. rewrite Nat.sub_diag. auto.
      * exists k, r. split; [lia|]. split; [|assumption].
        now replace (k - i)%nat with (S (k - S i)) by lia.
    + intros (k & r & Hle & Hk & Hne & Hc & ->).
      destruct (decide (k = i)) as [->|Hki].
      * left. rewrite Nat.sub_diag in Hk. injection Hk as <-.
        rewrite Hc. destruct (Nat.eqb_spec i p); [contradiction|]. apply list_elem_of_here.
      * right. exists k, r. split; [lia|]. split; [|auto].
        now replace (k - i)%nat with (S (k - S i)) in Hk by lia.
Qed.

(** *** The whole builder *)

(** The orders in which a walk can yield a given set of files. *)
Ltac scan_orders H :=
  symmetry in H; apply permutations_Permutation in H;
  match type of H with
  | ?f ∈ permutations ?l =>
      let v := eval vm_compute in (permutations l) in change (f ∈ v) in H
  end;
  repeat (apply elem_of_cons in H as [H|H]; [subst|]);
  [..|now apply elem_of_nil in H].

Section Builder.

Variable localeCompare : string -> string -> Z.

Lemma existsb_claims (k : nat) (r : RouteObj) (m : list (string * (nat * RouteObj))) :
  existsb (claims k r) m = true <->
  exists pat p parent, (pat, (p, parent)) ∈ m /\ k <> p
                       /\ isChildPattern (o_pattern r) pat = true.
Proof.
  rewrite existsb_exists. split.
  - intros ([pat [p parent]] & Hin & Hc). exists pat, p, parent.
    unfold claims in Hc. cbn [fst snd] in Hc.
    apply andb_true_iff in Hc as [Hne Hc]. apply negb_true_iff, Nat.eqb_neq in Hne.
    split; [now apply list_elem_of_In | auto].
  - intros (pat & p & parent & Hin & Hne & Hc). exists (pat, (p, parent)).
    split; [now apply list_elem_of_In|]. unfold claims. cbn [fst snd].
    rewrite Hc, andb_true_r. now apply negb_true_iff, Nat.eqb_neq.
Qed.

(** C4. Building the tree out of the flat routes of a scan. An entry of
    [map_parent] (a nesting-parent candidate) is a route of the list
    whose file is not an index file (and whose pattern is not the root).
    The array of such a parent receives the copies of exactly the other
    routes whose pattern is the parent's pattern, a slash and one more
    segment without a slash, or is the parent's pattern itself (a second
    route is copied there if and only if its pattern is so); the copy
    carries the pattern with the parent's prefix taken off, the empty
    pattern in the second case. The routes that were copied under some
    parent are left out of the top level, the others make it up. So
    [users], [users/index] and [users/[id]], in any order, give the one
    top-level route [/users] with the children [""] and [":id"]; without
    [users], [/users] and [/users/:id] are two top-level routes with no
    children. *)
Theorem buildRouteTree_nesting (flat : list RouteObj) (st : Store) :
  Fresh flat st ->
  let map_parent := indexParents 0 flat [] in
  let pass2 := findChildren 0 flat map_parent st ∅ in
  let result := buildRouteTree localeCompare flat st in
  (* parent candidates *)
  (forall pat p parent, (pat, (p, parent)) ∈ map_parent ->
     flat !! p = Some parent /\ o_pattern parent = pat
     /\ isIndexFile (basename (o_filePath parent)) = false /\ pat <> "/")
  (* the children of a parent *)
  /\ (forall pat p parent, (pat, (p, parent)) ∈ map_parent ->
        readArray (fst pass2) (o_children parent) = childrenOf p pat flat
        /\ readArray (snd result) (o_children parent) ≡ₚ childrenOf p pat flat)
  /\ (forall pat p parent k r,
        (pat, (p, parent)) ∈ map_parent -> flat !! k = Some r -> k <> p ->
        (childCopy r pat ∈ readArray (fst pass2) (o_children parent)
         <-> isChildPattern (o_pattern r) pat = true))
  (* the shape of a child *)
  /\ (forall pat pp, isChildPattern pat pp = true <->
        (exists seg, Str.includes "/" seg = false /\ pat = pp +:+ "/" +:+ seg) \/ pat = pp)
  /\ (forall r pp seg, o_pattern r = pp +:+ "/" +:+ seg -> o_pattern (childCopy r pp) = seg)
  /\ (forall r, o_pattern (childCopy r (o_pattern r)) = "")
  (* the top level *)
  /\ (forall k, k ∈ snd pass2 <->
        exists r pat p parent, flat !! k = Some r /\ (pat, (p, parent)) ∈ map_parent
                               /\ k <> p /\ isChildPattern (o_pattern r) pat = true)
  /\ fst result ≡ₚ topFrom 0 (snd pass2) flat
  (* the two scans of the description *)
  /\ (forall files, files ≡ₚ ["users.vue"; "users/index.vue"; "users/[id].vue"] ->
        map (fun r => (pattern r, map pattern (children r)))
          (scanPageRoutes localeCompare (pagesOf files) "/app/pages")
        = [("/users", [""; ":id"])])
  /\ (forall files, files ≡ₚ ["users/index.vue"; "users/[id].vue"] ->
        map (fun r => (pattern r, map pattern (children r)))
          (scanPageRoutes localeCompare (pagesOf files) "/app/pages")
        = [("/users", []); ("/users/:id", [])]).
Proof.
  intros Hfresh map_parent pass2 result.
  pose proof (indexParents_sound flat) as Hm. fold map_parent in Hm.
  destruct Hfresh as (Hlen & Haddr & Hempty).
  assert (Hrange : forall e, e ∈ map_parent -> (o_children (snd (snd e)) < length st)%nat).
  { intros [pat0 [j0 r0]] He. destruct Hm as [_ Hent].
    destruct (Hent pat0 j0 r0 He) as (Hj & _). cbn [snd].
    rewrite (Haddr j0 r0 Hj), Hlen. now apply lookup_lt_Some in Hj. }
  pose proof (findChildren_spec flat 0 map_parent st ∅ Hrange) as Hspec.
  pose proof (fun pat p parent =>
                findChildren_children flat st pat p parent
                  (conj Hlen (conj Haddr Hempty))) as Hchildren.
  fold map_parent in Hchildren. fold pass2 in Hspec, Hchildren.
  subst result. unfold buildRouteTree. fold map_parent. fold pass2.
  destruct pass2 as [st1 set1]. destruct Hspec as (Hlen1 & _ & Hset).
  pose proof (collectTop_spec localeCompare flat 0 set1 st1 []
                ltac:(intros k r Hk; now rewrite (Haddr k r Hk))) as Htop.
  destruct (collectTop localeCompare 0 flat set1 st1 []) as [tops st2].
  destruct Htop as [Htops Hread2]. cbn [fst snd].
  split; [|split; [|split; [|split; [|split; [|split; [|split; [|split; [|split]]]]]]]].
  - intros pat p parent Hin. destruct Hm as [_ Hent].
    destruct (Hent pat p parent Hin) as (? & ? & ? & ?). auto.
  - intros pat p parent Hin. specialize (Hchildren pat p parent Hin). cbn [fst] in Hchildren.
    split; [assumption|]. rewrite Hread2, <- Hchildren.
    destruct (decide _); [apply sortBy_Permutation | reflexivity].
  - intros pat p parent k r Hin Hk Hne.
    specialize (Hchildren pat p parent Hin). cbn [fst] in Hchildren.
    rewrite Hchildren. unfold childrenOf. rewrite childrenFrom_elem. split.
    + intros (k' & r' & _ & Hk' & _ & Hc & E). rewrite Nat.sub_0_r in Hk'.
      assert (k' = k).
      { apply (f_equal o_children) in E. unfold childCopy, withPattern in E.
        cbn [o_children] in E. rewrite (Haddr k r Hk), (Haddr k' r' Hk') in E. congruence. }
      subst k'. assert (r' = r) by congruence. now subst r'.
    + intros Hc. exists k, r. rewrite Nat.sub_0_r. split; [lia | auto].
  - apply isChildPattern_shape.
  - apply childCopy_pattern.
  - apply childCopy_index.
  - intros k. rewrite Hset. split.
    + intros [Hk|(r & _ & Hr & Hc)]; [now apply elem_of_empty in Hk|].
      rewrite Nat.sub_0_r in Hr. apply existsb_claims in Hc as (pat & p & parent & ? & ? & ?).
      exists r, pat, p, parent. auto.
    + intros (r & pat & p & parent & Hr & Hin & Hne & Hc). right. exists r.
      split; [lia|]. rewrite Nat.sub_0_r. split; [assumption|].
      apply existsb_claims. exists pat, p, parent. auto.
  - rewrite sortBy_Permutation, Htops. reflexivity.
  - intros files H. scan_orders H; vm_compute; reflexivity.
  - intros files H. scan_orders H; vm_compute; reflexivity.
Qed.

End Builder.

Lemma collectFlat_fresh_scan (files : list string) (pagesDir : string) :
  Fresh (fst (collectFlat files pagesDir [] [])) (snd (collectFlat files pagesDir [] [])).
Proof.
  pose proof (collectFlat_fresh files pagesDir [] [] Fresh_nil) as H.
  now destruct (collectFlat files pagesDir [] []).
Qed.

(** The scan of [users.vue], [users/index.vue] and [users/[id].vue]. *)
Lemma buildRouteTree_nesting_witness :
  let files := ["users/[id].vue"; "users.vue"; "users/index.vue"] in
  map o_pattern
    (readArray (snd (buildRouteTree codeCompare
                       (fst (collectFlat files "/app/pages" [] []))
                       (snd (collectFlat files "/app/pages" [] [])))) 1)
  ≡ₚ [":id"; ""]
  /\ map (fun r => (pattern r, map pattern (children r)))
       (scanPageRoutes codeCompare (pagesOf files) "/app/pages")
     = [("/users", [""; ":id"])].
Proof.
  intros files.
  pose proof (buildRouteTree_nesting codeCompare _ _ (collectFlat_fresh_scan files "/app/pages"))
    as (_ & Hchildren & _ & _ & _ & _ & _ & _ & Hscan & _).
  split.
  - destruct (Hchildren "/users" 1%nat
                (mkRouteObj "/users" "/app/pages/users.vue" false [] 1)
                ltac:(vm_compute; apply list_elem_of_further, list_elem_of_here))
      as [_ Hperm].
    cbn [o_children] in Hperm. rewrite Hperm. vm_compute. reflexivity.
  - apply Hscan. subst files. apply Permutation_sym.
    apply perm_trans with ["users.vue"; "users/[id].vue"; "users/index.vue"];
      [apply perm_skip, perm_swap | apply perm_swap].
Defined.

(** *** Order *)

Section Order.

Variable localeCompare : string -> string -> Z.

(** The top-level list is in the order of the comparator, and so is the
    array of every top-level route. *)
Lemma buildRouteTree_sorted (flat : list RouteObj) (st : Store) :
  ConsistentCompare localeCompare -> Fresh flat st ->
  let pass2 := findChildren 0 flat (indexParents 0 flat []) st ∅ in
  let result := buildRouteTree localeCompare flat st in
  Sorted (routeLe localeCompare) (fst result)
  /\ forall k r, flat !! k = Some r -> k ∉ snd pass2 ->
       Sorted (routeLe localeCompare) (readArray (snd result) (o_children r)).
Proof.
  intros Hc (Hlen & Haddr & Hempty) pass2 result. subst result.
  unfold buildRouteTree. fold pass2. destruct pass2 as [st1 set1].
  pose proof (collectTop_spec localeCompare flat 0 set1 st1 []
                ltac:(intros k r Hk; now rewrite (Haddr k r Hk))) as Htop.
  destruct (collectTop localeCompare 0 flat set1 st1 []) as [tops st2].
  destruct Htop as [_ Hread2]. cbn [fst snd].
  assert (Htotal := compareRoutes_total localeCompare Hc).
  split; [now apply sortBy_Sorted|].
  intros k r Hk Hnin. rewrite Hread2, (Haddr k r Hk).
  rewrite decide_True; [now apply sortBy_Sorted|].
  apply lookup_lt_Some in Hk. split; [lia | assumption].
Qed.

(** [about.vue], [[id].vue] and [[...slug].vue], in whatever order the
    walk yields them. *)
Lemma scanPageRoutes_three_any_order (files : list string) :
  files ≡ₚ ["about.vue"; "[id].vue"; "[...slug].vue"] ->
  map pattern (scanPageRoutes localeCompare (pagesOf files) "/app/pages")
  = ["/about"; "/:id"; "/:slug+"].
Proof. intros H. scan_orders H; vm_compute; reflexivity. Qed.

End Order.

(** The array of a parent that is itself a child is not visited by the
    third pass: under [users/profile] the dynamic route stays in front of
    the literal one. *)
Lemma nested_parent_array_unsorted (localeCompare : string -> string -> Z) :
  map (fun r => (pattern r, map (fun c => (pattern c, map pattern (children c))) (children r)))
    (scanPageRoutes localeCompare
       (pagesOf ["users.vue"; "users/profile.vue"; "users/profile/[id].vue";
                 "users/profile/about.vue"]) "/app/pages")
  = [("/users", [("profile", [":id"; "about"])])].
Proof. vm_compute. reflexivity. Qed.

(** ** The depth of the tree

    A parent and the children under it never form a cycle: a child that
    has children of its own has a longer pattern than its parent. So the
    tree is read out of the store in full by following the arrays as many
    levels down as there are routes. *)

Lemma longerThan_lt (flat : list RouteObj) (x y : nat) (r : RouteObj) :
  r ∈ flat -> (x < String.length (o_pattern r))%nat -> (String.length (o_pattern r) <= y)%nat ->
  (longerThan y flat < longerThan x flat)%nat.
Proof.
  unfold longerThan. induction flat as [|r0 flat IH]; [intros H; now apply elem_of_nil in H|].
  intros Hin Hx Hy. rewrite !filter_cons.
  assert (Hle : (length (filter (fun r => (y < String.length (o_pattern r))%nat) flat)
                 <= length (filter (fun r => (x < String.length (o_pattern r))%nat) flat))%nat).
  { assert (Hxy : (x < y)%nat) by lia. clear - Hxy.
    induction flat as [|r1 flat IH]; [reflexivity|]. rewrite !filter_cons.
    repeat case_decide; simpl; lia. }
  apply elem_of_cons in Hin as [<-|Hin].
  - rewrite decide_False by lia. rewrite decide_True by lia. simpl. lia.
  - specialize (IH Hin Hx Hy). repeat case_decide; simpl; lia.
Qed.

Lemma longerThan_self (flat : list RouteObj) (r : RouteObj) :
  r ∈ flat -> (longerThan (String.length (o_pattern r)) flat < length flat)%nat.
Proof.
  unfold longerThan. induction flat as [|r0 flat IH]; [intros H; now apply elem_of_nil in H|].
  intros Hin. rewrite filter_cons.
  pose proof (length_filter (fun r1 => (String.length (o_pattern r) < String.length (o_pattern r1))%nat) flat).
  apply elem_of_cons in Hin as [<-|Hin].
  - rewrite decide_False by lia. simpl. lia.
  - specialize (IH Hin). case_decide; simpl; lia.
Qed.

Lemma pushesTo_elem (a i : nat) (route : RouteObj) (m : list (string * (nat * RouteObj)))
    (c : RouteObj) :
  c ∈ pushesTo a i route m ->
  exists pat p parent, (pat, (p, parent)) ∈ m /\ o_children parent = a /\ i <> p
                       /\ isChildPattern (o_pattern route) pat = true
                       /\ c = childCopy route pat.
Proof.
  unfold pushesTo. rewrite list_elem_of_In, in_flat_map.
  intros ([pat [p parent]] & Hin & Hc). cbn [fst snd] in Hc.
  destruct (claims i route (pat, (p, parent))) eqn:Ecl; [|contradiction].
  destruct (Nat.eqb_spec (o_children parent) a) as [Ea|]; [|contradiction].
  cbn [andb] in Hc. destruct Hc as [<-|[]].
  unfold claims in Ecl. cbn [fst snd] in Ecl.
  apply andb_true_iff in Ecl as [Hne Hch]. apply negb_true_iff, Nat.eqb_neq in Hne.
  exists pat, p, parent. split; [now apply list_elem_of_In | auto].
Qed.

Lemma pushedFrom_elem (a : nat) (flat : list RouteObj) (i : nat)
    (m : list (string * (nat * RouteObj))) (c : RouteObj) :
  c ∈ pushedFrom a i flat m ->
  exists k r pat p parent,
    (i <= k)%nat /\ flat !! (k - i)%nat = Some r
    /\ (pat, (p, parent)) ∈ m /\ o_children parent = a /\ k <> p
    /\ isChildPattern (o_pattern r) pat = true /\ c = childCopy r pat.
Proof.
  revert i. induction flat as [|route rest IH]; intros i; cbn [pushedFrom].
  - intros H. now apply elem_of_nil in H.
  - rewrite elem_of_app. intros [H|H].
    + apply pushesTo_elem in H as (pat & p & parent & ? & ? & ? & ? & ?).
      exists i, route, pat, p, parent. rewrite Nat.sub_diag. auto 10.
    + apply IH in H as (k & r & pat & p & parent & Hle & Hk & ?).
      exists k, r, pat, p, parent. split; [lia|]. split; [|assumption].
      now replace (k - i)%nat with (S (k - S i)) by lia.
Qed.

Section Depth.

Variable localeCompare : string -> string -> Z.

(** The arrays of the store that [buildRouteTree] returns. *)
Lemma buildRouteTree_arrays (flat : list RouteObj) (st : Store) (a : nat) :
  Fresh flat st ->
  readArray (snd (buildRouteTree localeCompare flat st)) a
  ≡ₚ pushedFrom a 0 flat (indexParents 0 flat []).
Proof.
  intros (Hlen & Haddr & Hempty).
  pose proof (indexParents_sound flat) as [_ Hent].
  assert (Hrange : forall e, e ∈ indexParents 0 flat [] ->
            (o_children (snd (snd e)) < length st)%nat).
  { intros [pat0 [j0 r0]] He. destruct (Hent pat0 j0 r0 He) as (Hj & _). cbn [snd].
    rewrite (Haddr j0 r0 Hj), Hlen. now apply lookup_lt_Some in Hj. }
  pose proof (findChildren_spec flat 0 (indexParents 0 flat []) st ∅ Hrange) as Hspec.
  unfold buildRouteTree.
  destruct (findChildren 0 flat (indexParents 0 flat []) st ∅) as [st1 set1].
  destruct Hspec as (_ & Hread & _).
  pose proof (collectTop_spec localeCompare flat 0 set1 st1 []
                ltac:(intros k r Hk; now rewrite (Haddr k r Hk))) as Htop.
  destruct (collectTop localeCompare 0 flat set1 st1 []) as [tops st2].
  destruct Htop as [_ Hread2]. cbn [snd].
  rewrite Hread2, Hread, Hempty. cbn [app].
  destruct (decide _); [apply sortBy_Permutation | reflexivity].
Qed.

Lemma collectTop_length (flat : list RouteObj) (i : nat) (set : gset nat)
    (st : Store) (tops : list RouteObj) :
  length (snd (collectTop localeCompare i flat set st tops)) = length st.
Proof.
  revert i st tops. induction flat as [|route rest IH]; intros i st tops; [reflexivity|].
  cbn [collectTop]. destruct (decide (i ∈ set)); [apply IH|].
  rewrite IH. destruct (Nat.ltb _ _); [apply length_alter | reflexivity].
Qed.

Lemma buildRouteTree_length (flat : list RouteObj) (st : Store) :
  Fresh flat st -> length (snd (buildRouteTree localeCompare flat st)) = length flat.
Proof.
  intros (Hlen & Haddr & Hempty).
  pose proof (indexParents_sound flat) as [_ Hent].
  assert (Hrange : forall e, e ∈ indexParents 0 flat [] ->
            (o_children (snd (snd e)) < length st)%nat).
  { intros [pat0 [j0 r0]] He. destruct (Hent pat0 j0 r0 He) as (Hj & _). cbn [snd].
    rewrite (Haddr j0 r0 Hj), Hlen. now apply lookup_lt_Some in Hj. }
  pose proof (findChildren_spec flat 0 (indexParents 0 flat []) st ∅ Hrange) as Hspec.
  unfold buildRouteTree.
  destruct (findChildren 0 flat (indexParents 0 flat []) st ∅) as [st1 set1].
  destruct Hspec as (Hlen1 & _).
  pose proof (collectTop_length flat 0 set1 st1 []) as Hl.
  destruct (collectTop localeCompare 0 flat set1 st1 []) as [tops st2].
  cbn [snd] in *. congruence.
Qed.

Lemma topFrom_elem (flat : list RouteObj) (i : nat) (set : gset nat) (o : RouteObj) :
  o ∈ topFrom i set flat -> exists k, flat !! k = Some o.
Proof.
  revert i. induction flat as [|r flat IH]; intros i; cbn [topFrom].
  - intros H. now apply elem_of_nil in H.
  - rewrite elem_of_app. intros [H|H].
    + destruct (decide (i ∈ set)); [now apply elem_of_nil in H|].
      apply list_elem_of_singleton in H as ->. now exists 0%nat.
    + destruct (IH _ H) as [k Hk]. now exists (S k).
Qed.

Lemma buildRouteTree_tops (flat : list RouteObj) (st : Store) (o : RouteObj) :
  Fresh flat st -> o ∈ fst (buildRouteTree localeCompare flat st) ->
  exists k, flat !! k = Some o.
Proof.
  intros (Hlen & Haddr & Hempty). unfold buildRouteTree.
  destruct (findChildren 0 flat (indexParents 0 flat []) st ∅) as [st1 set1].
  pose proof (collectTop_spec localeCompare flat 0 set1 st1 []
                ltac:(intros k r Hk; now rewrite (Haddr k r Hk))) as Htop.
  destruct (collectTop localeCompare 0 flat set1 st1 []) as [tops st2].
  destruct Htop as [-> _]. cbn [fst app]. rewrite sortBy_Permutation.
  apply topFrom_elem.
Qed.

Lemma map_key_unique (m : list (string * (nat * RouteObj))) (k : string)
    (v1 v2 : nat * RouteObj) :
  NoDup (m.*1) -> (k, v1) ∈ m -> (k, v2) ∈ m -> v1 = v2.
Proof.
  induction m as [|[k0 v0] m IH]; [intros _ H; now apply elem_of_nil in H|].
  cbn [fmap list_fmap fst]. rewrite NoDup_cons. intros [Hfresh Hnd].
  rewrite !elem_of_cons. intros [E1|H1] [E2|H2].
  - congruence.
  - exfalso. apply Hfresh. apply list_elem_of_fmap. exists (k, v2).
    split; [cbn; congruence | assumption].
  - exfalso. apply Hfresh. apply list_elem_of_fmap. exists (k, v1).
    split; [cbn; congruence | assumption].
  - now apply IH.
Qed.

(** Reading the tree with more fuel than it needs changes nothing. *)
Lemma reify_stable (flat : list RouteObj) (st : Store) :
  Fresh flat st ->
  let st2 := snd (buildRouteTree localeCompare flat st) in
  forall fuel extra o,
    shallow flat st2 fuel (o_children o) ->
    reify fuel st2 o = reify (fuel + extra) st2 o.
Proof.
  intros Hfresh st2.
  pose proof (fun a => buildRouteTree_arrays flat st a Hfresh) as Harr. fold st2 in Harr.
  destruct Hfresh as (Hlen & Haddr & Hempty).
  pose proof (indexParents_sound flat) as [Hnd Hent].
  induction fuel as [|fuel IH]; intros extra o Hsh.
  - destruct Hsh as [He|(r & _ & Hlt)]; [|lia].
    destruct extra; cbn [Nat.add reify]; [reflexivity|]. now rewrite He.
  - cbn [Nat.add reify]. f_equal. apply map_ext_in. intros c Hc.
    apply IH. apply list_elem_of_In in Hc.
    destruct Hsh as [He|(r & Hr & Hlt)]; [rewrite He in Hc; now apply elem_of_nil in Hc|].
    rewrite Harr in Hc.
    apply pushedFrom_elem in Hc
      as (k & rk & pat & p & parent & _ & Hk & Hin & Hpa & Hne & Hch & ->).
    rewrite Nat.sub_0_r in Hk.
    destruct (Hent pat p parent Hin) as (Hp & Hpat & _).
    rewrite (Haddr p parent Hp) in Hpa. subst p.
    assert (parent = r) by congruence. subst parent.
    unfold childCopy, withPattern. cbn [o_children]. rewrite (Haddr k rk Hk).
    apply isChildPattern_shape in Hch as [(seg & _ & Hlong)|Hsame].
    + right. exists rk. split; [assumption|].
      assert (Hlen_k : (String.length (o_pattern r) < String.length (o_pattern rk))%nat).
      { rewrite Hlong, Hpat, StrFacts.app_length. simpl. lia. }
      pose proof (longerThan_lt flat (String.length (o_pattern r))
                    (String.length (o_pattern rk)) rk
                    (list_elem_of_lookup_2 _ _ _ Hk) Hlen_k (Nat.le_refl _)). lia.
    + left. destruct (readArray st2 k) as [|c' cs] eqn:Ek; [reflexivity|]. exfalso.
      assert (Hc' : c' ∈ readArray st2 k) by (rewrite Ek; apply list_elem_of_here).
      rewrite Harr in Hc'.
      apply pushedFrom_elem in Hc'
        as (_ & _ & pat' & p' & parent' & _ & _ & Hin' & Hpa' & _).
      destruct (Hent pat' p' parent' Hin') as (Hp' & Hpat' & _).
      rewrite (Haddr p' parent' Hp') in Hpa'. subst p'.
      assert (parent' = rk) by congruence. subst parent'.
      assert (Epat : pat' = pat) by congruence. rewrite Epat in Hin'.
      pose proof (map_key_unique _ pat (k, rk) (o_children o, r) Hnd Hin' Hin) as E.
      injection E as E _. congruence.
Qed.

(** What [scanPageRoutes] returns is the whole tree: following the
    arrays further down than the number of routes adds nothing. *)
Lemma scanPageRoutes_whole_tree (fs : FileSystem) (pagesDir : string) (extra : nat) :
  map (reify (length (snd (scanPageObjects localeCompare fs pagesDir)) + extra)
         (snd (scanPageObjects localeCompare fs pagesDir)))
    (fst (scanPageObjects localeCompare fs pagesDir))
  = scanPageRoutes localeCompare fs pagesDir.
Proof.
  unfold scanPageRoutes, scanPageObjects.
  pose proof (collectFlat_fresh_scan (glob PAGE_EXTENSIONS fs pagesDir) pagesDir) as Hfresh.
  destruct (collectFlat (glob PAGE_EXTENSIONS fs pagesDir) pagesDir [] []) as [flat st].
  cbn [fst snd] in Hfresh.
  pose proof (reify_stable flat st Hfresh) as Hstable.
  pose proof (buildRouteTree_length flat st Hfresh) as Hlen.
  pose proof (fun o => buildRouteTree_tops flat st o Hfresh) as Htops.
  destruct (buildRouteTree localeCompare flat st) as [tops st2]. cbn [fst snd] in *.
  apply map_ext_in. intros o Ho. symmetry. apply Hstable.
  apply list_elem_of_In, Htops in Ho as [k Hk].
  right. destruct Hfresh as (_ & Haddr & _). rewrite (Haddr k o Hk).
  exists o. split; [assumption|]. rewrite Hlen.
  apply longerThan_self. now apply list_elem_of_lookup_2 in Hk.
Qed.

End Depth.

(** ** Segments of a path *)

Lemma split_app_sep (c : ascii) (a b : string) :
  Str.split c (a +:+ String c b) = Str.split c a ++ Str.split c b.
Proof.
  induction a as [|x a IH]; simpl.
  - now rewrite Ascii.eqb_refl.
  - destruct (Ascii.eqb x c); [now rewrite IH|].
    rewrite IH. destruct (Str.split c a) eqn:E; [now apply StrFacts.split_nonnil in E|].
    reflexivity.
Qed.

Lemma segments_app (a b : string) :
  Str.segments (a +:+ "/" +:+ b) = Str.segments a ++ Str.segments b.
Proof.
  unfold Str.segments. change ("/" +:+ b) with (String "/" b).
  now rewrite split_app_sep, filter_app.
Qed.

Lemma segments_empty : Str.segments "" = [].
Proof. reflexivity. Qed.

Lemma segments_trailing (a : string) : Str.segments (a +:+ "/") = Str.segments a.
Proof.
  change (a +:+ "/") with (a +:+ "/" +:+ ""). rewrite segments_app, segments_empty.
  apply app_nil_r.
Qed.

Lemma segments_leading (a : string) : Str.segments ("/" +:+ a) = Str.segments a.
Proof. change ("/" +:+ a) with ("" +:+ "/" +:+ a). now rewrite segments_app. Qed.

Lemma segments_doubled (a b : string) :
  Str.segments (a +:+ "//" +:+ b) = Str.segments (a +:+ "/" +:+ b).
Proof.
  change (a +:+ "//" +:+ b) with (a +:+ "/" +:+ ("/" +:+ b)).
  now rewrite !segments_app, segments_leading.
Qed.

(** A string without a slash is its own only segment. *)
Lemma segments_one (s : string) :
  s <> "" -> Str.includes "/" s = false -> Str.segments s = [s].
Proof.
  intros Hne Hs. unfold Str.segments. rewrite StrFacts.split_none by assumption.
  rewrite filter_cons, decide_True by (destruct s; [contradiction | exact I]).
  reflexivity.
Qed.

(** The segments of a path put together from segments. *)
Lemma segments_join (l : list string) :
  Forall urlSegment l -> Str.segments ("/" +:+ Str.join "/" l) = l.
Proof.
  intros H. rewrite segments_leading. induction H as [|x l [Hne Hx] Hl IH]; [reflexivity|].
  destruct l as [|y l].
  - simpl. now apply segments_one.
  - rewrite StrFacts.join_cons by discriminate. rewrite segments_app, IH.
    now rewrite segments_one.
Qed.

(** Every segment of a path is a URL segment. *)
Lemma segments_clean (s : string) : Forall urlSegment (Str.segments s).
Proof.
  unfold Str.segments. apply Forall_forall. intros x Hx.
  apply list_elem_of_filter in Hx as [Hne Hx]. split.
  - intros ->. exact Hne.
  - pose proof (StrFacts.split_parts_clean "/" s) as Hc.
    rewrite Forall_forall in Hc. now apply Hc.
Qed.

(** X1. Both direct matchers read the URL and the pattern through their
    non-empty segments only: a slash at either end, or a doubled slash,
    changes nothing, on the side of the URL and on the side of the
    pattern. *)
Theorem matchers_ignore_empty_segments (a b other : string) :
  (* the URL of the page matcher *)
  matchPattern (a +:+ "/") other = matchPattern a other
  /\ matchPattern ("/" +:+ a) other = matchPattern a other
  /\ matchPattern (a +:+ "//" +:+ b) other = matchPattern (a +:+ "/" +:+ b) other
  (* its pattern *)
  /\ matchPattern other (a +:+ "/") = matchPattern other a
  /\ matchPattern other ("/" +:+ a) = matchPattern other a
  /\ matchPattern other (a +:+ "//" +:+ b) = matchPattern other (a +:+ "/" +:+ b)
  (* the path of the endpoint matcher *)
  /\ apiMatchPattern other (a +:+ "/") = apiMatchPattern other a
  /\ apiMatchPattern other ("/" +:+ a) = apiMatchPattern other a
  /\ apiMatchPattern other (a +:+ "//" +:+ b) = apiMatchPattern other (a +:+ "/" +:+ b)
  (* its pattern *)
  /\ apiMatchPattern (a +:+ "/") other = apiMatchPattern a other
  /\ apiMatchPattern ("/" +:+ a) other = apiMatchPattern a other
  /\ apiMatchPattern (a +:+ "//" +:+ b) other = apiMatchPattern (a +:+ "/" +:+ b) other.
Proof.
  unfold matchPattern, apiMatchPattern.
  rewrite segments_trailing, segments_leading, segments_doubled.
  repeat split.
Qed.

(** ** Paths put together by [path.join] *)

Example pathJoin_plain : pathJoin "/app/pages" "blog/[id].vue" = "/app/pages/blog/[id].vue".
Proof. reflexivity. Qed.
Example pathJoin_trailing_slash : pathJoinN ["/app/"; "server"; "api"] = "/app/server/api".
Proof. reflexivity. Qed.
Example pathJoin_root : pathJoinN ["/"; "server"; "api"] = "/server/api".
Proof. reflexivity. Qed.
Example pathJoin_empty_root : pathJoinN [""; "middleware"] = "middleware".
Proof. reflexivity. Qed.
Example pathJoin_dot_root : pathJoinN ["."; "server"; "routes"] = "server/routes".
Proof. reflexivity. Qed.
Example pathJoin_parent : pathJoin "/app/pages" "../x.vue" = "/app/x.vue".
Proof. reflexivity. Qed.
Example pathJoin_above_root : pathJoin "/" "../../x" = "/x".
Proof. reflexivity. Qed.
Example pathJoin_relative_above : pathJoin "a" "../../x/" = "../x/".
Proof. reflexivity. Qed.
Example pathJoin_nothing : pathJoin "" "" = ".".
Proof. reflexivity. Qed.

Lemma join_nonempty (sep : string) (l : list string) :
  l <> [] -> Forall (fun s => s <> "") l -> Str.nonempty (Str.join sep l) = true.
Proof.
  intros Hne Hall. destruct l as [|x l]; [contradiction|].
  inversion Hall as [|? ? Hx _]; subst.
  destruct l; simpl; (destruct x; [contradiction | reflexivity]).
Qed.

(** Segments that are neither [.] nor [..] are kept, the empty ones
    dropped. *)
Lemma normalizeSegments_kept (allowAboveRoot : bool) (segs res : list string) :
  Forall (fun s => isDots s = false) segs ->
  normalizeSegments allowAboveRoot segs res
  = rev res ++ filter (fun s => Is_true (Str.nonempty s)) segs.
Proof.
  intros H. revert res. induction H as [|seg segs Hseg _ IH]; intros res.
  - cbn [normalizeSegments]. now rewrite filter_nil, app_nil_r.
  - cbn [normalizeSegments]. unfold isDots in Hseg. apply orb_false_iff in Hseg as [H1 H2].
    rewrite H1, H2, orb_false_r.
    destruct (String.eqb_spec seg "") as [->|Hne].
    + rewrite filter_cons, decide_False by (cbn; tauto). apply IH.
    + rewrite filter_cons, decide_True by (destruct seg; [contradiction | exact I]).
      rewrite IH. cbn [rev]. now rewrite <- app_assoc.
Qed.

Lemma split_no_dots (p : string) :
  Forall (fun s => isDots s = false) (Str.segments p) ->
  Forall (fun s => isDots s = false) (Str.split "/" p).
Proof.
  unfold Str.segments. rewrite !Forall_forall. intros H s Hs.
  destruct (String.eqb_spec s "") as [->|Hne]; [reflexivity|].
  apply H, list_elem_of_filter. split; [destruct s; [contradiction | exact I] | assumption].
Qed.

(** An absolute path without [.] and [..], normalized: its segments
    joined by single slashes. *)
Lemma pathNormalize_absolute (p : string) :
  Str.startsWith "/" p = true ->
  Forall (fun s => isDots s = false) (Str.segments p) ->
  Str.segments p <> [] -> Str.endsWith "/" p = false ->
  pathNormalize p = "/" +:+ Str.join "/" (Str.segments p).
Proof.
  intros Habs Hdots Hne Hend. unfold pathNormalize.
  destruct (String.eqb_spec p "") as [->|_]; [discriminate|].
  rewrite Habs, Hend. cbn [negb].
  rewrite normalizeSegments_kept by now apply split_no_dots.
  cbn [rev app]. fold (Str.segments p).
  assert (Hj : Str.nonempty (Str.join "/" (Str.segments p)) = true).
  { apply join_nonempty; [assumption|].
    eapply Forall_impl; [apply segments_clean|]. now intros s [? _]. }
  destruct (Str.join "/" (Str.segments p)) as [|c j]; [discriminate|].
  cbn [String.eqb]. now rewrite StrFacts.app_nil_r.
Qed.

Lemma startsWith_slash_app (a b : string) :
  Str.startsWith "/" a = true -> Str.startsWith "/" (a +:+ b) = true.
Proof.
  intros H. apply StrFacts.startsWith_inv in H as [r ->].
  change (("/" +:+ r) +:+ b) with ("/" +:+ (r +:+ b)). apply StrFacts.startsWith_app.
Qed.

(** [path.join] of a resolved root and a relative path that has no [.]
    and [..] and does not end in a slash. *)
Lemma pathJoin_under (root tail : string) :
  resolvedRoot root ->
  Forall (fun s => isDots s = false) (Str.segments tail) ->
  Str.segments root ++ Str.segments tail <> [] ->
  tail <> "" -> Str.endsWith "/" tail = false ->
  pathJoin root tail = "/" +:+ Str.join "/" (Str.segments root ++ Str.segments tail).
Proof.
  intros [Habs Hroot] Htail Hne Hnonempty Hend. unfold pathJoin, pathJoinN.
  assert (Hr : root <> "") by (intros ->; discriminate).
  rewrite filter_cons, decide_True by (destruct root; [contradiction | exact I]).
  rewrite filter_cons, decide_True by (destruct tail; [contradiction | exact I]).
  rewrite filter_nil. cbn [Str.join].
  rewrite pathNormalize_absolute.
  - now rewrite segments_app.
  - now apply startsWith_slash_app.
  - rewrite segments_app. now apply Forall_app.
  - now rewrite segments_app.
  - change (root +:+ "/" +:+ tail) with (root +:+ String "/" tail).
    change (Str.endsWith "/" (root +:+ String "/" tail))
      with (Str.endsWith (String "/" "") (root +:+ String "/" tail)).
    rewrite StrFacts.endsWith_char_app by discriminate.
    change (String "/" tail) with ("/" +:+ tail).
    now rewrite StrFacts.endsWith_char_app.
Qed.

(** The directories that the scans of a project walk. *)
Lemma pathJoinN_server (root name : string) :
  resolvedRoot root -> urlSegment name -> isDots name = false ->
  pathJoinN [root; "server"; name]
  = "/" +:+ Str.join "/" (Str.segments root ++ ["server"; name]).
Proof.
  intros Hroot [Hne Hslash] Hdots.
  assert (Hr : root <> "") by (destruct Hroot as [Habs _]; intros ->; discriminate).
  assert (Hseg : Str.segments ("server/" +:+ name) = ["server"; name]).
  { change ("server/" +:+ name) with ("server" +:+ "/" +:+ name).
    now rewrite segments_app, (segments_one name). }
  replace (pathJoinN [root; "server"; name]) with (pathJoin root ("server/" +:+ name)).
  - rewrite pathJoin_under; rewrite ?Hseg.
    + reflexivity.
    + assumption.
    + constructor; [reflexivity | constructor; [assumption | constructor]].
    + now destruct (Str.segments root).
    + discriminate.
    + change (Str.endsWith "/" ("server/" +:+ name))
        with (Str.endsWith (String "/" "") ("server/" +:+ name)).
      rewrite StrFacts.endsWith_char_app by assumption.
      destruct (Str.endsWith (String "/" "") name) eqn:E; [|reflexivity].
      apply StrFacts.endsWith_inv in E as [a ->].
      rewrite StrFacts.includes_app in Hslash. cbn in Hslash.
      now rewrite orb_true_r in Hslash.
  - unfold pathJoin, pathJoinN.
    rewrite !filter_cons, !decide_True, filter_nil;
      try (destruct root; [contradiction | exact I]);
      try (destruct name; [contradiction | exact I]); try exact I.
    reflexivity.
Qed.

Lemma pathJoinN_one (root name : string) :
  resolvedRoot root -> urlSegment name -> isDots name = false ->
  pathJoinN [root; name] = "/" +:+ Str.join "/" (Str.segments root ++ [name]).
Proof.
  intros Hroot [Hne Hslash] Hdots.
  change (pathJoinN [root; name]) with (pathJoin root name).
  assert (Hseg : Str.segments name = [name]) by now apply segments_one.
  rewrite pathJoin_under; rewrite ?Hseg.
  - reflexivity.
  - assumption.
  - constructor; [assumption | constructor].
  - now destruct (Str.segments root).
  - assumption.
  - destruct (Str.endsWith "/" name) eqn:E; [|reflexivity].
    apply StrFacts.endsWith_inv in E as [a ->].
    rewrite StrFacts.includes_app in Hslash. cbn in Hslash.
    now rewrite orb_true_r in Hslash.
Qed.

(** What a walk yields: a file of the directory, with one of the
    extensions, under no name that starts with a dot. *)
Lemma glob_elem (exts : list string) (fs : FileSystem) (dir file : string) :
  file ∈ glob exts fs dir
  <-> (exists files, fs dir = Some files /\ file ∈ files)
      /\ (exists e, e ∈ exts /\ Str.endsWith e file = true)
      /\ hasDotSegment file = false.
Proof.
  unfold glob. destruct (fs dir) as [files|].
  - rewrite list_elem_of_filter, andb_True, negb_True, Is_true_true, Is_true_false.
    rewrite existsb_exists. split.
    + intros [[(e & He & Hend) Hdot] Hin]. split; [eauto|]. split; [|assumption].
      exists e. split; [now apply list_elem_of_In | assumption].
    + intros ((fl & [= <-] & Hin) & (e & He & Hend) & Hdot).
      split; [|assumption]. split; [|assumption].
      exists e. split; [now apply list_elem_of_In | assumption].
  - split; [intros H; inversion H|]. intros ((fl & Hfl & _) & _). discriminate.
Qed.

(** The walks of handler and middleware files. *)
Lemma glob_ts_js (fs : FileSystem) (dir file : string) :
  file ∈ glob [".ts"; ".js"] fs dir
  <-> (exists files, fs dir = Some files /\ file ∈ files)
      /\ (Str.endsWith ".ts" file = true \/ Str.endsWith ".js" file = true)
      /\ hasDotSegment file = false.
Proof.
  rewrite glob_elem. split.
  - intros (Hin & (e & He & Hend) & Hdot). split; [assumption|]. split; [|assumption].
    apply elem_of_cons in He as [->|He]; [now left|].
    apply elem_of_cons in He as [->|He]; [now right | inversion He].
  - intros (Hin & Hend & Hdot). split; [assumption|]. split; [|assumption].
    destruct Hend as [Hend|Hend]; [exists ".ts" | exists ".js"];
      (split; [|assumption]); [apply list_elem_of_here|].
    apply list_elem_of_further, list_elem_of_here.
Qed.

Lemma startsWith_dot_dots (s : string) : isDots s = true -> Str.startsWith "." s = true.
Proof.
  unfold isDots. intros H. apply orb_true_iff in H as [H|H];
    apply String.eqb_eq in H as ->; reflexivity.
Qed.

(** The segments of a path that a walk yields are kept by [path.join]. *)
Lemma hasDotSegment_no_dots (file : string) :
  hasDotSegment file = false -> Forall (fun s => isDots s = false) (Str.segments file).
Proof.
  unfold hasDotSegment, Str.segments. intros H. apply Forall_forall. intros s Hs.
  apply list_elem_of_filter in Hs as [_ Hs].
  destruct (isDots s) eqn:E; [|reflexivity].
  apply startsWith_dot_dots in E.
  assert (existsb (Str.startsWith ".") (Str.split "/" file) = true); [|congruence].
  apply existsb_exists. exists s. split; [now apply list_elem_of_In | assumption].
Qed.

Lemma endsWith_ext_no_slash (e file : string) :
  e ∈ [".ts"; ".js"] -> Str.endsWith e file = true ->
  file <> "" /\ Str.endsWith "/" file = false.
Proof.
  intros He Hend. apply StrFacts.endsWith_inv in Hend as [a ->].
  assert (He' : e = ".ts" \/ e = ".js").
  { apply elem_of_cons in He as [->|He]; [now left|].
    apply elem_of_cons in He as [->|He]; [now right | inversion He]. }
  split.
  - destruct He' as [-> | ->]; destruct a; discriminate.
  - change (Str.endsWith "/" (a +:+ e)) with (Str.endsWith (String "/" "") (a +:+ e)).
    destruct He' as [-> | ->]; now rewrite StrFacts.endsWith_char_app by discriminate.
Qed.

(** The path recorded for a file that the walk of a directory under a
    resolved root yields: the segments of the root, of the directory and
    of the file, joined by single slashes. *)
Lemma pathJoin_walked (fs : FileSystem) (root : string) (names : list string)
    (dir file : string) :
  resolvedRoot root -> names <> [] ->
  dir = "/" +:+ Str.join "/" (Str.segments root ++ names) ->
  Forall (fun s => urlSegment s /\ isDots s = false) names ->
  file ∈ glob [".ts"; ".js"] fs dir ->
  pathJoin dir file
  = "/" +:+ Str.join "/" (Str.segments root ++ names ++ Str.segments file).
Proof.
  intros [Habs Hroot] Hnames -> Hall Hfile.
  apply glob_elem in Hfile as (_ & (e & He & Hend) & Hdot).
  destruct (endsWith_ext_no_slash e file He Hend) as [Hne Hslash].
  assert (Hclean : Forall urlSegment (Str.segments root ++ names)).
  { apply Forall_app. split; [apply segments_clean|].
    eapply Forall_impl; [exact Hall|]. now intros s [? _]. }
  assert (Hsegs : Str.segments ("/" +:+ Str.join "/" (Str.segments root ++ names))
                  = Str.segments root ++ names) by now apply segments_join.
  rewrite pathJoin_under, Hsegs; try assumption.
  - now rewrite <- app_assoc.
  - split; [apply StrFacts.startsWith_app|]. rewrite Hsegs.
    apply Forall_app. split; [assumption|].
    eapply Forall_impl; [exact Hall|]. now intros s [_ ?].
  - now apply hasDotSegment_no_dots.
  - rewrite Hsegs. destruct names; [contradiction|]. now destruct (Str.segments root).
Qed.

(** ** The direct match, read off the code *)

Lemma literalSegment_tests (seg : string) :
  literalSegment seg = true ->
  Str.endsWith "+" seg = false /\ Str.endsWith "*" seg = false
  /\ Str.startsWith ":" seg = false.
Proof.
  unfold literalSegment. intros H.
  apply andb_true_iff in H as [H H3]. apply andb_true_iff in H as [H1 H2].
  now rewrite !negb_true_iff in *.
Qed.

Lemma lookup_head_drop {A : Type} (l : list A) (i : nat) : l !! i = head (drop i l).
Proof.
  rewrite <- (Nat.add_0_r i) at 1. rewrite <- lookup_drop. now destruct (drop i l).
Qed.

Lemma drop_cons_inv {A : Type} (l : list A) (i : nat) (x : A) (xs : list A) :
  drop i l = x :: xs -> drop (S i) l = xs /\ (S i <= length l)%nat.
Proof.
  intros E. split.
  - rewrite <- (Nat.add_1_l i), Nat.add_comm, <- drop_drop, E. reflexivity.
  - assert (length (drop i l) <> 0%nat) by (rewrite E; discriminate).
    rewrite length_drop in *. lia.
Qed.

(** The loop of the page matcher on literal segments. *)
Lemma matchPatternLoop_literal (pats parts_url : list string) (n i : nat)
    (acc : gmap string ParamValue) :
  Forall (fun seg => literalSegment seg = true) pats ->
  n = (i + length pats)%nat -> (i <= length parts_url)%nat ->
  matchPatternLoop n i pats parts_url acc
  = if decide (drop i parts_url = pats) then Some acc else None.
Proof.
  intros H. revert i. induction H as [|seg pats Hseg _ IH]; intros i Hn Hi.
  - cbn [matchPatternLoop]. simpl in Hn.
    destruct (Nat.eqb_spec (length parts_url) n) as [E|E].
    + rewrite decide_True; [reflexivity|]. apply drop_ge. lia.
    + rewrite decide_False; [reflexivity|]. intros Hd.
      apply (f_equal length) in Hd. rewrite length_drop in Hd. simpl in Hd. lia.
  - cbn [matchPatternLoop].
    destruct (literalSegment_tests seg Hseg) as (-> & -> & ->).
    rewrite lookup_head_drop.
    destruct (drop i parts_url) as [|u us] eqn:E; cbn [head].
    + now rewrite decide_False by discriminate.
    + destruct (drop_cons_inv _ _ _ _ E) as [Hd Hl].
      destruct (String.eqb_spec u seg) as [->|Hne].
      * rewrite IH by (simpl in Hn; lia || assumption). rewrite Hd.
        destruct (decide (us = pats)) as [->|Hne].
        -- now rewrite decide_True.
        -- rewrite decide_False; [reflexivity|]. now intros [= ?].
      * rewrite decide_False; [reflexivity|]. now intros [= ? ?].
Qed.

(** The loop of the endpoint matcher on segments that do not start with a
    colon. *)
Lemma apiMatchPatternLoop_literal (pats segments_path : list string) (n i : nat)
    (acc : gmap string string) :
  Forall (fun seg => Str.startsWith ":" seg = false) pats ->
  n = (i + length pats)%nat -> (i <= length segments_path)%nat ->
  apiMatchPatternLoop n i pats segments_path acc
  = if decide (drop i segments_path = pats) then Some acc else None.
Proof.
  intros H. revert i. induction H as [|seg pats Hseg _ IH]; intros i Hn Hi.
  - cbn [apiMatchPatternLoop]. simpl in Hn.
    destruct (Nat.eqb_spec n (length segments_path)) as [E|E].
    + rewrite decide_True; [reflexivity|]. apply drop_ge. lia.
    + rewrite decide_False; [reflexivity|]. intros Hd.
      apply (f_equal length) in Hd. rewrite length_drop in Hd. simpl in Hd. lia.
  - cbn [apiMatchPatternLoop]. rewrite Hseg. cbn [andb].
    rewrite lookup_head_drop.
    destruct (drop i segments_path) as [|u us] eqn:E; cbn [head].
    + now rewrite decide_False by discriminate.
    + destruct (drop_cons_inv _ _ _ _ E) as [Hd Hl].
      destruct (String.eqb_spec seg u) as [->|Hne].
      * rewrite IH by (simpl in Hn; lia || assumption). rewrite Hd.
        destruct (decide (us = pats)) as [->|Hne].
        -- now rewrite decide_True.
        -- rewrite decide_False; [reflexivity|]. now intros [= ?].
      * rewrite decide_False; [reflexivity|]. intros [= ? ?]. now apply Hne.
Qed.

(** X2. A pattern without a token matches exactly the URLs that have its
    segments, and binds nothing. For the page matcher a segment is a token
    when it ends in [+] or [*] or starts with a colon; for the endpoint
    matcher, when it starts with a colon. *)
Theorem literal_pattern_matches_itself_only (url pattern : string) :
  (Forall (fun seg => literalSegment seg = true) (Str.segments pattern) ->
   matchPattern url pattern
   = if decide (Str.segments url = Str.segments pattern) then Some ∅ else None)
  /\ (Forall (fun seg => Str.startsWith ":" seg = false) (Str.segments pattern) ->
      apiMatchPattern pattern url
      = if decide (Str.segments url = Str.segments pattern) then Some ∅ else None).
Proof.
  split; intros H.
  - unfold matchPattern. now rewrite matchPatternLoop_literal by (assumption || lia).
  - unfold apiMatchPattern. now rewrite apiMatchPatternLoop_literal by (assumption || lia).
Qed.

(** [/about] and [/users/list]. *)
Lemma literal_pattern_matches_itself_only_witness :
  matchPattern "/about/" "/about" = Some ∅
  /\ matchPattern "/about/us" "/about" = None
  /\ apiMatchPattern "/api/users/list" "/api/users/list" = Some ∅
  /\ apiMatchPattern "/api/users/list" "/api/users" = None.
Proof.
  pose proof (literal_pattern_matches_itself_only "/about/" "/about") as [H1 _].
  pose proof (literal_pattern_matches_itself_only "/about/us" "/about") as [H2 _].
  pose proof (literal_pattern_matches_itself_only "/api/users/list" "/api/users/list") as [_ H3].
  pose proof (literal_pattern_matches_itself_only "/api/users" "/api/users/list") as [_ H4].
  split; [exact (H1 ltac:(vm_compute; repeat constructor))|].
  split; [exact (H2 ltac:(vm_compute; repeat constructor))|].
  split; [exact (H3 ltac:(vm_compute; repeat constructor))|].
  exact (H4 ltac:(vm_compute; repeat constructor)).
Defined.

(** *** What follows a catch-all *)

Lemma matchPatternLoop_cut (pre post : list string) (tok : string) (n n' i : nat)
    (parts_url : list string) (acc : gmap string ParamValue) :
  isCatchAll tok = true ->
  matchPatternLoop n i (pre ++ tok :: post) parts_url acc
  = matchPatternLoop n' i (pre ++ [tok]) parts_url acc.
Proof.
  intros Htok. revert i acc. induction pre as [|pp pre IH]; intros i acc.
  - cbn [app matchPatternLoop]. unfold isCatchAll in Htok.
    destruct (Str.endsWith "+" tok); [reflexivity|].
    destruct (Str.endsWith "*" tok); [reflexivity | discriminate].
  - cbn [app matchPatternLoop].
    destruct (Str.endsWith "+" pp); [reflexivity|].
    destruct (Str.endsWith "*" pp); [reflexivity|].
    destruct (Str.startsWith ":" pp), (parts_url !! i); try reflexivity.
    + apply IH.
    + destruct (String.eqb s pp); [apply IH | reflexivity].
Qed.

Lemma apiMatchPatternLoop_cut (pre post : list string) (tok : string) (n n' i : nat)
    (segments_path : list string) (acc : gmap string string) :
  Str.startsWith ":" tok = true -> Str.endsWith "+" tok = true ->
  apiMatchPatternLoop n i (pre ++ tok :: post) segments_path acc
  = apiMatchPatternLoop n' i (pre ++ [tok]) segments_path acc.
Proof.
  intros Hs He. revert i acc. induction pre as [|pp pre IH]; intros i acc.
  - cbn [app apiMatchPatternLoop]. now rewrite Hs, He.
  - cbn [app apiMatchPatternLoop].
    destruct (Str.startsWith ":" pp && Str.endsWith "+" pp)%bool; [reflexivity|].
    destruct (Str.startsWith ":" pp), (segments_path !! i); try reflexivity.
    + apply IH.
    + destruct (String.eqb pp s); [apply IH | reflexivity].
Qed.

Lemma isCatchAll_nonempty (tok : string) : isCatchAll tok = true -> tok <> "".
Proof. intros H ->. discriminate. Qed.

(** X3. A catch-all ends the match: what the pattern holds after a segment
    that the matcher takes for a catch-all is never looked at. So the
    pattern [/:slug+/edit] of the page [[...slug]/edit.vue] matches
    whatever [/:slug+] matches. *)
Theorem catch_all_ends_the_match (url before tok after : string) :
  Str.includes "/" tok = false ->
  (isCatchAll tok = true ->
   matchPattern url (before +:+ "/" +:+ tok +:+ "/" +:+ after)
   = matchPattern url (before +:+ "/" +:+ tok))
  /\ (Str.startsWith ":" tok = true -> Str.endsWith "+" tok = true ->
      apiMatchPattern (before +:+ "/" +:+ tok +:+ "/" +:+ after) url
      = apiMatchPattern (before +:+ "/" +:+ tok) url).
Proof.
  intros Hslash.
  assert (Hsegs : tok <> "" ->
            Str.segments (before +:+ "/" +:+ tok +:+ "/" +:+ after)
            = Str.segments before ++ tok :: Str.segments after
            /\ Str.segments (before +:+ "/" +:+ tok) = Str.segments before ++ [tok]).
  { intros Hne. rewrite !segments_app. rewrite (segments_one tok) by assumption. split; reflexivity. }
  split.
  - intros Htok. destruct (Hsegs (isCatchAll_nonempty tok Htok)) as [E1 E2].
    unfold matchPattern. rewrite E1, E2. now apply matchPatternLoop_cut.
  - intros Hs He.
    assert (Hne : tok <> "") by (intros ->; discriminate).
    destruct (Hsegs Hne) as [E1 E2].
    unfold apiMatchPattern. rewrite E1, E2. now apply apiMatchPatternLoop_cut.
Qed.

(** The page [[...slug]/edit.vue]. *)
Lemma catch_all_ends_the_match_witness :
  fst (fst (fileToFields "[...slug]/edit.vue")) = "/:slug+/edit"
  /\ matchPattern "/a/b" "/:slug+/edit" = matchPattern "/a/b" "/:slug+"
  /\ matchPattern "/a/b" "/:slug+" = Some {[ "slug" := PList ["a"; "b"] ]}.
Proof.
  pose proof (catch_all_ends_the_match "/a/b" "" ":slug+" "edit" eq_refl) as [H _].
  split; [reflexivity|]. split; [exact (H eq_refl) | reflexivity].
Defined.

(** *** From the parameters back to the URL *)

Lemma matchPatternLoop_fill (pats parts_url : list string) (n i : nat)
    (acc ps : gmap string ParamValue) :
  matchPatternLoop n i pats parts_url acc = Some ps ->
  n = (i + length pats)%nat -> (i <= length parts_url)%nat ->
  NoDup (omap boundName pats) -> catchAllLast pats ->
  flat_map (fillSegment ps) pats = drop i parts_url
  /\ (forall k, k ∉ omap boundName pats -> ps !! k = acc !! k)
  /\ (forall k, k ∈ omap boundName pats -> is_Some (ps !! k)).
Proof.
  revert i acc. induction pats as [|seg rest IH]; intros i acc Hm Hn Hi Hnd Hlast.
  - cbn [matchPatternLoop] in Hm. simpl in Hn.
    destruct (Nat.eqb_spec (length parts_url) n) as [E|E]; [|discriminate].
    injection Hm as <-. split; [|split].
    + simpl. symmetry. apply drop_ge. lia.
    + reflexivity.
    + intros k Hk. simpl in Hk. now apply elem_of_nil in Hk.
  - cbn [matchPatternLoop] in Hm. destruct Hlast as [Hend Hlast].
    cbn [omap list_omap flat_map] in *. unfold fillSegment at 1.
    unfold boundName in *. unfold isCatchAll in *.
    destruct (Str.endsWith "+" seg) eqn:Eplus; cbn [orb] in *.
    { rewrite (Hend eq_refl) in *. clear Hend.
      destruct (drop i parts_url) as [|u us] eqn:E; [discriminate|].
      injection Hm as <-. cbn [flat_map omap list_omap].
      rewrite lookup_insert_eq, app_nil_r. split; [reflexivity|]. split.
      - intros k Hk. apply lookup_insert_ne. intros Ek. apply Hk. rewrite <- Ek. apply list_elem_of_here.
      - intros k Hk. apply list_elem_of_singleton in Hk as ->.
        rewrite lookup_insert_eq. eauto. }
    destruct (Str.endsWith "*" seg) eqn:Estar; cbn [orb] in *.
    { rewrite (Hend eq_refl) in *. clear Hend.
      injection Hm as <-. cbn [flat_map omap list_omap].
      rewrite lookup_insert_eq, app_nil_r. split; [reflexivity|]. split.
      - intros k Hk. apply lookup_insert_ne. intros Ek. apply Hk. rewrite <- Ek. apply list_elem_of_here.
      - intros k Hk. apply list_elem_of_singleton in Hk as ->.
        rewrite lookup_insert_eq. eauto. }
    destruct (Str.startsWith ":" seg) eqn:Ecolon.
    { destruct (parts_url !! i) as [u|] eqn:Eu; [|discriminate].
      apply NoDup_cons in Hnd as [Hfresh Hnd].
      destruct (IH (S i) _ Hm ltac:(simpl in Hn; lia)
                  ltac:(apply lookup_lt_Some in Eu; lia) Hnd Hlast)
        as (Hfill & Hkeep & Hdom).
      cbn [flat_map]. rewrite (Hkeep _ Hfresh), lookup_insert_eq.
      split; [|split].
      - rewrite Hfill. symmetry. now apply drop_S.
      - intros k Hk. rewrite Hkeep by (intros Hin; apply Hk; now apply list_elem_of_further).
        apply lookup_insert_ne. intros Ek. apply Hk. rewrite <- Ek. apply list_elem_of_here.
      - intros k Hk. apply elem_of_cons in Hk as [->|Hk]; [|now apply Hdom].
        rewrite (Hkeep _ Hfresh), lookup_insert_eq. eauto. }
    destruct (parts_url !! i) as [u|] eqn:Eu; [|discriminate].
    destruct (String.eqb_spec u seg) as [->|]; [|discriminate].
    destruct (IH (S i) _ Hm ltac:(simpl in Hn; lia)
                ltac:(apply lookup_lt_Some in Eu; lia) Hnd Hlast)
      as (Hfill & Hkeep & Hdom).
    cbn [flat_map]. split; [|auto].
    rewrite Hfill. symmetry. now apply drop_S.
Qed.

(** X4. Round trip of a direct match. When the names a pattern binds are
    distinct and a catch-all, if there is one, comes last, the parameters
    of a match hold exactly those names, and putting the bound values back
    in the place of the tokens gives the segments of the URL. *)
Theorem matchPattern_round_trip (url pattern : string) (ps : gmap string ParamValue) :
  NoDup (omap boundName (Str.segments pattern)) ->
  catchAllLast (Str.segments pattern) ->
  matchPattern url pattern = Some ps ->
  fillPattern ps pattern = Str.segments url
  /\ (forall k, is_Some (ps !! k) <-> k ∈ omap boundName (Str.segments pattern)).
Proof.
  intros Hnd Hlast Hm. unfold matchPattern in Hm.
  destruct (matchPatternLoop_fill _ _ _ _ _ _ Hm ltac:(lia) ltac:(lia) Hnd Hlast)
    as (Hfill & Hkeep & Hdom).
  split; [exact Hfill|]. intros k. split; [|apply Hdom].
  intros Hk. destruct (decide (k ∈ omap boundName (Str.segments pattern))) as [|Hn];
    [assumption|].
  rewrite (Hkeep k Hn), lookup_empty in Hk. now destruct Hk.
Qed.

(** [/posts/:id/:rest+] against [/posts/42/a/b]. *)
Lemma matchPattern_round_trip_witness :
  fillPattern {[ "id" := PStr "42"; "rest" := PList ["a"; "b"] ]} "/posts/:id/:rest+"
  = ["posts"; "42"; "a"; "b"].
Proof.
  refine (proj1 (matchPattern_round_trip "/posts/42/a/b" "/posts/:id/:rest+"
                   {[ "id" := PStr "42"; "rest" := PList ["a"; "b"] ]} _ _ _)).
  - vm_compute. repeat constructor; set_solver.
  - vm_compute. repeat split; discriminate.
  - vm_compute. reflexivity.
Defined.

(** ** The page matcher over a table *)

Lemma matchChildrenLoop_None (u : string) (parent : Route) (cs : list Route) :
  matchChildrenLoop u parent cs = None
  <-> forall c, c ∈ cs -> matchPattern u (patternFull parent c) = None.
Proof.
  induction cs as [|c cs IH]; cbn [matchChildrenLoop].
  - split; [|reflexivity]. intros _ c Hc. now apply elem_of_nil in Hc.
  - destruct (matchPattern u (patternFull parent c)) eqn:E.
    + split; [discriminate|]. intros H.
      specialize (H c (list_elem_of_here _ _)). congruence.
    + rewrite IH. split.
      * intros H c' Hc'. apply elem_of_cons in Hc' as [->|Hc']; auto.
      * intros H c' Hc'. apply H. now apply list_elem_of_further.
Qed.

Lemma matchChildrenLoop_Some (u : string) (parent : Route) (cs : list Route) (m : Match) :
  matchChildrenLoop u parent cs = Some m ->
  m_route m ∈ cs /\ matchPattern u (patternFull parent (m_route m)) = Some (m_params m).
Proof.
  induction cs as [|c cs IH]; cbn [matchChildrenLoop]; [discriminate|].
  destruct (matchPattern u (patternFull parent c)) eqn:E.
  - intros [= <-]. cbn [m_route m_params]. split; [apply list_elem_of_here | assumption].
  - intros H. destruct (IH H). split; [now apply list_elem_of_further | assumption].
Qed.

(** One route of the table: when the step reports nothing. *)
Lemma matchRouteStep_None (u : string) (r : Route) :
  matchRouteStep u r = None
  <-> matchPattern u (pattern r) = None
      /\ (underRoute u r = true ->
          forall c, c ∈ children r -> matchPattern u (patternFull r c) = None).
Proof.
  unfold matchRouteStep, underRoute, matchChildren.
  rewrite <- matchChildrenLoop_None.
  destruct (children r) as [|c cs].
  - cbn [matchChildrenLoop]. destruct (matchPattern u (pattern r)).
    + split; [discriminate | now intros [? _]].
    + split; auto.
  - destruct (matchPattern u (pattern r)).
    + destruct (matchChildrenLoop u r (c :: cs)); (split; [discriminate | now intros [? _]]).
    + destruct (Str.startsWith _ u || String.eqb u (pattern r))%bool.
      * destruct (matchChildrenLoop u r (c :: cs)).
        -- split; [discriminate|]. intros [_ H]. now apply H.
        -- split; auto.
      * split; [|reflexivity]. intros _. split; [reflexivity | discriminate].
Qed.

(** One route of the table: what the step reports. *)
Lemma matchRouteStep_Some (u : string) (r : Route) (m : Match) :
  matchRouteStep u r = Some m ->
  (m_route m = r /\ matchPattern u (pattern r) = Some (m_params m))
  \/ (m_route m ∈ children r
      /\ matchPattern u (patternFull r (m_route m)) = Some (m_params m)
      /\ (is_Some (matchPattern u (pattern r)) \/ underRoute u r = true)).
Proof.
  unfold matchRouteStep, underRoute, matchChildren.
  destruct (children r) as [|c cs] eqn:Ec.
  - destruct (matchPattern u (pattern r)); [|discriminate].
    intros [= <-]. left. auto.
  - destruct (matchPattern u (pattern r)) eqn:Ep.
    + destruct (matchChildrenLoop u r (c :: cs)) eqn:Em.
      * intros [= <-]. right. apply matchChildrenLoop_Some in Em as [? ?]. eauto.
      * intros [= <-]. left. auto.
    + destruct (Str.startsWith _ u || String.eqb u (pattern r))%bool eqn:Eg; [|discriminate].
      destruct (matchChildrenLoop u r (c :: cs)) eqn:Em; [|discriminate].
      intros [= <-]. right. apply matchChildrenLoop_Some in Em as [? ?]. auto.
Qed.

Lemma matchRouteLoop_sound (u : string) (routes : list Route) (m : Match) :
  matchRouteLoop u routes = Some m ->
  (m_route m ∈ routes /\ matchPattern u (pattern (m_route m)) = Some (m_params m))
  \/ (exists parent,
        parent ∈ routes /\ m_route m ∈ children parent
        /\ matchPattern u (patternFull parent (m_route m)) = Some (m_params m)
        /\ (is_Some (matchPattern u (pattern parent)) \/ underRoute u parent = true)).
Proof.
  intros Hm.
  induction routes as [|r routes IH]; cbn [matchRouteLoop] in Hm; [discriminate|].
  destruct (matchRouteStep u r) as [m'|] eqn:Es.
  - injection Hm as ->. apply matchRouteStep_Some in Es as [[E Hp]|(Hc & Hp & Hg)].
    + left. rewrite E. split; [apply list_elem_of_here | assumption].
    + right. exists r. split; [apply list_elem_of_here | auto].
  - destruct (IH Hm) as [[Hin Hp]|(parent & Hin & Hrest)].
    + left. split; [now apply list_elem_of_further | assumption].
    + right. exists parent. split; [now apply list_elem_of_further | assumption].
Qed.

Section RouteTable.

Variable decodeURIComponent : string -> option string.

(** X5. What [matchRoute] returns is in the table: a route of the list
    whose pattern matches the normalized URL, or a child of a route of
    the list whose full pattern matches it, and the parameters are those
    of that match. A child is only returned when the URL matches the
    pattern of its parent or starts with it. *)
Theorem matchRoute_sound (url : string) (routes : list Route) (m : Match) :
  matchRoute decodeURIComponent url routes = Some m ->
  let u := normalizeUrl decodeURIComponent url in
  (m_route m ∈ routes /\ matchPattern u (pattern (m_route m)) = Some (m_params m))
  \/ (exists parent,
        parent ∈ routes /\ m_route m ∈ children parent
        /\ matchPattern u (patternFull parent (m_route m)) = Some (m_params m)
        /\ (is_Some (matchPattern u (pattern parent)) \/ underRoute u parent = true)).
Proof. unfold matchRoute. intros Hm. cbn zeta. now apply matchRouteLoop_sound. Qed.

(** X6. [matchRoute] finds nothing exactly when no pattern of the list
    matches the normalized URL and, for every route of the list that the
    URL starts with, no full pattern of a child matches either. The
    children of a route that the URL does not start with are not tried:
    under [/:id] with the child [edit], nothing answers [/42/edit]. *)
Theorem matchRoute_none (url : string) (routes : list Route) :
  let u := normalizeUrl decodeURIComponent url in
  matchRoute decodeURIComponent url routes = None
  <-> forall r, r ∈ routes ->
        matchPattern u (pattern r) = None
        /\ (underRoute u r = true ->
            forall c, c ∈ children r -> matchPattern u (patternFull r c) = None).
Proof.
  unfold matchRoute. generalize (normalizeUrl decodeURIComponent url). intros u. cbn zeta.
  induction routes as [|r routes IH]; cbn [matchRouteLoop].
  - split; [|reflexivity]. intros _ r Hr. now apply elem_of_nil in Hr.
  - destruct (matchRouteStep u r) as [m|] eqn:Es.
    + split; [discriminate|]. intros H.
      specialize (H r (list_elem_of_here _ _)). apply matchRouteStep_None in H. congruence.
    + rewrite IH. apply matchRouteStep_None in Es. split.
      * intros H r' Hr'. apply elem_of_cons in Hr' as [->|Hr']; auto.
      * intros H r' Hr'. apply H. now apply list_elem_of_further.
Qed.

End RouteTable.

(** A child found under its parent: [/users/42] in the table of
    [users.vue] and [users/[id].vue]. *)
Lemma matchRoute_sound_witness :
  let child := mkRoute ":id" "/app/pages/users/[id].vue" true ["id"] [] in
  let parent := mkRoute "/users" "/app/pages/users.vue" false [] [child] in
  let m := mkMatch child {[ "id" := PStr "42" ]} in
  let u := normalizeUrl Uri.decodeURIComponent "/users/42?tab=1" in
  (m_route m ∈ [parent] /\ matchPattern u (pattern (m_route m)) = Some (m_params m))
  \/ (exists p,
        p ∈ [parent] /\ m_route m ∈ children p
        /\ matchPattern u (patternFull p (m_route m)) = Some (m_params m)
        /\ (is_Some (matchPattern u (pattern p)) \/ underRoute u p = true)).
Proof.
  intros child parent m u.
  exact (matchRoute_sound Uri.decodeURIComponent "/users/42?tab=1" [parent] m
           ltac:(vm_compute; reflexivity)).
Defined.

(** The pages [[id].vue] and [[id]/edit.vue]: the second is nested under
    the first, and its address is not found. *)
Example nested_under_dynamic_unreachable :
  let routes := scanPageRoutes codeCompare (pagesOf ["[id].vue"; "[id]/edit.vue"]) "/app/pages" in
  map (fun r => (pattern r, map pattern (children r))) routes = [("/:id", ["edit"])]
  /\ matchRoute Uri.decodeURIComponent "/42/edit" routes = None
  /\ is_Some (matchPattern "/42/edit" "/:id/edit").
Proof. vm_compute. repeat split. eauto. Qed.

(** The table of [[id].vue] with the child [[id]/edit.vue], and the
    address of the child. *)
Lemma matchRoute_none_witness :
  let child := mkRoute "edit" "/app/pages/[id]/edit.vue" false [] [] in
  let parent := mkRoute "/:id" "/app/pages/[id].vue" true ["id"] [child] in
  matchRoute Uri.decodeURIComponent "/42/edit" [parent] = None.
Proof.
  intros child parent.
  apply (proj2 (matchRoute_none Uri.decodeURIComponent "/42/edit" [parent])).
  intros r Hr. apply list_elem_of_singleton in Hr as ->.
  split; [vm_compute; reflexivity|]. intros Hu. vm_compute in Hu. discriminate.
Defined.

(** ** The endpoint matcher over a table, and the endpoint scan *)

Lemma matchApiRouteLoop_Some (pathname method_lower : string) (routes : list ApiRoute)
    (m : ApiMatch) :
  matchApiRouteLoop pathname method_lower routes = Some m ->
  am_route m ∈ routes
  /\ methodExcludes (api_method (am_route m)) method_lower = false
  /\ apiMatchPattern (api_pattern (am_route m)) pathname = Some (am_params m).
Proof.
  induction routes as [|r routes IH]; cbn [matchApiRouteLoop]; [discriminate|].
  assert (Hrest : matchApiRouteLoop pathname method_lower routes = Some m ->
            am_route m ∈ r :: routes
            /\ methodExcludes (api_method (am_route m)) method_lower = false
            /\ apiMatchPattern (api_pattern (am_route m)) pathname = Some (am_params m)).
  { intros H. destruct (IH H) as (? & ? & ?).
    split; [now apply list_elem_of_further | auto]. }
  destruct (methodExcludes (api_method r) method_lower) eqn:Ex; [exact Hrest|].
  destruct (apiMatchPattern (api_pattern r) pathname) as [ps|] eqn:Ep; [|exact Hrest].
  intros [= <-]. cbn [am_route am_params]. split; [apply list_elem_of_here | auto].
Qed.

(** X7. [matchApiRoute] answers with the first route of the list that is
    not excluded by its method and whose pattern matches, with the
    parameters of that match; it answers nothing exactly when every route
    is excluded or does not match. *)
Theorem matchApiRoute_first_applicable (pathname method : string) (routes : list ApiRoute) :
  let method_lower := Str.toLowerCase method in
  let passed (r : ApiRoute) :=
    methodExcludes (api_method r) method_lower = true
    \/ apiMatchPattern (api_pattern r) pathname = None in
  (forall m, matchApiRoute pathname method routes = Some m
     <-> exists before after,
           routes = before ++ am_route m :: after
           /\ Forall passed before
           /\ methodExcludes (api_method (am_route m)) method_lower = false
           /\ apiMatchPattern (api_pattern (am_route m)) pathname = Some (am_params m))
  /\ (matchApiRoute pathname method routes = None <-> Forall passed routes).
Proof.
  intros method_lower passed. unfold matchApiRoute. fold method_lower.
  induction routes as [|r routes [IHsome IHnone]]; cbn [matchApiRouteLoop].
  - split.
    + intros m. split; [discriminate|].
      intros (before & after & E & _). now destruct before.
    + split; [constructor | reflexivity].
  - destruct (methodExcludes (api_method r) method_lower) eqn:Ex;
      [|destruct (apiMatchPattern (api_pattern r) pathname) as [ps|] eqn:Ep].
    + split.
      * intros m. rewrite IHsome. split.
        -- intros (before & after & -> & Hb & Hrest). exists (r :: before), after.
           split; [reflexivity|]. split; [|assumption].
           constructor; [left; assumption | assumption].
        -- intros (before & after & E & Hb & Hx & Hp).
           destruct before as [|b before]; cbn [app] in E; injection E as -> ->.
           ++ congruence.
           ++ inversion Hb; subst. exists before, after. auto.
      * rewrite IHnone. split; [intros H; constructor; [left|]; assumption|].
        now inversion 1.
    + split.
      * intros m. split.
        -- intros [= <-]. exists [], routes. cbn [am_route am_params]. auto.
        -- intros (before & after & E & Hb & Hx & Hp).
           destruct before as [|b before]; cbn [app] in E; injection E as -> ->.
           ++ destruct m as [mr mp]. cbn [am_route am_params] in *. congruence.
           ++ inversion Hb as [|? ? [Hb1|Hb1] _]; subst; congruence.
      * split; [discriminate|]. inversion 1 as [|? ? [Hb1|Hb1] _]; subst; congruence.
    + split.
      * intros m. rewrite IHsome. split.
        -- intros (before & after & -> & Hb & Hrest). exists (r :: before), after.
           split; [reflexivity|]. split; [|assumption].
           constructor; [right; assumption | assumption].
        -- intros (before & after & E & Hb & Hx & Hp).
           destruct before as [|b before]; cbn [app] in E; injection E as -> ->.
           ++ congruence.
           ++ inversion Hb; subst. exists before, after. auto.
      * rewrite IHnone. split; [intros H; constructor; [right|]; assumption|].
        now inversion 1.
Qed.

(** [users.get.ts] before [users.post.ts], and a [POST] request. *)
Lemma matchApiRoute_first_applicable_witness :
  let r_get := mkApiRoute "/api/users" "/app/server/api/users.get.ts" (Some "get") in
  let r_post := mkApiRoute "/api/users" "/app/server/api/users.post.ts" (Some "post") in
  matchApiRoute "/api/users" "POST" [r_get; r_post] = Some (mkApiMatch r_post ∅)
  /\ matchApiRoute "/api/users" "PUT" [r_get; r_post] = None.
Proof.
  intros r_get r_post.
  pose proof (matchApiRoute_first_applicable "/api/users" "POST" [r_get; r_post]) as [Hsome _].
  pose proof (matchApiRoute_first_applicable "/api/users" "PUT" [r_get; r_post]) as [_ Hnone].
  split.
  - apply Hsome. exists [r_get], []. split; [reflexivity|]. split; [|split; reflexivity].
    constructor; [left; reflexivity | constructor].
  - apply Hnone. repeat constructor.
Defined.

(** *** The scan *)

Lemma collectApi_map (files : list string) (dir : string) (t : DirType)
    (routes : list ApiRoute) :
  collectApi files dir t routes = routes ++ map (apiRouteOf dir t) files.
Proof.
  revert routes. induction files as [|file files IH]; intros routes; cbn [collectApi map].
  - now rewrite app_nil_r.
  - rewrite IH, <- app_assoc. reflexivity.
Qed.

Lemma scanDirs_map (fs : FileSystem) (dirs : list (string * DirType)) (routes : list ApiRoute) :
  scanDirs fs dirs routes
  = routes ++ flat_map (fun d => map (apiRouteOf (fst d) (snd d)) (glob API_EXTENSIONS fs (fst d)))
                dirs.
Proof.
  revert routes. induction dirs as [|[dir t] dirs IH]; intros routes; cbn [scanDirs flat_map].
  - now rewrite app_nil_r.
  - cbn [fst snd]. unfold existsSync. destruct (fs dir) as [files|] eqn:E; cbn [negb].
    + rewrite IH, collectApi_map, <- app_assoc. reflexivity.
    + rewrite IH, (glob_missing _ _ _ E). reflexivity.
Qed.

Lemma filePathToRoutePattern_rooted (file_relative : string) (t : DirType) :
  Str.startsWith (match t with Api => "/api" | Routes => "/" end)
    (filePathToRoutePattern file_relative t) = true.
Proof.
  unfold filePathToRoutePattern.
  match goal with |- context [Str.nonempty ?x] => generalize x end. intros route_path.
  destruct t, (Str.nonempty route_path); try reflexivity.
  apply StrFacts.startsWith_app.
Qed.

Lemma startsWith_app_head (a b c : string) :
  Str.startsWith (a +:+ b) (a +:+ c) = Str.startsWith b c.
Proof.
  unfold Str.startsWith. induction a as [|x a IH]; [reflexivity|].
  simpl. destruct (ascii_dec x x); [assumption | contradiction].
Qed.

Lemma isHttpMethod_elem (s : string) : isHttpMethod s = true <-> s ∈ HTTP_METHODS.
Proof.
  unfold isHttpMethod. rewrite existsb_exists. split.
  - intros (x & Hin & E). apply String.eqb_eq in E as ->. now apply list_elem_of_In.
  - intros Hin. exists s. split; [now apply list_elem_of_In | apply String.eqb_refl].
Qed.

Lemma extractHttpMethod_verb (filename v : string) :
  extractHttpMethod filename = Some v -> v ∈ HTTP_METHODS.
Proof.
  unfold extractHttpMethod.
  destruct (Nat.ltb _ 2); [discriminate|].
  destruct (isHttpMethod _) eqn:E; [|discriminate].
  intros [= <-]. now apply isHttpMethod_elem.
Qed.

Lemma scanApiRoutes_closed (fs : FileSystem) (root : string) :
  scanApiRoutes fs root
  = map (apiRouteOf (pathJoinN [root; "server"; "api"]) Api)
      (glob API_EXTENSIONS fs (pathJoinN [root; "server"; "api"]))
    ++ map (apiRouteOf (pathJoinN [root; "server"; "routes"]) Routes)
         (glob API_EXTENSIONS fs (pathJoinN [root; "server"; "routes"])).
Proof.
  unfold scanApiRoutes. rewrite scanDirs_map. cbn [flat_map fst snd app].
  now rewrite app_nil_r.
Qed.

Lemma scanApiRoutes_verbs (fs : FileSystem) (root : string) (r : ApiRoute) :
  r ∈ scanApiRoutes fs root -> forall v, api_method r = Some v -> v ∈ HTTP_METHODS.
Proof.
  rewrite scanApiRoutes_closed. intros Hr v Hv.
  apply elem_of_app in Hr as [Hr|Hr]; apply list_elem_of_fmap in Hr as (file & -> & _);
    now apply extractHttpMethod_verb in Hv.
Qed.

(** The file path of a route of the walk of [server/api] or
    [server/routes] under a resolved root. *)
Lemma apiRouteOf_file_path (fs : FileSystem) (root : string) (t : DirType) (file : string) :
  resolvedRoot root ->
  file ∈ glob API_EXTENSIONS fs (pathJoinN [root; "server"; dirName t]) ->
  api_file_path (apiRouteOf (pathJoinN [root; "server"; dirName t]) t file)
  = "/" +:+ Str.join "/" (Str.segments root ++ ["server"; dirName t] ++ Str.segments file).
Proof.
  intros Hroot Hfile. cbn [apiRouteOf api_file_path].
  assert (Hname : urlSegment (dirName t) /\ isDots (dirName t) = false)
    by (destruct t; repeat split; discriminate).
  destruct Hname as [Hurl Hdots].
  apply (pathJoin_walked fs root ["server"; dirName t]); try assumption.
  - discriminate.
  - now apply pathJoinN_server.
  - constructor; [repeat split; discriminate|]. constructor; [now split | constructor].
Qed.

(** X8. The endpoint scan returns one route per handler file that its
    walks yield: those of [server/api] in the order of the walk, then
    those of [server/routes]; a directory that is missing adds nothing. A
    walk yields the files of the directory that end in [.ts] or [.js] and
    have no file or directory name that starts with a dot on their path.
    Every pattern is rooted at [/api] or at [/] according to the
    directory, and every recorded method is one of the seven verbs in
    lower case. Where the root is absolute and has no [.] and [..]
    segment, every file path is made of the segments of the root, then
    [server], the name of the directory and the segments of the file,
    joined by single slashes. *)
Theorem scanApiRoutes_contents (fs : FileSystem) (root : string) :
  let dir (t : DirType) := pathJoinN [root; "server"; dirName t] in
  scanApiRoutes fs root
  = map (apiRouteOf (dir Api) Api) (glob API_EXTENSIONS fs (dir Api))
    ++ map (apiRouteOf (dir Routes) Routes) (glob API_EXTENSIONS fs (dir Routes))
  /\ (forall d, fs d = None -> glob API_EXTENSIONS fs d = [])
  /\ (forall d file,
        file ∈ glob API_EXTENSIONS fs d
        <-> (exists files, fs d = Some files /\ file ∈ files)
            /\ (Str.endsWith ".ts" file = true \/ Str.endsWith ".js" file = true)
            /\ hasDotSegment file = false)
  /\ (forall t file,
        Str.startsWith (match t with Api => "/api" | Routes => "/" end)
          (api_pattern (apiRouteOf (dir t) t file))
        = true)
  /\ (forall r v, r ∈ scanApiRoutes fs root -> api_method r = Some v -> v ∈ HTTP_METHODS)
  /\ (resolvedRoot root ->
      forall t file, file ∈ glob API_EXTENSIONS fs (dir t) ->
        api_file_path (apiRouteOf (dir t) t file)
        = "/" +:+ Str.join "/"
                    (Str.segments root ++ ["server"; dirName t] ++ Str.segments file)).
Proof.
  intros dir.
  split; [exact (scanApiRoutes_closed fs root)|].
  split; [intros d Hd; exact (glob_missing _ _ _ Hd)|].
  split; [|split; [|split]].
  - intros d file. apply glob_ts_js.
  - intros t file. apply filePathToRoutePattern_rooted.
  - intros r v Hr Hv. exact (scanApiRoutes_verbs fs root r Hr v Hv).
  - intros Hroot t file Hfile. now apply (apiRouteOf_file_path fs).
Qed.

(** A project with [server/api/users.get.ts], a hidden file beside it,
    and [server/routes/health.ts], its root written with a slash at the
    end. *)
Lemma scanApiRoutes_contents_witness :
  let fs := serverOf (Some ["users.get.ts"; "README.md"; ".cache/old.ts"]) (Some ["health.ts"]) in
  scanApiRoutes fs "/app/"
  = [mkApiRoute "/api/users" "/app/server/api/users.get.ts" (Some "get");
     mkApiRoute "/health" "/app/server/routes/health.ts" None]
  /\ "get" ∈ HTTP_METHODS
  /\ api_file_path (apiRouteOf (pathJoinN ["/app/"; "server"; "api"]) Api "users.get.ts")
     = "/" +:+ Str.join "/" (Str.segments "/app/" ++ ["server"; "api"]
                              ++ Str.segments "users.get.ts").
Proof.
  intros fs.
  pose proof (scanApiRoutes_contents fs "/app/") as (Hclosed & _ & Hglob & _ & Hverb & Hpath).
  split; [rewrite Hclosed; vm_compute; reflexivity|]. split.
  - apply (Hverb (mkApiRoute "/api/users" "/app/server/api/users.get.ts" (Some "get")));
      [|reflexivity].
    rewrite Hclosed. vm_compute. apply list_elem_of_here.
  - apply (Hpath ltac:(split; [reflexivity | repeat constructor]) Api).
    apply Hglob. split; [|split; [now left | reflexivity]].
    exists ["users.get.ts"; "README.md"; ".cache/old.ts"]. split; [reflexivity|].
    apply list_elem_of_here.
Defined.

(** X9. Scan and match together: what [matchApiRoute] answers on the
    routes of a scan is one of them, its pattern matches the path, and its
    handler file names no verb or names the verb of the request, case
    ignored. A request whose method is none of the seven verbs is only
    answered by a file without a verb. *)
Theorem matchApiRoute_on_scan (fs : FileSystem) (root pathname method : string) (m : ApiMatch) :
  matchApiRoute pathname method (scanApiRoutes fs root) = Some m ->
  am_route m ∈ scanApiRoutes fs root
  /\ apiMatchPattern (api_pattern (am_route m)) pathname = Some (am_params m)
  /\ (api_method (am_route m) = None
      \/ api_method (am_route m) = Some (Str.toLowerCase method))
  /\ (isHttpMethod (Str.toLowerCase method) = false -> api_method (am_route m) = None).
Proof.
  intros Hm.
  pose proof (matchApiRouteLoop_Some pathname (Str.toLowerCase method)
                (scanApiRoutes fs root) m Hm) as (Hin & Hx & Hp).
  pose proof (scanApiRoutes_verbs fs root _ Hin) as Hverb.
  assert (Hmeth : api_method (am_route m) = None
                  \/ api_method (am_route m) = Some (Str.toLowerCase method)).
  { unfold methodExcludes in Hx. destruct (api_method (am_route m)) as [v|]; [|now left].
    right. specialize (Hverb v eq_refl).
    destruct v as [|c v]; [now apply isHttpMethod_elem in Hverb|].
    cbn [Str.nonempty andb] in Hx. apply negb_false_iff, String.eqb_eq in Hx. now rewrite Hx. }
  split; [assumption|]. split; [assumption|]. split; [assumption|].
  intros Hno. destruct Hmeth as [|E]; [assumption|].
  specialize (Hverb _ E). apply isHttpMethod_elem in Hverb. congruence.
Qed.

(** A [GET] request for [/api/users] in a project with
    [server/api/users.get.ts] and [server/api/users.post.ts]. *)
Lemma matchApiRoute_on_scan_witness :
  let fs := serverOf (Some ["users.post.ts"; "users.get.ts"]) None in
  let r_get := mkApiRoute "/api/users" "/app/server/api/users.get.ts" (Some "get") in
  r_get ∈ scanApiRoutes fs "/app"
  /\ apiMatchPattern "/api/users" "/api/users" = Some ∅
  /\ (api_method r_get = None \/ api_method r_get = Some (Str.toLowerCase "GET"))
  /\ (isHttpMethod (Str.toLowerCase "GET") = false -> api_method r_get = None).
Proof.
  intros fs r_get.
  exact (matchApiRoute_on_scan fs "/app" "/api/users" "GET" (mkApiMatch r_get ∅)
           ltac:(vm_compute; reflexivity)).
Defined.

(** ** From a file to its pattern, and from the pattern to the URLs *)

Lemma allWord_app (a b : string) :
  Str.allWord (a +:+ b) = (Str.allWord a && Str.allWord b)%bool.
Proof.
  induction a as [|c a IH]; [reflexivity|].
  simpl. now rewrite IH, andb_assoc.
Qed.

(** A word does not end in a character that is not of a word. *)
Lemma word_not_ending (c : ascii) (name : string) :
  Str.isWordChar c = false -> Str.isWord name = true ->
  Str.endsWith (String c "") name = false.
Proof.
  intros Hc W. destruct (Str.endsWith (String c "") name) eqn:E; [|reflexivity].
  apply StrFacts.endsWith_inv in E as [a ->].
  unfold Str.isWord in W. apply andb_true_iff in W as [_ W].
  rewrite allWord_app in W. simpl in W. rewrite Hc in W.
  now rewrite andb_false_r in W.
Qed.

Lemma word_no_char (c : ascii) (name : string) :
  Str.isWordChar c = false -> Str.isWord name = true -> Str.includes c name = false.
Proof.
  intros Hc W. unfold Str.isWord in W. apply andb_true_iff in W as [_ W].
  induction name as [|x name IH]; [reflexivity|].
  simpl in *. apply andb_true_iff in W as [Wx W]. rewrite (IH W), orb_false_r.
  destruct (Ascii.eqb_spec x c); [congruence | reflexivity].
Qed.

Lemma word_nonempty (name : string) : Str.isWord name = true -> name <> "".
Proof. intros W ->. discriminate. Qed.

(** *** The three tokens *)

Section Tokens.

Variable name : string.
Hypothesis W : Str.isWord name = true.

Lemma token_dynamic :
  Str.endsWith "+" (":" +:+ name) = false /\ Str.endsWith "*" (":" +:+ name) = false
  /\ Str.startsWith ":" (":" +:+ name) = true /\ Str.drop 1 (":" +:+ name) = name
  /\ urlSegment (":" +:+ name).
Proof.
  pose proof (word_nonempty name W) as Hne.
  rewrite !(StrFacts.endsWith_char_app _ ":" name) by assumption.
  rewrite !word_not_ending by (reflexivity || assumption).
  rewrite StrFacts.startsWith_app.
  repeat split; [discriminate|].
  change (":" +:+ name) with (String ":" name). cbn [Str.includes].
  now rewrite word_no_char.
Qed.

Lemma token_catch_all :
  Str.endsWith "+" (":" +:+ name +:+ "+") = true
  /\ Str.startsWith ":" (":" +:+ name +:+ "+") = true
  /\ Str.slice1m1 (":" +:+ name +:+ "+") = name
  /\ urlSegment (":" +:+ name +:+ "+").
Proof.
  split; [|split; [|split; [|split]]].
  - change (":" +:+ name +:+ "+") with (String ":" name +:+ "+").
    apply StrFacts.endsWith_app.
  - apply StrFacts.startsWith_app.
  - unfold Str.slice1m1. change (Str.drop 1 (":" +:+ name +:+ "+")) with (name +:+ "+").
    apply (StrFacts.dropEnd_app name "+").
  - discriminate.
  - change (":" +:+ name +:+ "+") with (String ":" (name +:+ "+")). cbn [Str.includes].
    rewrite StrFacts.includes_app, word_no_char by (reflexivity || assumption).
    reflexivity.
Qed.

Lemma token_optional :
  Str.endsWith "+" (":" +:+ name +:+ "*") = false
  /\ Str.endsWith "*" (":" +:+ name +:+ "*") = true
  /\ Str.slice1m1 (":" +:+ name +:+ "*") = name
  /\ urlSegment (":" +:+ name +:+ "*").
Proof.
  split; [|split; [|split; [|split]]].
  - change (":" +:+ name +:+ "*") with (String ":" name +:+ "*").
    now rewrite StrFacts.endsWith_char_app by discriminate.
  - change (":" +:+ name +:+ "*") with (String ":" name +:+ "*").
    apply StrFacts.endsWith_app.
  - unfold Str.slice1m1. change (Str.drop 1 (":" +:+ name +:+ "*")) with (name +:+ "*").
    apply (StrFacts.dropEnd_app name "*").
  - discriminate.
  - change (":" +:+ name +:+ "*") with (String ":" (name +:+ "*")). cbn [Str.includes].
    rewrite StrFacts.includes_app, word_no_char by (reflexivity || assumption).
    reflexivity.
Qed.

(** The bracket forms hold no slash. *)
Lemma brackets_no_slash :
  Str.includes "/" ("[" +:+ name +:+ "]") = false
  /\ Str.includes "/" ("[..." +:+ name +:+ "]") = false
  /\ Str.includes "/" ("[[..." +:+ name +:+ "]]") = false.
Proof.
  assert (H : forall cl, Str.includes "/" cl = false ->
                Str.includes "/" (name +:+ cl) = false).
  { intros cl Hcl. now rewrite StrFacts.includes_app, word_no_char, Hcl. }
  repeat split; simpl; now apply H.
Qed.

End Tokens.

(** *** Literal directories in front *)

Lemma plainName_url (seg : string) : plainName seg -> urlSegment seg.
Proof. intros (? & ? & _). now split. Qed.

Lemma matchPatternLoop_prefix (pre pats rest done : list string) (n : nat)
    (acc : gmap string ParamValue) :
  Forall (fun s => literalSegment s = true) pre ->
  matchPatternLoop n (length done) (pre ++ pats) (done ++ pre ++ rest) acc
  = matchPatternLoop n (length done + length pre) pats (done ++ pre ++ rest) acc.
Proof.
  intros H. revert done. induction H as [|seg pre Hseg _ IH]; intros done.
  - cbn [app length]. now rewrite Nat.add_0_r.
  - cbn [app matchPatternLoop length].
    destruct (literalSegment_tests seg Hseg) as (-> & -> & ->).
    rewrite list_lookup_middle by reflexivity. rewrite String.eqb_refl.
    specialize (IH (done ++ [seg])). rewrite <- !app_assoc in IH. cbn [app] in IH.
    rewrite length_app in IH. cbn [length] in IH.
    replace (S (length done)) with (length done + 1)%nat by lia.
    rewrite IH. f_equal. lia.
Qed.

Lemma apiMatchPatternLoop_prefix (pre pats rest done : list string) (n : nat)
    (acc : gmap string string) :
  Forall (fun s => Str.startsWith ":" s = false) pre ->
  apiMatchPatternLoop n (length done) (pre ++ pats) (done ++ pre ++ rest) acc
  = apiMatchPatternLoop n (length done + length pre) pats (done ++ pre ++ rest) acc.
Proof.
  intros H. revert done. induction H as [|seg pre Hseg _ IH]; intros done.
  - cbn [app length]. now rewrite Nat.add_0_r.
  - cbn [app apiMatchPatternLoop length]. rewrite Hseg. cbn [andb].
    rewrite list_lookup_middle by reflexivity. rewrite String.eqb_refl.
    specialize (IH (done ++ [seg])). rewrite <- !app_assoc in IH. cbn [app] in IH.
    rewrite length_app in IH. cbn [length] in IH.
    replace (S (length done)) with (length done + 1)%nat by lia.
    rewrite IH. f_equal. lia.
Qed.

(** The page pattern of a file whose last segment is a bracket form. *)
Lemma fileToFields_bracket (dirs : list string) (seg tok name ext : string) :
  Forall plainName dirs -> ext ∈ PAGE_EXTENSIONS ->
  Str.includes "/" seg = false -> String.eqb seg "index" = false ->
  pageSegmentToUrl seg = (tok, Some name) ->
  fileToFields (Str.join "/" (dirs ++ [seg]) +:+ ext)
  = ("/" +:+ Str.join "/" (dirs ++ [tok]), true, [name]).
Proof.
  intros Hdirs Hext Hseg Hidx Htok.
  rewrite fileToFields_segments; [|now destruct dirs| |assumption].
  - rewrite StrFacts.lastOf_snoc, Hidx.
    rewrite mapPageSegments_plain by (eapply Forall_impl; [exact Hdirs|]; now intros ? (_ & _ & ? & _)).
    cbn [mapPageSegments]. now rewrite Htok.
  - apply Forall_app. split; [|now constructor].
    eapply Forall_impl; [exact Hdirs|]. now intros ? (_ & ? & _).
Qed.

(** X10. A page file answers the URLs its name describes. Under plain
    directories, the pattern derived from [[name]] matches the URLs with
    one more segment and binds it; the pattern derived from [[...name]]
    matches the URLs with one or more further segments and binds their
    list, and does not match the directory itself; the pattern derived
    from [[[...name]]] matches those and the directory itself, binding the
    possibly empty list. *)
Theorem page_pattern_matches_its_urls
    (dirs us : list string) (name ext u : string) :
  Forall plainName dirs -> Str.isWord name = true -> ext ∈ PAGE_EXTENSIONS ->
  urlSegment u -> Forall urlSegment us ->
  let pattern_of seg := fst (fst (fileToFields (Str.join "/" (dirs ++ [seg]) +:+ ext))) in
  let url_of rest := "/" +:+ Str.join "/" (dirs ++ rest) in
  matchPattern (url_of [u]) (pattern_of ("[" +:+ name +:+ "]")) = Some {[ name := PStr u ]}
  /\ matchPattern (url_of (u :: us)) (pattern_of ("[..." +:+ name +:+ "]"))
     = Some {[ name := PList (u :: us) ]}
  /\ matchPattern (url_of []) (pattern_of ("[..." +:+ name +:+ "]")) = None
  /\ matchPattern (url_of us) (pattern_of ("[[..." +:+ name +:+ "]]"))
     = Some {[ name := PList us ]}.
Proof.
  intros Hdirs W Hext Hu Hus pattern_of url_of.
  destruct (brackets_no_slash name W) as (Hb1 & Hb2 & Hb3).
  destruct (token_dynamic name W) as (Hd1 & Hd2 & Hd3 & Hd4 & Hd5).
  destruct (token_catch_all name W) as (Hc1 & _ & Hc3 & Hc4).
  destruct (token_optional name W) as (Ho1 & Ho2 & Ho3 & Ho4).
  assert (Hlit : Forall (fun s => literalSegment s = true) dirs)
    by (eapply Forall_impl; [exact Hdirs|]; now intros ? (_ & _ & _ & ?)).
  assert (Hurl : Forall urlSegment dirs)
    by (eapply Forall_impl; [exact Hdirs|]; apply plainName_url).
  assert (Hsegs : forall rest, Forall urlSegment rest ->
            Str.segments ("/" +:+ Str.join "/" (dirs ++ rest)) = dirs ++ rest).
  { intros rest Hrest. apply segments_join. apply Forall_app. now split. }
  assert (Hloop : forall tok rest acc, Forall urlSegment rest -> urlSegment tok ->
            matchPatternLoop (length (Str.segments ("/" +:+ Str.join "/" (dirs ++ [tok])))) 0
              (Str.segments ("/" +:+ Str.join "/" (dirs ++ [tok])))
              (Str.segments (url_of rest)) acc
            = matchPatternLoop (length dirs + 1) (length dirs) [tok] (dirs ++ rest) acc).
  { intros tok rest acc Hrest Htok. unfold url_of.
    rewrite !Hsegs by (assumption || now constructor).
    rewrite length_app. cbn [length].
    exact (matchPatternLoop_prefix dirs [tok] rest [] _ acc Hlit). }
  assert (Hp1 : pattern_of ("[" +:+ name +:+ "]") = "/" +:+ Str.join "/" (dirs ++ [":" +:+ name])).
  { unfold pattern_of. now rewrite (fileToFields_bracket dirs _ _ name ext Hdirs Hext Hb1 eq_refl
                                      (pageSegmentToUrl_dynamic name W)). }
  assert (Hp2 : pattern_of ("[..." +:+ name +:+ "]")
                = "/" +:+ Str.join "/" (dirs ++ [":" +:+ name +:+ "+"])).
  { unfold pattern_of. now rewrite (fileToFields_bracket dirs _ _ name ext Hdirs Hext Hb2 eq_refl
                                      (pageSegmentToUrl_catch_all name W)). }
  assert (Hp3 : pattern_of ("[[..." +:+ name +:+ "]]")
                = "/" +:+ Str.join "/" (dirs ++ [":" +:+ name +:+ "*"])).
  { unfold pattern_of. now rewrite (fileToFields_bracket dirs _ _ name ext Hdirs Hext Hb3 eq_refl
                                      (pageSegmentToUrl_optional name W)). }
  rewrite Hp1, Hp2, Hp3. unfold matchPattern.
  rewrite !Hloop by auto using Forall_nil, Forall_cons.
  cbn [matchPatternLoop]. rewrite Hd1, Hd2, Hd3, Hd4, Hc1, Hc3, Ho1, Ho2, Ho3.
  rewrite list_lookup_middle by reflexivity.
  rewrite !drop_app_length. rewrite !length_app. cbn [length].
  rewrite Nat.eqb_refl, !insert_empty. repeat split.
Qed.

(** The pages [posts/[id].vue], [docs/[...slug].vue] and
    [docs/[[...slug]].vue]. *)
Lemma page_pattern_matches_its_urls_witness :
  fst (fst (fileToFields "posts/[id].vue")) = "/posts/:id"
  /\ matchPattern "/posts/42" (fst (fst (fileToFields "posts/[id].vue")))
     = Some {[ "id" := PStr "42" ]}
  /\ matchPattern "/posts/42/edit" (fst (fst (fileToFields "posts/[...id].vue")))
     = Some {[ "id" := PList ["42"; "edit"] ]}
  /\ matchPattern "/posts" (fst (fst (fileToFields "posts/[...id].vue"))) = None
  /\ matchPattern "/posts/edit" (fst (fst (fileToFields "posts/[[...id]].vue")))
     = Some {[ "id" := PList ["edit"] ]}.
Proof.
  assert (Hposts : plainName "posts").
  { split; [discriminate|]. split; [reflexivity|].
    split; [apply plainSegment_literal; discriminate | reflexivity]. }
  pose proof (page_pattern_matches_its_urls ["posts"] ["edit"] "id" ".vue" "42"
                ltac:(constructor; [exact Hposts | constructor]) eq_refl
                ltac:(apply list_elem_of_here)
                ltac:(split; [discriminate | reflexivity])
                ltac:(repeat constructor; discriminate)) as (H1 & H2 & H3 & H4).
  split; [reflexivity|]. split; [exact H1|]. split; [exact H2|]. split; [exact H3 | exact H4].
Defined.

(** *** Endpoints *)

Lemma toLowerCase_app (a b : string) :
  Str.toLowerCase (a +:+ b) = Str.toLowerCase a +:+ Str.toLowerCase b.
Proof. induction a as [|c a IH]; [reflexivity|]. simpl. now rewrite IH. Qed.

(** The last part of a string that ends in a bracket ends in it too. *)
Lemma lastOf_split_bracket (x : string) :
  exists y, lastOf (Str.split "." (x +:+ "]")) = y +:+ "]".
Proof.
  set (c := "."%char).
  induction x as [|a x [y IH]].
  - now exists "".
  - change (String a x +:+ "]") with (String a (x +:+ "]")). cbn [Str.split].
    pose proof (StrFacts.split_nonnil c (x +:+ "]")) as Hne.
    destruct (Str.split c (x +:+ "]")) as [|h t] eqn:E; [contradiction|].
    destruct (Ascii.eqb a c).
    + exists y. exact IH.
    + destruct t as [|h' t].
      * unfold lastOf in *. cbn [List.last] in *. subst h. now exists (String a y).
      * exists y. exact IH.
Qed.

Lemma lastHasVerb_bracket (x : string) : lastHasVerb (x +:+ "]") = false.
Proof.
  unfold lastHasVerb. destruct (lastOf_split_bracket x) as [y ->].
  rewrite toLowerCase_app.
  destruct (isHttpMethod (Str.toLowerCase y +:+ Str.toLowerCase "]")) eqn:E;
    [|apply andb_false_r].
  exfalso. apply isHttpMethod_elem in E. unfold HTTP_METHODS in E.
  rewrite !elem_of_cons, elem_of_nil in E.
  destruct E as [E|[E|[E|[E|[E|[E|[E|[]]]]]]]]; suffix_clash E.
Qed.

Lemma segments_withRoot (t : DirType) (l : list string) :
  Forall urlSegment l -> Str.segments (withRoot t (Str.join "/" l)) = rootSegments t ++ l.
Proof.
  intros Hl. destruct l as [|x l]; [now destruct t|].
  unfold withRoot. rewrite join_nonempty;
    [|discriminate|eapply Forall_impl; [exact Hl|]; now intros ? [? _]].
  destruct t; cbn [rootSegments app].
  - change ("/api/" +:+ Str.join "/" (x :: l)) with ("/" +:+ "api" +:+ "/" +:+ Str.join "/" (x :: l)).
    rewrite <- (StrFacts.join_cons "/" "api" (x :: l)) by discriminate.
    apply segments_join. constructor; [split; [discriminate | reflexivity] | assumption].
  - now apply segments_join.
Qed.

(** The endpoint pattern of a file whose last segment ends in a bracket. *)
Lemma filePathToRoutePattern_bracket (t : DirType) (dirs : list string) (x tok ext : string) :
  Forall plainName dirs -> ext ∈ API_EXTENSIONS ->
  Str.includes "/" (x +:+ "]") = false -> String.eqb (x +:+ "]") "index" = false ->
  apiSegmentToUrl (x +:+ "]") = tok ->
  filePathToRoutePattern
    ("server/" +:+ dirName t +:+ "/" +:+ Str.join "/" (dirs ++ [x +:+ "]"]) +:+ ext) t
  = withRoot t (Str.join "/" (dirs ++ [tok])).
Proof.
  intros Hdirs Hext Hseg Hidx Htok.
  replace ("server/" +:+ dirName t +:+ "/" +:+ Str.join "/" (dirs ++ [x +:+ "]"]) +:+ ext)
    with (("server/" +:+ dirName t +:+ "/") +:+ (Str.join "/" (dirs ++ [x +:+ "]"]) +:+ ext))
    by (now rewrite !StrFacts.app_assoc).
  rewrite filePathToRoutePattern_segments; [|now destruct dirs| |assumption].
  - rewrite StrFacts.lastOf_snoc, lastHasVerb_bracket. unfold dropIndex.
    rewrite StrFacts.lastOf_snoc, Hidx, map_app. cbn [map]. rewrite Htok.
    f_equal. f_equal. f_equal.
    clear -Hdirs. induction Hdirs as [|d dirs (_ & _ & Hp & _) _ IH]; [reflexivity|].
    cbn [map]. rewrite IH. f_equal. apply apiSegmentToUrl_plain.
    intros n Wn. destruct (Hp n Wn) as (? & _ & ?). now split.
  - apply Forall_app. split; [|now constructor].
    eapply Forall_impl; [exact Hdirs|]. now intros ? (_ & ? & _).
Qed.

(** X11. An endpoint file answers the paths its name describes. Under
    plain directories of [server/api] or [server/routes], the pattern
    derived from [[name]] matches the paths with one more segment, and
    the pattern derived from [[...name]] matches the paths with one or
    more further segments and not the directory itself. The match binds
    the segment, or the further segments joined by slashes, from which a
    split gives them back, to the name, unless the name is [__proto__]:
    then the path is matched all the same and nothing is bound. *)
Theorem endpoint_pattern_matches_its_paths
    (t : DirType) (dirs us : list string) (name ext u : string) :
  Forall plainName dirs -> Str.isWord name = true -> ext ∈ API_EXTENSIONS ->
  urlSegment u -> Forall urlSegment us ->
  let pattern_of seg :=
    filePathToRoutePattern
      ("server/" +:+ dirName t +:+ "/" +:+ Str.join "/" (dirs ++ [seg]) +:+ ext) t in
  let path_of rest := withRoot t (Str.join "/" (dirs ++ rest)) in
  let bound (value : string) : gmap string string :=
    if decide (name = "__proto__") then ∅ else {[ name := value ]} in
  apiMatchPattern (pattern_of ("[" +:+ name +:+ "]")) (path_of [u]) = Some (bound u)
  /\ apiMatchPattern (pattern_of ("[..." +:+ name +:+ "]")) (path_of (u :: us))
     = Some (bound (Str.join "/" (u :: us)))
  /\ Str.split "/" (Str.join "/" (u :: us)) = u :: us
  /\ apiMatchPattern (pattern_of ("[..." +:+ name +:+ "]")) (path_of []) = None.
Proof.
  intros Hdirs W Hext Hu Hus pattern_of path_of bound.
  destruct (brackets_no_slash name W) as (Hb1 & Hb2 & _).
  destruct (token_dynamic name W) as (Hd1 & _ & Hd3 & Hd4 & Hd5).
  destruct (token_catch_all name W) as (Hc1 & Hc2 & Hc3 & Hc4).
  assert (Hurl : Forall urlSegment dirs)
    by (eapply Forall_impl; [exact Hdirs|]; apply plainName_url).
  assert (Hlit : Forall (fun s => Str.startsWith ":" s = false) (rootSegments t ++ dirs)).
  { apply Forall_app. split; [destruct t; repeat constructor|].
    eapply Forall_impl; [exact Hdirs|]. intros s (_ & _ & _ & Hs).
    now destruct (literalSegment_tests s Hs) as (_ & _ & ?). }
  assert (Hsegs : forall rest, Forall urlSegment rest ->
            Str.segments (withRoot t (Str.join "/" (dirs ++ rest)))
            = (rootSegments t ++ dirs) ++ rest).
  { intros rest Hrest. rewrite segments_withRoot, app_assoc; [reflexivity|].
    apply Forall_app. now split. }
  assert (Hloop : forall tok rest acc, Forall urlSegment rest -> urlSegment tok ->
            apiMatchPatternLoop
              (length (Str.segments (withRoot t (Str.join "/" (dirs ++ [tok]))))) 0
              (Str.segments (withRoot t (Str.join "/" (dirs ++ [tok]))))
              (Str.segments (path_of rest)) acc
            = apiMatchPatternLoop (length (rootSegments t ++ dirs) + 1)
                (length (rootSegments t ++ dirs)) [tok] ((rootSegments t ++ dirs) ++ rest) acc).
  { intros tok rest acc Hrest Htok. unfold path_of.
    rewrite !Hsegs by (assumption || now constructor).
    rewrite (length_app _ [tok]). cbn [length].
    exact (apiMatchPatternLoop_prefix (rootSegments t ++ dirs) [tok] rest [] _ acc Hlit). }
  assert (Hp1 : pattern_of ("[" +:+ name +:+ "]")
                = withRoot t (Str.join "/" (dirs ++ [":" +:+ name]))).
  { unfold pattern_of.
    exact (filePathToRoutePattern_bracket t dirs ("[" +:+ name) _ ext Hdirs Hext Hb1 eq_refl
             (apiSegmentToUrl_dynamic name W)). }
  assert (Hp2 : pattern_of ("[..." +:+ name +:+ "]")
                = withRoot t (Str.join "/" (dirs ++ [":" +:+ name +:+ "+"]))).
  { unfold pattern_of.
    exact (filePathToRoutePattern_bracket t dirs ("[..." +:+ name) _ ext Hdirs Hext Hb2 eq_refl
             (apiSegmentToUrl_catch_all name W)). }
  rewrite Hp1, Hp2. unfold apiMatchPattern.
  rewrite !Hloop by auto using Forall_nil, Forall_cons.
  cbn [apiMatchPatternLoop]. rewrite Hd1, Hd3, Hd4, Hc1, Hc2, Hc3. cbn [andb].
  rewrite list_lookup_middle by reflexivity.
  rewrite !drop_app_length. rewrite !length_app. cbn [length].
  rewrite Nat.eqb_refl.
  assert (Hbound : forall value, setParam name value ∅ = bound value).
  { intros value. unfold setParam, bound.
    destruct (String.eqb_spec name "__proto__"), (decide (name = "__proto__"));
      try contradiction; [reflexivity | apply insert_empty]. }
  rewrite !Hbound.
  replace (Nat.leb (length (rootSegments t) + length dirs + S (length us))
             (length (rootSegments t) + length dirs)) with false
    by (symmetry; apply Nat.leb_gt; lia).
  replace (Nat.leb (length (rootSegments t) + length dirs + 0)
             (length (rootSegments t) + length dirs)) with true
    by (symmetry; apply Nat.leb_le; lia).
  split; [reflexivity|]. split; [reflexivity|]. split; [|reflexivity].
  apply StrFacts.split_join; [discriminate|].
  eapply Forall_impl; [exact (Forall_cons_2 _ _ _ Hu Hus)|]. now intros ? [_ ?].
Qed.

(** The handlers [server/api/files/[id].ts],
    [server/api/files/[...path].ts] and [server/api/files/[__proto__].ts]. *)
Lemma endpoint_pattern_matches_its_paths_witness :
  filePathToRoutePattern "server/api/files/[...path].ts" Api = "/api/files/:path+"
  /\ apiMatchPattern (filePathToRoutePattern "server/api/files/[id].ts" Api) "/api/files/a"
     = Some {[ "id" := "a" ]}
  /\ apiMatchPattern (filePathToRoutePattern "server/api/files/[...path].ts" Api)
       "/api/files/a/b.txt"
     = Some {[ "path" := "a/b.txt" ]}
  /\ Str.split "/" "a/b.txt" = ["a"; "b.txt"]
  /\ apiMatchPattern (filePathToRoutePattern "server/api/files/[...path].ts" Api) "/api/files"
     = None
  /\ apiMatchPattern (filePathToRoutePattern "server/api/files/[__proto__].ts" Api)
       "/api/files/a"
     = Some ∅.
Proof.
  assert (Hfiles : plainName "files").
  { split; [discriminate|]. split; [reflexivity|].
    split; [apply plainSegment_literal; discriminate | reflexivity]. }
  pose proof (endpoint_pattern_matches_its_paths Api ["files"] ["b.txt"] "id" ".ts" "a"
                ltac:(constructor; [exact Hfiles | constructor]) eq_refl
                ltac:(apply list_elem_of_here)
                ltac:(split; [discriminate | reflexivity])
                ltac:(repeat constructor; discriminate)) as (H1 & _).
  pose proof (endpoint_pattern_matches_its_paths Api ["files"] ["b.txt"] "path" ".ts" "a"
                ltac:(constructor; [exact Hfiles | constructor]) eq_refl
                ltac:(apply list_elem_of_here)
                ltac:(split; [discriminate | reflexivity])
                ltac:(repeat constructor; discriminate)) as (_ & H2 & H3 & H4).
  pose proof (endpoint_pattern_matches_its_paths Api ["files"] [] "__proto__" ".ts" "a"
                ltac:(constructor; [exact Hfiles | constructor]) eq_refl
                ltac:(apply list_elem_of_here)
                ltac:(split; [discriminate | reflexivity])
                ltac:(constructor)) as (H5 & _).
  split; [reflexivity|]. split; [exact H1|]. split; [exact H2|]. split; [exact H3|].
  split; [exact H4 | exact H5].
Defined.

(** ** Precedence and the order of a scan *)

Lemma precedenceLoop_bounds (parts : list string) (i score : Z) :
  0 <= i ->
  score <= precedenceLoop i parts score
  /\ (precedenceLoop i parts score = score
      <-> Forall (fun seg => literalSegment seg = true) parts)
  /\ (precedenceLoop i parts score = score \/ score + 100 <= precedenceLoop i parts score).
Proof.
  revert i score. induction parts as [|p rest IH]; intros i score Hi;
    cbn [precedenceLoop].
  - split; [lia|]. split; [|now left]. split; [constructor | reflexivity].
  - unfold literalSegment at 1.
    assert (Hstep : forall score', score <= score' ->
              (score' = score <-> literalSegment p = true) ->
              (score' = score \/ score + 100 <= score') ->
              score <= precedenceLoop (i + 1) rest score'
              /\ (precedenceLoop (i + 1) rest score' = score
                  <-> Forall (fun seg => literalSegment seg = true) (p :: rest))
              /\ (precedenceLoop (i + 1) rest score' = score
                  \/ score + 100 <= precedenceLoop (i + 1) rest score')).
    { intros score' Hle Hiff Hgap.
      destruct (IH (i + 1) score' ltac:(lia)) as (Hge & Hzero & Hjump).
      split; [lia|]. split; [|lia]. rewrite Forall_cons. split.
      - intros E. assert (score' = score) by lia. split; [now apply Hiff|].
        apply Hzero. lia.
      - intros [Hp Hrest]. apply Hiff in Hp. apply Hzero in Hrest. lia. }
    unfold literalSegment in Hstep.
    destruct (Str.endsWith "+" p); [apply Hstep; cbn; [lia | split; [lia | discriminate] | lia]|].
    destruct (Str.endsWith "*" p); [apply Hstep; cbn; [lia | split; [lia | discriminate] | lia]|].
    destruct (Str.startsWith ":" p); [apply Hstep; cbn; [lia | split; [lia | discriminate] | lia]|].
    apply Hstep; cbn; [lia | tauto | now left].
Qed.

(** X13. The precedence of a pattern is never negative; it is 0 exactly
    when no segment is a token to the matcher (none ends in [+] or [*],
    none starts with a colon), and at least 100 otherwise. *)
Theorem routePrecedence_zero_iff_literal (pattern : string) :
  0 <= routePrecedence pattern
  /\ (routePrecedence pattern = 0
      <-> Forall (fun seg => literalSegment seg = true) (Str.segments pattern))
  /\ (routePrecedence pattern = 0 \/ 100 <= routePrecedence pattern).
Proof.
  unfold routePrecedence.
  destruct (precedenceLoop_bounds (Str.segments pattern) 0 0 ltac:(lia)) as (H1 & H2 & H3).
  split; [assumption|]. split; [assumption|]. lia.
Qed.

(** [/about/us] has no token; [/posts/:id] has one. *)
Lemma routePrecedence_zero_iff_literal_witness :
  routePrecedence "/about/us" = 0
  /\ ~ Forall (fun seg => literalSegment seg = true) (Str.segments "/posts/:id").
Proof.
  pose proof (routePrecedence_zero_iff_literal "/about/us") as (_ & [_ Hlit] & _).
  pose proof (routePrecedence_zero_iff_literal "/posts/:id") as (_ & [_ Htok] & _).
  split; [apply Hlit; vm_compute; repeat constructor|].
  intros H. apply Htok in H. vm_compute in H. discriminate.
Defined.

(** *** A comparison of strings to sort with *)

Lemma string_compare_trans (a b c : string) :
  String.compare a b <> Gt -> String.compare b c <> Gt -> String.compare a c <> Gt.
Proof.
  revert b c. induction a as [|x a IH]; intros [|y b] [|z c]; simpl; try congruence.
  unfold Ascii.compare.
  destruct (N.compare_spec (N_of_ascii x) (N_of_ascii y)),
           (N.compare_spec (N_of_ascii y) (N_of_ascii z)),
           (N.compare_spec (N_of_ascii x) (N_of_ascii z));
    try congruence; try lia; apply IH.
Qed.

Lemma codeCompare_consistent : ConsistentCompare codeCompare.
Proof.
  assert (Hle : forall a b, codeCompare a b <= 0 <-> String.compare a b <> Gt).
  { intros a b. unfold codeCompare. destruct (String.compare a b); split; (lia || congruence). }
  split.
  - intros a b. rewrite !Hle, (String.compare_antisym b a).
    destruct (String.compare a b); cbn; [left | left | right]; congruence.
  - intros a b c. rewrite !Hle. apply string_compare_trans.
Qed.

(** *** The order of the routes *)

Lemma Sorted_fmap {A B : Type} (R : A -> A -> Prop) (R' : B -> B -> Prop) (f : A -> B)
    (l : list A) :
  (forall a b, R a b -> R' (f a) (f b)) -> Sorted R l -> Sorted R' (map f l).
Proof.
  intros Hf. induction 1 as [|a l _ IH Hhd]; cbn [map]; constructor; [assumption|].
  destruct Hhd; cbn [map]; constructor. now apply Hf.
Qed.

Lemma pattern_reify (fuel : nat) (st : Store) (o : RouteObj) :
  pattern (reify fuel st o) = o_pattern o.
Proof. now destruct fuel. Qed.

Lemma topFrom_unclaimed (flat : list RouteObj) (i : nat) (set : gset nat) (o : RouteObj) :
  o ∈ topFrom i set flat -> exists k, flat !! k = Some o /\ (i + k)%nat ∉ set.
Proof.
  revert i. induction flat as [|r flat IH]; intros i; cbn [topFrom].
  - intros H. now apply elem_of_nil in H.
  - rewrite elem_of_app. intros [H|H].
    + destruct (decide (i ∈ set)); [now apply elem_of_nil in H|].
      apply list_elem_of_singleton in H as ->. exists 0%nat.
      split; [reflexivity | now rewrite Nat.add_0_r].
    + destruct (IH _ H) as (k & Hk & Hn). exists (S k).
      split; [assumption | now replace (i + S k)%nat with (S i + k)%nat by lia].
Qed.

Section ScanOrder.

Variable localeCompare : string -> string -> Z.
Hypothesis consistent : ConsistentCompare localeCompare.

Lemma patternLe_trans (a b c : Route) :
  patternLe localeCompare a b -> patternLe localeCompare b c -> patternLe localeCompare a c.
Proof.
  unfold patternLe. cbn zeta. destruct consistent as [_ Htrans].
  destruct (Z.eqb_spec (routePrecedence (pattern a) - routePrecedence (pattern b)) 0),
           (Z.eqb_spec (routePrecedence (pattern b) - routePrecedence (pattern c)) 0),
           (Z.eqb_spec (routePrecedence (pattern a) - routePrecedence (pattern c)) 0);
    cbn [negb]; try lia. apply Htrans.
Qed.

Lemma patternLe_precedence (a b : Route) :
  patternLe localeCompare a b -> routePrecedence (pattern a) <= routePrecedence (pattern b).
Proof.
  unfold patternLe. cbn zeta.
  destruct (Z.eqb_spec (routePrecedence (pattern a) - routePrecedence (pattern b)) 0);
    cbn [negb]; lia.
Qed.

(** The array of every top-level route is in order. *)
Lemma buildRouteTree_top_arrays (flat : list RouteObj) (st : Store) (o : RouteObj) :
  Fresh flat st -> o ∈ fst (buildRouteTree localeCompare flat st) ->
  Sorted (routeLe localeCompare)
    (readArray (snd (buildRouteTree localeCompare flat st)) (o_children o)).
Proof.
  intros (Hlen & Haddr & Hempty). unfold buildRouteTree.
  destruct (findChildren 0 flat (indexParents 0 flat []) st ∅) as [st1 set1].
  pose proof (collectTop_spec localeCompare flat 0 set1 st1 []
                ltac:(intros k r Hk; now rewrite (Haddr k r Hk))) as Htop.
  destruct (collectTop localeCompare 0 flat set1 st1 []) as [tops st2].
  destruct Htop as [-> Hread2]. cbn [fst snd app]. rewrite sortBy_Permutation.
  intros Ho. apply topFrom_unclaimed in Ho as (k & Hk & Hn). cbn [Nat.add] in Hn.
  rewrite Hread2, (Haddr k o Hk).
  rewrite decide_True by (apply lookup_lt_Some in Hk; split; [lia | assumption]).
  apply sortBy_Sorted. now apply compareRoutes_total.
Qed.

(** The two sorts, seen on the routes that a scan returns. *)
Lemma scanPageRoutes_in_order (fs : FileSystem) (pagesDir : string) :
  Sorted (patternLe localeCompare) (scanPageRoutes localeCompare fs pagesDir)
  /\ forall r, r ∈ scanPageRoutes localeCompare fs pagesDir ->
       Sorted (patternLe localeCompare) (children r).
Proof.
  assert (Hmap : forall fuel st l, Sorted (routeLe localeCompare) l ->
            Sorted (patternLe localeCompare) (map (reify fuel st) l)).
  { intros fuel st l. apply Sorted_fmap. intros a b.
    unfold routeLe, compareRoutes, patternLe. now rewrite !pattern_reify. }
  unfold scanPageRoutes, scanPageObjects.
  pose proof (collectFlat_fresh_scan (glob PAGE_EXTENSIONS fs pagesDir) pagesDir) as Hfresh.
  destruct (collectFlat (glob PAGE_EXTENSIONS fs pagesDir) pagesDir [] []) as [flat st].
  cbn [fst snd] in Hfresh.
  pose proof (fun o => buildRouteTree_top_arrays flat st o Hfresh) as Harr.
  assert (Hsorted : Sorted (routeLe localeCompare)
                      (fst (buildRouteTree localeCompare flat st))).
  { unfold buildRouteTree.
    destruct (findChildren 0 flat (indexParents 0 flat []) st ∅) as [st1 set1].
    destruct (collectTop localeCompare 0 flat set1 st1 []) as [tops st2]. cbn [fst].
    apply sortBy_Sorted. now apply compareRoutes_total. }
  destruct (buildRouteTree localeCompare flat st) as [tops st2]. cbn [fst snd] in *.
  split; [now apply Hmap|].
  intros r Hr. apply list_elem_of_fmap in Hr as (o & -> & Ho).
  destruct (length st2) as [|fuel]; cbn [reify children]; [constructor|].
  apply Hmap. now apply Harr.
Qed.

(** Along a sorted list the precedence does not decrease. *)
Lemma Sorted_precedence (routes : list Route) (i j : nat) (a b : Route) :
  Sorted (patternLe localeCompare) routes ->
  (i < j)%nat -> routes !! i = Some a -> routes !! j = Some b ->
  routePrecedence (pattern a) <= routePrecedence (pattern b).
Proof.
  intros Hs. apply Sorted_StronglySorted in Hs; [|intros x y z; apply patternLe_trans].
  revert i j. induction Hs as [|x l _ IH Hall]; intros i j Hij Ha Hb; [discriminate|].
  destruct j as [|j]; [lia|]. cbn in Hb. destruct i as [|i].
  - injection Ha as ->. apply patternLe_precedence.
    rewrite Forall_forall in Hall. apply Hall. now apply list_elem_of_lookup_2 in Hb.
  - cbn in Ha. apply (IH i j); [lia | assumption | assumption].
Qed.

(** X12. The routes of a scan are in order. With a comparison of strings
    that a sort can rely on, the top-level list that [scanPageRoutes]
    returns is sorted by precedence and, among equal precedences, by the
    comparison of the patterns, and so are the children of every
    top-level route. So precedence never decreases along the list, and
    a route whose pattern has a token is never in front of one whose
    pattern has none. *)
Theorem scanPageRoutes_sorted (fs : FileSystem) (pagesDir : string) :
  let routes := scanPageRoutes localeCompare fs pagesDir in
  Sorted (patternLe localeCompare) routes
  /\ (forall r, r ∈ routes -> Sorted (patternLe localeCompare) (children r))
  /\ (forall i j a b, (i < j)%nat -> routes !! i = Some a -> routes !! j = Some b ->
        routePrecedence (pattern a) <= routePrecedence (pattern b)
        /\ (Forall (fun seg => literalSegment seg = true) (Str.segments (pattern b)) ->
            Forall (fun seg => literalSegment seg = true) (Str.segments (pattern a)))).
Proof.
  intros routes.
  destruct (scanPageRoutes_in_order fs pagesDir) as [Hs Hc]. fold routes in Hs, Hc.
  split; [assumption|]. split; [assumption|].
  intros i j a b Hij Ha Hb.
  pose proof (Sorted_precedence routes i j a b Hs Hij Ha Hb) as Hle.
  split; [assumption|]. intros Hlit.
  pose proof (precedenceLoop_bounds (Str.segments (pattern a)) 0 0 ltac:(lia))
    as (Ha0 & Hza & _).
  pose proof (precedenceLoop_bounds (Str.segments (pattern b)) 0 0 ltac:(lia))
    as (_ & Hzb & _).
  apply Hza. apply Hzb in Hlit. unfold routePrecedence in Hle. lia.
Qed.

End ScanOrder.

(** A scan of [[...slug].vue], [[id].vue] and [about.vue], sorted by the
    comparison of character codes. *)
Lemma scanPageRoutes_sorted_witness :
  let routes :=
    scanPageRoutes codeCompare (pagesOf ["[...slug].vue"; "[id].vue"; "about.vue"]) "/app/pages" in
  map pattern routes = ["/about"; "/:id"; "/:slug+"]
  /\ Sorted (patternLe codeCompare) routes.
Proof.
  intros routes. split; [vm_compute; reflexivity|].
  exact (proj1 (scanPageRoutes_sorted codeCompare codeCompare_consistent
                  (pagesOf ["[...slug].vue"; "[id].vue"; "about.vue"]) "/app/pages")).
Defined.

(** ** Where the routes of a scan come from *)

Lemma reify_fields (fuel : nat) (st : Store) (o : RouteObj) :
  pattern (reify fuel st o) = o_pattern o /\ filePath (reify fuel st o) = o_filePath o
  /\ isDynamic (reify fuel st o) = o_isDynamic o /\ params (reify fuel st o) = o_params o.
Proof. now destruct fuel. Qed.

(** The flat routes are those of the files that are not private. *)
Lemma collectFlat_elem (files : list string) (pagesDir : string)
    (flat : list RouteObj) (st : Store) (r : RouteObj) :
  r ∈ fst (collectFlat files pagesDir flat st) ->
  r ∈ flat
  \/ exists file, file ∈ files /\ hasPrivateSegment file = false
       /\ o_filePath r = pathJoin pagesDir file
       /\ (o_pattern r, o_isDynamic r, o_params r) = fileToFields file.
Proof.
  revert flat st. induction files as [|f files IH]; intros flat st; cbn [collectFlat].
  - now left.
  - destruct (hasPrivateSegment f) eqn:Hp.
    + intros H. destruct (IH _ _ H) as [|(file & Hin & Hrest)]; [now left|].
      right. exists file. split; [now apply list_elem_of_further | assumption].
    + unfold fileToRoute. destruct (fileToFields f) as [[pat d] ps] eqn:Ef.
      intros H. destruct (IH _ _ H) as [Hr|(file & Hin & Hrest)].
      * apply elem_of_app in Hr as [Hr|Hr]; [now left|].
        apply list_elem_of_singleton in Hr as ->. right. exists f.
        cbn [o_filePath o_pattern o_isDynamic o_params]. rewrite Ef.
        split; [apply list_elem_of_here | auto].
      * right. exists file. split; [now apply list_elem_of_further | assumption].
Qed.

(** The prefix that the builder takes off a child is the one the matcher
    puts back. *)
Lemma patternFull_segments (parent child : Route) (pat : string) :
  pattern parent <> "/" -> isChildPattern pat (pattern parent) = true ->
  pattern child = patternChild pat (pattern parent) ->
  Str.segments (patternFull parent child) = Str.segments pat.
Proof.
  intros Hroot Hc Hchild. unfold patternFull. rewrite Hchild. unfold patternChild.
  destruct (String.eqb_spec (pattern parent) "/") as [|_]; [contradiction|].
  apply isChildPattern_shape in Hc as [(seg & _ & ->)| ->].
  - destruct (String.eqb_spec (pattern parent +:+ "/" +:+ seg) (pattern parent)) as [E|_];
      [now apply app_slash_neq in E|].
    rewrite <- StrFacts.app_assoc, StrFacts.drop_app.
    destruct (String.eqb_spec seg "") as [->|_]; [|now rewrite StrFacts.app_assoc].
    rewrite StrFacts.app_assoc. change ("/" +:+ "") with "/". now rewrite segments_trailing.
  - now rewrite !String.eqb_refl.
Qed.

Section Provenance.

Variable localeCompare : string -> string -> Z.

Lemma scanPageRoutes_from_files (fs : FileSystem) (pagesDir : string) (parent : Route) :
  parent ∈ scanPageRoutes localeCompare fs pagesDir ->
  (exists file,
     file ∈ glob PAGE_EXTENSIONS fs pagesDir /\ hasPrivateSegment file = false
     /\ filePath parent = pathJoin pagesDir file
     /\ (pattern parent, isDynamic parent, params parent) = fileToFields file)
  /\ forall child, child ∈ children parent ->
       exists file,
         file ∈ glob PAGE_EXTENSIONS fs pagesDir /\ hasPrivateSegment file = false
         /\ filePath child = pathJoin pagesDir file
         /\ isDynamic child = snd (fst (fileToFields file))
         /\ params child = snd (fileToFields file)
         /\ forall url, matchPattern url (patternFull parent child)
                        = matchPattern url (fst (fst (fileToFields file))).
Proof.
  unfold scanPageRoutes, scanPageObjects.
  pose proof (collectFlat_fresh_scan (glob PAGE_EXTENSIONS fs pagesDir) pagesDir) as Hfresh.
  pose proof (fun r => collectFlat_elem (glob PAGE_EXTENSIONS fs pagesDir) pagesDir [] [] r)
    as Hfile.
  destruct (collectFlat (glob PAGE_EXTENSIONS fs pagesDir) pagesDir [] []) as [flat st].
  cbn [fst snd] in Hfresh, Hfile.
  assert (Hfrom : forall k r, flat !! k = Some r ->
            exists file, file ∈ glob PAGE_EXTENSIONS fs pagesDir
              /\ hasPrivateSegment file = false
              /\ o_filePath r = pathJoin pagesDir file
              /\ (o_pattern r, o_isDynamic r, o_params r) = fileToFields file).
  { intros k r Hk. apply list_elem_of_lookup_2 in Hk.
    destruct (Hfile r Hk) as [Hnil|H]; [now apply elem_of_nil in Hnil | exact H]. }
  pose proof (buildRouteTree_length localeCompare flat st Hfresh) as Hlen.
  pose proof (fun o => buildRouteTree_tops localeCompare flat st o Hfresh) as Htops.
  pose proof (fun a => buildRouteTree_arrays localeCompare flat st a Hfresh) as Harr.
  pose proof (indexParents_sound flat) as [_ Hent].
  destruct Hfresh as (_ & Haddr & _).
  destruct (buildRouteTree localeCompare flat st) as [tops st2]. cbn [fst snd] in *.
  intros Hparent. apply list_elem_of_fmap in Hparent as (o & -> & Ho).
  destruct (Htops o Ho) as [ko Hko].
  destruct (reify_fields (length st2) st2 o) as (Ep & Ef & Ed & Eps).
  split.
  - destruct (Hfrom ko o Hko) as (file & ? & ? & ? & ?). exists file.
    rewrite Ep, Ef, Ed, Eps. auto.
  - intros child Hchild.
    destruct (length st2) as [|fuel] eqn:El;
      [apply lookup_lt_Some in Hko; lia|].
    cbn [reify children] in Hchild.
    apply list_elem_of_fmap in Hchild as (c & -> & Hc).
    rewrite Harr in Hc.
    apply pushedFrom_elem in Hc
      as (k & rk & pat & p & par & _ & Hk & Hin & Hpa & _ & Hch & ->).
    rewrite Nat.sub_0_r in Hk.
    destruct (Hent pat p par Hin) as (Hp & Hpat & Hroot & _).
    rewrite (Haddr p par Hp), (Haddr ko o Hko) in Hpa. subst p.
    assert (par = o) by congruence. subst par.
    destruct (Hfrom k rk Hk) as (file & Hfin & Hpriv & Hpath & Hfields).
    exists file.
    destruct (reify_fields fuel st2 (childCopy rk pat)) as (Ecp & Ecf & Ecd & Ecps).
    rewrite Ecf, Ecd, Ecps. unfold childCopy, withPattern in *.
    cbn [o_filePath o_isDynamic o_params o_pattern] in *.
    rewrite <- Hfields. cbn [fst snd].
    split; [assumption|]. split; [assumption|]. split; [assumption|].
    split; [reflexivity|]. split; [reflexivity|].
    intros url. unfold matchPattern.
    now rewrite (patternFull_segments _ _ (o_pattern rk))
      by (rewrite ?Ep, ?Ecp, ?Hpat; assumption || reflexivity).
Qed.

(** X14. A scan invents nothing. Every top-level route that
    [scanPageRoutes] returns carries the path and the fields derived
    from a page file of the directory that is not private; so does every
    child of a top-level route, except that its pattern is relative: the
    full pattern under which [matchRoute] tries the child matches the
    same URLs, with the same parameters, as the pattern derived from the
    file of the child. *)
Theorem scanPageRoutes_provenance (fs : FileSystem) (pagesDir : string) (parent : Route) :
  parent ∈ scanPageRoutes localeCompare fs pagesDir ->
  (exists file,
     file ∈ glob PAGE_EXTENSIONS fs pagesDir /\ hasPrivateSegment file = false
     /\ filePath parent = pathJoin pagesDir file
     /\ (pattern parent, isDynamic parent, params parent) = fileToFields file)
  /\ forall child, child ∈ children parent ->
       exists file,
         file ∈ glob PAGE_EXTENSIONS fs pagesDir /\ hasPrivateSegment file = false
         /\ filePath child = pathJoin pagesDir file
         /\ isDynamic child = snd (fst (fileToFields file))
         /\ params child = snd (fileToFields file)
         /\ forall url, matchPattern url (patternFull parent child)
                        = matchPattern url (fst (fst (fileToFields file))).
Proof. apply scanPageRoutes_from_files. Qed.

Variable decodeURIComponent : string -> option string.

(** X21. Scan and match together. The route that [matchRoute] finds in
    the routes of a scan is the page of a file of the directory that is
    not private, top-level or nested, and the parameters returned are
    those of the direct match of the normalized URL against the pattern
    derived from that file. *)
Theorem matchRoute_on_scan (fs : FileSystem) (pagesDir url : string) (m : Match) :
  matchRoute decodeURIComponent url (scanPageRoutes localeCompare fs pagesDir) = Some m ->
  exists file,
    file ∈ glob PAGE_EXTENSIONS fs pagesDir /\ hasPrivateSegment file = false
    /\ filePath (m_route m) = pathJoin pagesDir file
    /\ isDynamic (m_route m) = snd (fst (fileToFields file))
    /\ params (m_route m) = snd (fileToFields file)
    /\ matchPattern (normalizeUrl decodeURIComponent url) (fst (fst (fileToFields file)))
       = Some (m_params m).
Proof.
  unfold matchRoute. intros Hm.
  apply matchRouteLoop_sound in Hm as [[Hin Hp]|(parent & Hin & Hc & Hp & _)].
  - destruct (scanPageRoutes_from_files fs pagesDir _ Hin)
      as ((file & Hf & Hpriv & Hpath & Hfields) & _).
    exists file. rewrite <- Hfields. cbn [fst snd].
    split; [assumption|]. split; [assumption|]. split; [assumption|].
    split; [reflexivity|]. split; [reflexivity | assumption].
  - destruct (scanPageRoutes_from_files fs pagesDir _ Hin) as (_ & Hchild).
    destruct (Hchild _ Hc) as (file & Hf & Hpriv & Hpath & Hd & Hps & Hm').
    exists file. rewrite <- Hm'.
    split; [assumption|]. split; [assumption|]. split; [assumption|].
    split; [assumption|]. split; assumption.
Qed.

End Provenance.

(** The scan of [users.vue] and [users/[id].vue]. *)
Lemma scanPageRoutes_provenance_witness :
  let fs := pagesOf ["users/[id].vue"; "users.vue"; "_draft.vue"] in
  let child := mkRoute ":id" "/app/pages/users/[id].vue" true ["id"] [] in
  let parent := mkRoute "/users" "/app/pages/users.vue" false [] [child] in
  scanPageRoutes codeCompare fs "/app/pages" = [parent]
  /\ exists file,
       file ∈ glob PAGE_EXTENSIONS fs "/app/pages" /\ hasPrivateSegment file = false
       /\ filePath child = pathJoin "/app/pages" file
       /\ isDynamic child = snd (fst (fileToFields file))
       /\ params child = snd (fileToFields file)
       /\ forall url, matchPattern url (patternFull parent child)
                      = matchPattern url (fst (fst (fileToFields file))).
Proof.
  intros fs child parent. split; [vm_compute; reflexivity|].
  refine (proj2 (scanPageRoutes_provenance codeCompare fs "/app/pages" parent _) child _).
  - vm_compute. apply list_elem_of_here.
  - apply list_elem_of_here.
Defined.

(** The address [/users/42] in the scan of [users.vue] and
    [users/[id].vue]. *)
Lemma matchRoute_on_scan_witness :
  let fs := pagesOf ["users/[id].vue"; "users.vue"] in
  let child := mkRoute ":id" "/app/pages/users/[id].vue" true ["id"] [] in
  let m := mkMatch child {[ "id" := PStr "42" ]} in
  exists file,
    file ∈ glob PAGE_EXTENSIONS fs "/app/pages" /\ hasPrivateSegment file = false
    /\ filePath (m_route m) = pathJoin "/app/pages" file
    /\ isDynamic (m_route m) = snd (fst (fileToFields file))
    /\ params (m_route m) = snd (fileToFields file)
    /\ matchPattern (normalizeUrl Uri.decodeURIComponent "/users/42/")
         (fst (fst (fileToFields file)))
       = Some (m_params m).
Proof.
  intros fs child m.
  exact (matchRoute_on_scan codeCompare Uri.decodeURIComponent fs "/app/pages" "/users/42/" m
           ltac:(vm_compute; reflexivity)).
Defined.

(** ** Runs of the scan cache *)

Section CacheRuns.

Variable localeCompare : string -> string -> Z.

#[local] Abbreviation stepL := (step localeCompare).
#[local] Abbreviation runL := (run localeCompare).
#[local] Abbreviation readL := (readDir localeCompare).
#[local] Abbreviation scanOf := (scanPageRoutes localeCompare).

Lemma run_cons (w : World) (e : Event) (es : list Event) :
  runL w (e :: es)
  = (match fst (stepL w e) with
     | Some p => p :: fst (runL (snd (stepL w e)) es)
     | None => fst (runL (snd (stepL w e)) es)
     end, snd (runL (snd (stepL w e)) es)).
Proof.
  cbn [run]. destruct (stepL w e) as [r w']. cbn [fst snd].
  destruct (runL w' es) as [rs w'']. reflexivity.
Qed.

Lemma run_app (w : World) (es1 es2 : list Event) :
  snd (runL w (es1 ++ es2)) = snd (runL (snd (runL w es1)) es2).
Proof.
  revert w. induction es1 as [|e es1 IH]; intros w; [reflexivity|].
  cbn [app]. rewrite !run_cons. cbn [snd]. apply IH.
Qed.

(** The state after a reading. *)
Lemma readDir_walks (p q : nat) (w : World) :
  w_walks (readL p w) !! q
  = match w_walks w !! q with
    | Some wk =>
        Some (if Nat.eqb p q && negb (hasRead wk)
              then mkWalk (walk_dir wk) (Some (scanOf (w_fs w) (walk_dir wk))) false
              else wk)
    | None => None
    end.
Proof.
  unfold readDir, hasRead. destruct (w_walks w !! p) as [wk|] eqn:Ep.
  - destruct (walk_result wk) as [routes|] eqn:Er.
    + destruct (w_walks w !! q) as [wk'|] eqn:Eq; [|reflexivity].
      destruct (Nat.eqb_spec p q) as [->|_]; [|reflexivity].
      assert (wk' = wk) by congruence. subst wk'. now rewrite Er.
    + cbn [w_walks]. destruct (Nat.eqb_spec p q) as [<-|Hne].
      * rewrite list_lookup_insert_eq by (now apply lookup_lt_Some in Ep).
        now rewrite Ep, Er.
      * rewrite list_lookup_insert_ne by assumption.
        now destruct (w_walks w !! q).
  - destruct (w_walks w !! q) as [wk'|] eqn:Eq; [|reflexivity].
    destruct (Nat.eqb_spec p q) as [->|_]; [congruence | reflexivity].
Qed.

Lemma readDir_cache (p : nat) (w : World) : w_cache (readL p w) = w_cache w.
Proof.
  unfold readDir. destruct (w_walks w !! p) as [wk|]; [|reflexivity].
  now destruct (walk_result wk).
Qed.

Lemma readDir_fs (p : nat) (w : World) : w_fs (readL p w) = w_fs w.
Proof.
  unfold readDir. destruct (w_walks w !! p) as [wk|]; [|reflexivity].
  now destruct (walk_result wk).
Qed.

(** The state after a settling. *)
Lemma settleWalk_walks (p q : nat) (w : World) :
  w_walks (settleWalk p w) !! q
  = match w_walks w !! q with
    | Some wk =>
        Some (if Nat.eqb p q && hasRead wk && negb (walk_settled wk)
              then mkWalk (walk_dir wk) (walk_result wk) true else wk)
    | None => None
    end.
Proof.
  unfold settleWalk, hasRead. destruct (w_walks w !! p) as [wk|] eqn:Ep.
  - destruct (walk_result wk) as [routes|] eqn:Er.
    + destruct (walk_settled wk) eqn:Es.
      * destruct (w_walks w !! q) as [wk'|] eqn:Eq; [|reflexivity].
        destruct (Nat.eqb_spec p q) as [->|_]; [|reflexivity].
        assert (wk' = wk) by congruence. subst wk'. now rewrite Er, Es.
      * cbn [w_walks]. destruct (Nat.eqb_spec p q) as [<-|Hne].
        -- rewrite list_lookup_insert_eq by (now apply lookup_lt_Some in Ep).
           now rewrite Ep, Er, Es.
        -- rewrite list_lookup_insert_ne by assumption.
           now destruct (w_walks w !! q).
    + destruct (w_walks w !! q) as [wk'|] eqn:Eq; [|reflexivity].
      destruct (Nat.eqb_spec p q) as [->|_]; [|reflexivity].
      assert (wk' = wk) by congruence. subst wk'. now rewrite Er.
  - destruct (w_walks w !! q) as [wk'|] eqn:Eq; [|reflexivity].
    destruct (Nat.eqb_spec p q) as [->|_]; [congruence | reflexivity].
Qed.

Lemma settleWalk_cache (p : nat) (w : World) (d : string) :
  w_cache (settleWalk p w) !! d
  = match w_walks w !! p with
    | Some wk =>
        match walk_result wk with
        | Some routes =>
            if negb (walk_settled wk) && String.eqb (walk_dir wk) d
            then Some (mkCacheEntry routes p) else w_cache w !! d
        | None => w_cache w !! d
        end
    | None => w_cache w !! d
    end.
Proof.
  unfold settleWalk. destruct (w_walks w !! p) as [wk|]; [|reflexivity].
  destruct (walk_result wk) as [routes|]; [|reflexivity].
  destruct (walk_settled wk); [reflexivity|]. cbn [w_cache negb andb].
  destruct (String.eqb_spec (walk_dir wk) d) as [->|Hne].
  - apply lookup_insert_eq.
  - now apply lookup_insert_ne.
Qed.

Lemma settleWalk_fs (p : nat) (w : World) : w_fs (settleWalk p w) = w_fs w.
Proof.
  unfold settleWalk. destruct (w_walks w !! p) as [wk|]; [|reflexivity].
  destruct (walk_result wk); [|reflexivity]. now destruct (walk_settled wk).
Qed.

(** A call: either the cached promise, or a new walk. *)
Lemma scanRoutes_cases (d : string) (w : World) :
  (exists e, w_cache w !! d = Some e /\ scanRoutes d w = (ce_promise e, w))
  \/ (w_cache w !! d = None
      /\ scanRoutes d w
         = (length (w_walks w),
            mkWorld (w_fs w) (<[d := mkCacheEntry [] (length (w_walks w))]> (w_cache w))
              (w_walks w ++ [mkWalk d None false]))).
Proof.
  unfold scanRoutes. destruct (w_cache w !! d) as [e|]; [left; eauto | right; auto].
Qed.

(** The walks after a call. *)
Lemma scanRoutes_walks (d : string) (w : World) (q : nat) (wk : Walk) :
  w_walks (snd (scanRoutes d w)) !! q = Some wk ->
  w_walks w !! q = Some wk
  \/ (w_cache w !! d = None /\ q = length (w_walks w) /\ wk = mkWalk d None false).
Proof.
  destruct (scanRoutes_cases d w) as [(e & _ & ->)|(Hnone & ->)]; [now left|].
  cbn [snd w_walks]. intros Hq.
  destruct (decide (q < length (w_walks w))%nat) as [Hlt|Hge].
  - rewrite lookup_app_l in Hq by assumption. now left.
  - rewrite lookup_app_r in Hq by lia. right.
    destruct (q - length (w_walks w))%nat as [|n] eqn:E; [|now destruct n].
    injection Hq as <-. split; [assumption|]. split; [lia | reflexivity].
Qed.

(** Walks are never removed and keep their directory; a walk reads
    once. *)
Lemma step_walkOf (w : World) (e : Event) (p : nat) (d : string)
    (r : option (list Route)) :
  walkOf w p = Some (d, r) ->
  (reads p e = false \/ r <> None) ->
  walkOf (snd (stepL w e)) p = Some (d, r).
Proof.
  unfold walkOf. intros H Hr. destruct e as [d'|q|q|d'|d' files]; cbn [step snd].
  - destruct (scanRoutes_cases d' w) as [(e & _ & ->)|(_ & ->)]; [assumption|].
    cbn [snd w_walks]. rewrite lookup_app_l; [assumption|].
    destruct (w_walks w !! p) eqn:E; [now apply lookup_lt_Some in E | discriminate].
  - rewrite readDir_walks. destruct (w_walks w !! p) as [wk|]; [|discriminate].
    cbn in H. injection H as Hd Hres. cbn [reads] in Hr. unfold hasRead. rewrite Hres.
    destruct (Nat.eqb q p); cbn [andb fmap option_fmap option_map].
    + destruct r; cbn [negb]; [now rewrite Hd, Hres|]. now destruct Hr.
    + now rewrite Hd, Hres.
  - rewrite settleWalk_walks. destruct (w_walks w !! p) as [wk|]; [|discriminate].
    cbn in *. now destruct (Nat.eqb q p && hasRead wk && negb (walk_settled wk))%bool.
  - assumption.
  - assumption.
Qed.

Lemma step_walk_dir (w : World) (e : Event) (p : nat) (d : string)
    (r : option (list Route)) :
  walkOf w p = Some (d, r) -> exists r', walkOf (snd (stepL w e)) p = Some (d, r').
Proof.
  intros H. destruct (reads p e) eqn:E.
  - destruct e as [d'|q|q|d'|d' files]; try discriminate. cbn [step snd].
    unfold walkOf in *. rewrite readDir_walks.
    destruct (w_walks w !! p) as [wk|]; [|discriminate]. cbn in H. injection H as Hd _.
    destruct (Nat.eqb q p && negb (hasRead wk))%bool; cbn; rewrite Hd; eauto.
  - exists r. apply step_walkOf; auto.
Qed.

Lemma run_walkOf (w : World) (es : list Event) (p : nat) (d : string)
    (r : option (list Route)) :
  walkOf w p = Some (d, r) ->
  (forallb (fun e => negb (reads p e)) es = true \/ r <> None) ->
  walkOf (snd (runL w es)) p = Some (d, r).
Proof.
  revert w. induction es as [|e es IH]; intros w H Hr; [assumption|].
  rewrite run_cons. cbn [snd]. apply IH.
  - apply step_walkOf; [assumption|]. destruct Hr as [Hr|Hr]; [left | now right].
    cbn [forallb] in Hr. apply andb_true_iff in Hr as [Hr _]. now apply negb_true_iff.
  - destruct Hr as [Hr|Hr]; [left | now right].
    cbn [forallb] in Hr. now apply andb_true_iff in Hr as [_ Hr].
Qed.

Lemma run_walk_dir (w : World) (es : list Event) (p : nat) (d : string)
    (r : option (list Route)) :
  walkOf w p = Some (d, r) -> exists r', walkOf (snd (runL w es)) p = Some (d, r').
Proof.
  revert w r. induction es as [|e es IH]; intros w r H; [eauto|].
  rewrite run_cons. cbn [snd].
  destruct (step_walk_dir w e p d r H) as [r' H']. eauto.
Qed.

(** *** The cache names walks of the right directory *)

Lemma step_cacheOK (w : World) (e : Event) : cacheOK w -> cacheOK (snd (stepL w e)).
Proof.
  intros Hok. destruct e as [d|q|q|d|d files]; cbn [step snd].
  - destruct (scanRoutes_cases d w) as [(e & _ & ->)|(Hnone & ->)]; [assumption|].
    cbn [snd]. intros d' e'. cbn [w_cache w_walks].
    destruct (decide (d = d')) as [<-|Hne].
    + rewrite lookup_insert_eq. intros [= <-]. cbn [ce_promise ce_routes].
      rewrite lookup_app_r by reflexivity. rewrite Nat.sub_diag.
      eexists. split; [reflexivity|]. split; reflexivity.
    + rewrite lookup_insert_ne by assumption. intros He'.
      destruct (Hok d' e' He') as (wk & Hwk & Hrest). exists wk.
      split; [|assumption]. rewrite lookup_app_l; [assumption|].
      now apply lookup_lt_Some in Hwk.
  - intros d' e'. rewrite readDir_cache. intros He'.
    destruct (Hok d' e' He') as (wk & Hwk & Hd & Hr).
    rewrite readDir_walks, Hwk. eexists. split; [reflexivity|].
    destruct (Nat.eqb q (ce_promise e') && negb (hasRead wk))%bool eqn:Eb; [|now split].
    cbn [walk_dir walk_settled]. split; [assumption|].
    apply andb_true_iff in Eb as [_ Eb]. apply negb_true_iff in Eb. unfold hasRead in Eb.
    rewrite Hr. destruct (walk_result wk); [discriminate|]. now destruct (walk_settled wk).
  - intros d' e'. rewrite settleWalk_cache.
    assert (Hsame : forall wk', w_walks w !! ce_promise e' = Some wk' ->
              (Nat.eqb q (ce_promise e') && hasRead wk' && negb (walk_settled wk'))%bool
              = false ->
              w_walks (settleWalk q w) !! ce_promise e' = Some wk').
    { intros wk' Hwk' Hb. now rewrite settleWalk_walks, Hwk', Hb. }
    assert (Hkeep : w_cache w !! d' = Some e' ->
              (forall wk, w_walks w !! q = Some wk -> q = ce_promise e' ->
                 hasRead wk && negb (walk_settled wk) = false) ->
              exists wk0, w_walks (settleWalk q w) !! ce_promise e' = Some wk0
                /\ walk_dir wk0 = d'
                /\ ce_routes e' = if walk_settled wk0 then default [] (walk_result wk0)
                                 else []).
    { intros He' Hq. destruct (Hok d' e' He') as (wk' & Hwk' & Hd & Hr).
      exists wk'. split; [|auto]. apply Hsame; [assumption|].
      destruct (Nat.eqb_spec q (ce_promise e')) as [E|_]; [|reflexivity].
      cbn [andb]. apply (Hq wk'); congruence. }
    destruct (w_walks w !! q) as [wk|] eqn:Eq; [|intros He'; apply Hkeep; [assumption|]; congruence].
    destruct (walk_result wk) as [routes|] eqn:Er.
    + destruct (walk_settled wk) eqn:Es; cbn [negb andb].
      * intros He'. apply Hkeep; [assumption|]. intros wk0 [= <-] _.
        rewrite Es. apply andb_false_r.
      * destruct (String.eqb_spec (walk_dir wk) d') as [Ed|Hne].
        -- intros [= <-]. cbn [ce_promise ce_routes]. rewrite settleWalk_walks, Eq.
           unfold hasRead. rewrite Nat.eqb_refl, Er, Es. cbn [andb negb].
           eexists. split; [reflexivity|]. split; [assumption | reflexivity].
        -- intros He'. destruct (Hok d' e' He') as (wk' & Hwk' & Hd & Hr).
           exists wk'. split; [|auto]. apply Hsame; [assumption|].
           destruct (Nat.eqb_spec q (ce_promise e')) as [E|_]; [|reflexivity].
           assert (wk' = wk) by congruence. subst wk'. contradiction.
    + intros He'. apply Hkeep; [assumption|]. intros wk0 [= <-] _.
      unfold hasRead. now rewrite Er.
  - intros d' e'. cbn [invalidateRouteCache w_cache w_walks]. intros He'.
    apply lookup_delete_Some in He' as [_ He']. now apply Hok.
  - exact Hok.
Qed.

Lemma run_cacheOK (w : World) (es : list Event) : cacheOK w -> cacheOK (snd (runL w es)).
Proof.
  revert w. induction es as [|e es IH]; intros w H; [assumption|].
  rewrite run_cons. cbn [snd]. apply IH. now apply step_cacheOK.
Qed.

Lemma initial_cacheOK (fs : FileSystem) : cacheOK (initialWorld fs).
Proof. intros d e H. cbn in H. now rewrite lookup_empty in H. Qed.

(** What a call returns. *)
Lemma step_call (w : World) (d : string) :
  cacheOK w ->
  exists p, fst (stepL w (CallScan d)) = Some p
    /\ exists r, walkOf (snd (stepL w (CallScan d))) p = Some (d, r).
Proof.
  intros Hok. cbn [step].
  destruct (scanRoutes_cases d w) as [(e & He & ->)|(Hnone & ->)]; cbn [fst snd].
  - exists (ce_promise e). split; [reflexivity|].
    destruct (Hok d e He) as (wk & Hwk & Hd & _). exists (walk_result wk).
    unfold walkOf. rewrite Hwk. cbn. now rewrite Hd.
  - eexists. split; [reflexivity|]. eexists. unfold walkOf. cbn [w_walks].
    rewrite lookup_app_r by reflexivity. rewrite Nat.sub_diag. reflexivity.
Qed.

Lemma step_other (w : World) (e : Event) :
  (forall d, e <> CallScan d) -> fst (stepL w e) = None.
Proof. destruct e; try reflexivity. intros H. now destruct (H pagesDir). Qed.

Lemma run_calls (w : World) (es : list Event) :
  cacheOK w ->
  Forall2 (fun d p => exists r, walkOf (snd (runL w es)) p = Some (d, r))
    (calledDirs es) (fst (runL w es)).
Proof.
  revert w. induction es as [|e es IH]; intros w Hok; [constructor|].
  rewrite run_cons. cbn [fst snd].
  specialize (IH _ (step_cacheOK w e Hok)).
  destruct e as [d|q|q|d|d files]; cbn [calledDirs]; try exact IH.
  destruct (step_call w d Hok) as (p & -> & r & Hp).
  constructor; [|exact IH]. now apply (run_walk_dir _ es p d r).
Qed.

(** *** Walks see the file system *)

Lemma step_scans (fs : FileSystem) (w : World) (e : Event) :
  isWriteFs e = false ->
  (w_fs w = fs /\ forall p d routes, walkOf w p = Some (d, Some routes) ->
                    routes = scanOf fs d) ->
  w_fs (snd (stepL w e)) = fs
  /\ forall p d routes, walkOf (snd (stepL w e)) p = Some (d, Some routes) ->
       routes = scanOf fs d.
Proof.
  intros He [Hfs Hall]. destruct e as [d|q|q|d|d files]; cbn [step snd];
    [| | | auto | discriminate].
  - destruct (scanRoutes_cases d w) as [(e & _ & ->)|(_ & ->)]; [auto|].
    cbn [snd w_fs]. split; [assumption|]. intros p d' routes. unfold walkOf. cbn [w_walks].
    destruct (decide (p < length (w_walks w))%nat) as [Hlt|Hge].
    + rewrite lookup_app_l by assumption. apply Hall.
    + rewrite lookup_app_r by lia.
      destruct (p - length (w_walks w))%nat as [|n]; [|now destruct n].
      cbn. discriminate.
  - split; [now rewrite readDir_fs|].
    intros p d routes. unfold walkOf. rewrite readDir_walks.
    specialize (Hall p d routes). unfold walkOf in Hall.
    destruct (w_walks w !! p) as [wk|]; [|discriminate].
    destruct (Nat.eqb q p && negb (hasRead wk))%bool; [|exact Hall].
    cbn. intros [= <- <-]. now rewrite Hfs.
  - split; [now rewrite settleWalk_fs|].
    intros p d routes. unfold walkOf. rewrite settleWalk_walks.
    specialize (Hall p d routes). unfold walkOf in Hall.
    destruct (w_walks w !! p) as [wk|]; [|discriminate].
    intros H. apply Hall. cbn in *.
    now destruct (Nat.eqb q p && hasRead wk && negb (walk_settled wk))%bool.
Qed.

(** A walk that reads and settles delivers the scan of its directory as
    it is then, or what it has read before. *)
Lemma walk_completes (w : World) (p : nat) (d : string) (r : option (list Route)) :
  walkOf w p = Some (d, r) ->
  promiseValue (settleWalk p (readL p w)) p
  = Some (default (scanOf (w_fs w) d) r).
Proof.
  unfold walkOf, promiseValue. rewrite settleWalk_walks, readDir_walks.
  destruct (w_walks w !! p) as [wk|]; [|discriminate].
  cbn [fmap option_fmap option_map]. intros [= <- <-].
  rewrite Nat.eqb_refl. cbn [andb]. unfold hasRead.
  destruct wk as [dir [routes|] []]; reflexivity.
Qed.

(** X15. What a call of [scanRoutes] returns, in any interleaving of
    calls, readings, settlings, invalidations and changes of the file
    system: the promise of a walk of the directory that was asked for.
    When the file system does not change during the run, every such
    promise is that of the scan of the directory: its walk has built
    that list if it has read the directory, the promise delivers that
    list once the walk has read and settled, and no promise delivers
    anything else. Answers from the cache are the answers a fresh scan
    would give. *)
Theorem scanRoutes_cache_transparent (fs : FileSystem) (es : list Event) :
  let promises := fst (runL (initialWorld fs) es) in
  let w := snd (runL (initialWorld fs) es) in
  Forall2 (fun d p => exists r, walkOf w p = Some (d, r)) (calledDirs es) promises
  /\ (forallb (fun e => negb (isWriteFs e)) es = true ->
      Forall2 (fun d p =>
                 (walkOf w p = Some (d, None)
                  \/ walkOf w p = Some (d, Some (scanOf fs d)))
                 /\ promiseValue (settleWalk p (readL p w)) p = Some (scanOf fs d))
        (calledDirs es) promises
      /\ forall p routes, promiseValue w p = Some routes ->
           exists d, walkOf w p = Some (d, Some routes)
                     /\ routes = scanOf fs d).
Proof.
  intros promises w.
  pose proof (run_calls (initialWorld fs) es (initial_cacheOK fs)) as Hcalls.
  fold promises w in Hcalls. split; [exact Hcalls|].
  intros Hno.
  assert (Hscans : w_fs w = fs
            /\ forall p d routes, walkOf w p = Some (d, Some routes) ->
                 routes = scanOf fs d).
  { subst w. clear Hcalls promises.
    assert (Hstart : w_fs (initialWorld fs) = fs
              /\ forall p d routes, walkOf (initialWorld fs) p = Some (d, Some routes) ->
                   routes = scanOf fs d).
    { split; [reflexivity|]. intros p d routes H. now destruct p. }
    revert Hstart. generalize (initialWorld fs).
    induction es as [|e es IH]; intros w0 Hstart; [apply Hstart|].
    cbn [forallb] in Hno. apply andb_true_iff in Hno as [He Hno].
    apply negb_true_iff in He. rewrite run_cons. cbn [snd].
    apply (IH Hno). now apply step_scans. }
  destruct Hscans as [Hfs Hscans]. split.
  - eapply Forall2_impl; [exact Hcalls|]. intros d p [r Hp]. cbn beta.
    rewrite (walk_completes w p d r Hp), Hfs. destruct r as [routes|].
    + rewrite (Hscans p d routes Hp) in Hp |- *. split; [now right | reflexivity].
    + split; [now left | reflexivity].
  - intros p routes Hv. unfold promiseValue in Hv.
    destruct (w_walks w !! p) as [wk|] eqn:Ep; [|discriminate].
    destruct (walk_settled wk); [|discriminate].
    exists (walk_dir wk).
    assert (Hp : walkOf w p = Some (walk_dir wk, Some routes))
      by (unfold walkOf; rewrite Ep; cbn; now rewrite Hv).
    split; [assumption | exact (Hscans p _ _ Hp)].
Qed.

(** *** Without invalidation: one walk for each directory *)

Lemma step_walksCached (w : World) (e : Event) :
  isInvalidate e = false -> walksCached w -> walksCached (snd (stepL w e)).
Proof.
  intros He Hwc. destruct e as [d|q|q|d|d files]; cbn [step snd];
    [| | |discriminate|exact Hwc].
  - destruct (scanRoutes_cases d w) as [(e & _ & ->)|(Hnone & ->)]; [assumption|].
    cbn [snd]. intros p wk. cbn [w_walks w_cache].
    destruct (decide (p < length (w_walks w))%nat) as [Hlt|Hge].
    + rewrite lookup_app_l by assumption. intros Hp.
      destruct (Hwc p wk Hp) as (e & He' & Hpe). exists e. split; [|assumption].
      rewrite lookup_insert_ne; [assumption|]. intros Ed. rewrite Ed in Hnone. congruence.
    + rewrite lookup_app_r by lia.
      destruct (p - length (w_walks w))%nat as [|n] eqn:E; [|now destruct n].
      intros [= <-]. cbn [walk_dir]. rewrite lookup_insert_eq.
      eexists. split; [reflexivity|]. cbn [ce_promise]. lia.
  - intros p wk'. rewrite readDir_walks, readDir_cache.
    destruct (w_walks w !! p) as [wk0|] eqn:Ep; [|discriminate].
    intros [= <-].
    assert (Hdir : walk_dir (if (Nat.eqb q p && negb (hasRead wk0))%bool
                             then mkWalk (walk_dir wk0)
                                    (Some (scanOf (w_fs w) (walk_dir wk0))) false
                             else wk0)
                   = walk_dir wk0) by (now destruct (_ && _)%bool).
    rewrite Hdir. exact (Hwc p wk0 Ep).
  - intros p wk'. rewrite settleWalk_walks.
    destruct (w_walks w !! p) as [wk0|] eqn:Ep; [|discriminate].
    intros [= <-].
    assert (Hdir : walk_dir (if (Nat.eqb q p && hasRead wk0 && negb (walk_settled wk0))%bool
                             then mkWalk (walk_dir wk0) (walk_result wk0) true else wk0)
                   = walk_dir wk0) by (now destruct (_ && _)%bool).
    rewrite Hdir. rewrite settleWalk_cache.
    destruct (Hwc p wk0 Ep) as (e0 & He0 & Hp0).
    destruct (w_walks w !! q) as [wk|] eqn:Eq; [|eauto].
    destruct (walk_result wk) as [routes|]; [|eauto].
    destruct (walk_settled wk); cbn [negb andb]; [eauto|].
    destruct (String.eqb_spec (walk_dir wk) (walk_dir wk0)) as [Ed|_]; [|eauto].
    destruct (Hwc q wk Eq) as (e1 & He1 & Hp1). rewrite Ed in He1.
    eexists. split; [reflexivity|]. cbn [ce_promise]. congruence.
Qed.

Lemma initial_walksCached (fs : FileSystem) : walksCached (initialWorld fs).
Proof. intros p wk H. now destruct p. Qed.

Lemma run_walksCached (w : World) (es : list Event) :
  forallb (fun e => negb (isInvalidate e)) es = true ->
  walksCached w -> walksCached (snd (runL w es)).
Proof.
  revert w. induction es as [|e es IH]; intros w Hno H; [assumption|].
  cbn [forallb] in Hno. apply andb_true_iff in Hno as [He Hno].
  apply negb_true_iff in He. rewrite run_cons. cbn [snd].
  apply IH; [assumption|]. now apply step_walksCached.
Qed.

(** X16. Without an invalidation, a directory is walked once: in any
    run of calls, readings, settlings and changes of the file system
    that starts with an empty cache, no two walks are of the same
    directory, and all calls for a directory return one and the same
    promise. *)
Theorem scanRoutes_one_walk_per_directory (fs : FileSystem) (es : list Event) :
  forallb (fun e => negb (isInvalidate e)) es = true ->
  let promises := fst (runL (initialWorld fs) es) in
  let w := snd (runL (initialWorld fs) es) in
  NoDup (walk_dir <$> w_walks w)
  /\ forall i j d, calledDirs es !! i = Some d -> calledDirs es !! j = Some d ->
       is_Some (promises !! i) /\ promises !! i = promises !! j.
Proof.
  intros Hno promises w.
  pose proof (run_walksCached _ es Hno (initial_walksCached fs)) as Hwc. fold w in Hwc.
  pose proof (run_calls (initialWorld fs) es (initial_cacheOK fs)) as Hcalls.
  fold promises w in Hcalls.
  assert (Huniq : forall p q wk wk', w_walks w !! p = Some wk -> w_walks w !! q = Some wk' ->
            walk_dir wk = walk_dir wk' -> p = q).
  { intros p q wk wk' Hp Hq Hd.
    destruct (Hwc p wk Hp) as (e & He & <-). destruct (Hwc q wk' Hq) as (e' & He' & <-).
    congruence. }
  split.
  - apply NoDup_alt. intros p q d. rewrite !list_lookup_fmap.
    destruct (w_walks w !! p) as [wk|] eqn:Ep; [|discriminate].
    destruct (w_walks w !! q) as [wk'|] eqn:Eq; [|discriminate].
    cbn. intros [= Hd] [= Hd']. eapply Huniq; eauto. congruence.
  - intros i j d Hi Hj.
    destruct (Forall2_lookup_l _ _ _ _ _ Hcalls Hi) as (p & Hp & routes & Hwp).
    destruct (Forall2_lookup_l _ _ _ _ _ Hcalls Hj) as (q & Hq & routes' & Hwq).
    rewrite Hp, Hq. split; [eauto|]. f_equal. unfold walkOf in Hwp, Hwq.
    destruct (w_walks w !! p) as [wk|] eqn:Ep; [|discriminate].
    destruct (w_walks w !! q) as [wk'|] eqn:Eq; [|discriminate].
    cbn in Hwp, Hwq. eapply Huniq; eauto. congruence.
Qed.

(** *** After an invalidation *)

Lemma step_freshFor (d : string) (p : nat) (r : option (list Route)) (w : World)
    (e : Event) :
  invalidates d e = false -> (reads p e = false \/ r <> None) ->
  freshFor d p r w -> freshFor d p r (snd (stepL w e)).
Proof.
  intros He Hr (Hc & Hw & Hs).
  split; [|split; [now apply step_walkOf|]];
    destruct e as [d'|q|q|d'|d' files]; cbn [step snd]; try assumption.
  - destruct (scanRoutes_cases d' w) as [(e & _ & ->)|(Hnone & ->)]; [assumption|].
    cbn [snd w_cache]. destruct Hc as (e & Hce & Hpe). exists e. split; [|assumption].
    rewrite lookup_insert_ne; [assumption|]. intros Ed. rewrite Ed in Hnone. congruence.
  - now rewrite readDir_cache.
  - destruct Hc as (e & Hce & Hpe). rewrite settleWalk_cache.
    destruct (w_walks w !! q) as [wk|] eqn:Eq; [|eauto].
    destruct (walk_result wk) as [routes|] eqn:Er; [|eauto].
    destruct (walk_settled wk) eqn:Es; cbn [negb andb]; [eauto|].
    destruct (String.eqb_spec (walk_dir wk) d) as [Ed|_]; [|eauto].
    eexists. split; [reflexivity|]. cbn [ce_promise].
    destruct (decide (q = p)) as [|Hne]; [assumption|].
    pose proof (Hs q wk Eq Hne Ed) as Hdone. unfold walkDone in Hdone.
    rewrite Es, andb_false_r in Hdone. discriminate.
  - cbn [invalidates] in He. destruct Hc as (e & Hce & Hpe). exists e.
    split; [|assumption]. cbn [invalidateRouteCache w_cache].
    rewrite lookup_delete_ne; [assumption|]. intros Ed. rewrite Ed in He.
    now rewrite String.eqb_refl in He.
  - intros q wk Hq Hne Hd.
    assert (Hq' : w_walks (snd (scanRoutes d' w)) !! q = Some wk)
      by (destruct (scanRoutes d' w); exact Hq).
    destruct (scanRoutes_walks d' w q wk Hq') as [Hold|(Hnone & _ & ->)]; [eauto|].
    cbn [walk_dir] in Hd. subst d'. destruct Hc as (e & Hce & _). congruence.
  - intros q' wk'. rewrite readDir_walks.
    destruct (w_walks w !! q') as [wk0|] eqn:E0; [|discriminate].
    intros [= <-] Hne Hd.
    destruct (Nat.eqb q q' && negb (hasRead wk0))%bool eqn:Eb; [|eauto].
    cbn [walk_dir] in Hd. pose proof (Hs q' wk0 E0 Hne Hd) as Hdone.
    unfold walkDone in Hdone. apply andb_true_iff in Hdone as [Hread _].
    rewrite Hread, andb_false_r in Eb. discriminate.
  - intros q' wk'. rewrite settleWalk_walks.
    destruct (w_walks w !! q') as [wk0|] eqn:E0; [|discriminate].
    intros [= <-] Hne Hd.
    destruct (Nat.eqb q q' && hasRead wk0 && negb (walk_settled wk0))%bool eqn:Eb; [|eauto].
    cbn [walk_dir] in Hd. pose proof (Hs q' wk0 E0 Hne Hd) as Hdone.
    unfold walkDone in Hdone. apply andb_true_iff in Hdone as [_ Hset].
    rewrite Hset, andb_false_r in Eb. discriminate.
Qed.

Lemma run_freshFor (d : string) (p : nat) (r : option (list Route)) (w : World)
    (es : list Event) :
  forallb (fun e => negb (invalidates d e)) es = true ->
  (forallb (fun e => negb (reads p e)) es = true \/ r <> None) ->
  freshFor d p r w -> freshFor d p r (snd (runL w es)).
Proof.
  revert w. induction es as [|e es IH]; intros w Hno Hr H; [assumption|].
  cbn [forallb] in Hno. apply andb_true_iff in Hno as [He Hno].
  apply negb_true_iff in He. rewrite run_cons. cbn [snd].
  apply IH; [assumption| |].
  - destruct Hr as [Hr|Hr]; [left | now right].
    cbn [forallb] in Hr. now apply andb_true_iff in Hr as [_ Hr].
  - apply step_freshFor; [assumption| |assumption].
    destruct Hr as [Hr|Hr]; [left | now right].
    cbn [forallb] in Hr. apply andb_true_iff in Hr as [Hr _]. now apply negb_true_iff.
Qed.

(** The reading of the walk that the cache holds. *)
Lemma readDir_freshFor (d : string) (p : nat) (w : World) :
  freshFor d p None w -> freshFor d p (Some (scanOf (w_fs w) d)) (readL p w).
Proof.
  intros (Hc & Hw & Hs). unfold freshFor, walkOf in *. rewrite readDir_cache.
  split; [assumption|]. split.
  - rewrite readDir_walks. destruct (w_walks w !! p) as [wk|]; [|discriminate].
    cbn in Hw. injection Hw as Hd Hres. unfold hasRead. rewrite Nat.eqb_refl, Hres, Hd.
    reflexivity.
  - intros q wk'. rewrite readDir_walks.
    destruct (w_walks w !! q) as [wk0|] eqn:E0; [|discriminate].
    intros [= <-] Hne Hd. destruct (Nat.eqb_spec p q) as [E|_]; [congruence|].
    cbn [andb] in *. eauto.
Qed.

(** X17. An invalidation takes effect when no walk of the directory is
    in flight. The call that follows it starts a walk. Whatever calls,
    readings by other walks, settlings, changes of the file system and
    invalidations of other directories follow, a call for the directory
    returns the promise of that walk and starts no other, and the
    promise is pending. The walk reads the directory as it is when the
    walk comes to run, not as it was at the call; from then on, a call
    for the directory still returns that promise and starts no walk, and
    the promise delivers the routes of that reading and no others. *)
Theorem invalidate_refreshes (d : string) (w : World) (es1 es2 : list Event) :
  settledFor d w ->
  forallb (fun e => negb (invalidates d e)) (es1 ++ es2) = true ->
  let p := fst (scanRoutes d (invalidateRouteCache d w)) in
  let w1 := snd (scanRoutes d (invalidateRouteCache d w)) in
  forallb (fun e => negb (reads p e)) es1 = true ->
  let w2 := snd (runL w1 es1) in
  let w3 := snd (runL w1 (es1 ++ ReadDir p :: es2)) in
  let fresh := scanOf (w_fs w2) d in
  (* the walk is new *)
  p = length (w_walks w) /\ walkOf w1 p = Some (d, None)
  (* until it reads *)
  /\ scanRoutes d w2 = (p, w2)
  /\ walkOf w2 p = Some (d, None)
  /\ promiseValue w2 p = None
  (* from then on *)
  /\ scanRoutes d w3 = (p, w3)
  /\ walkOf w3 p = Some (d, Some fresh)
  /\ (forall routes, promiseValue w3 p = Some routes -> routes = fresh)
  /\ promiseValue (settleWalk p w3) p = Some fresh.
Proof.
  intros Hsettled Hno p w1 Hunread w2 w3 fresh.
  rewrite forallb_app in Hno. apply andb_true_iff in Hno as [Hno1 Hno2].
  assert (Hp : p = length (w_walks w)).
  { subst p. unfold scanRoutes. now rewrite invalidate_removes. }
  assert (Hstart : freshFor d p None w1).
  { subst p w1. unfold freshFor, walkOf, scanRoutes. rewrite invalidate_removes.
    cbn [fst snd invalidateRouteCache w_walks w_fs w_cache]. split; [|split].
    - eexists. split; [apply lookup_insert_eq | reflexivity].
    - rewrite lookup_app_r by reflexivity. now rewrite Nat.sub_diag.
    - intros q wk Hq Hne Hd.
      destruct (decide (q < length (w_walks w))%nat) as [Hlt|Hge].
      + rewrite lookup_app_l in Hq by assumption. eauto.
      + rewrite lookup_app_r in Hq by lia.
        destruct (q - length (w_walks w))%nat as [|n] eqn:E; [lia | now destruct n]. }
  pose proof (run_freshFor d p None w1 es1 Hno1 (or_introl Hunread) Hstart) as Hmid.
  fold w2 in Hmid.
  assert (Hend : freshFor d p (Some fresh) w3).
  { subst w3. rewrite run_app, run_cons. cbn [snd step]. fold w2.
    apply run_freshFor; [assumption | now right |]. now apply readDir_freshFor. }
  split; [assumption|]. split; [apply Hstart|].
  destruct Hmid as ((e & He & Hpe) & Hw & _).
  destruct Hend as ((e' & He' & Hpe') & Hw' & _).
  split; [now rewrite (scanRoutes_cached d w2 e He), Hpe|].
  split; [assumption|]. split.
  { unfold walkOf in Hw. unfold promiseValue.
    destruct (w_walks w2 !! p) as [wk|]; [|reflexivity].
    cbn in Hw. injection Hw as _ Hres. rewrite Hres. now destruct (walk_settled wk). }
  split; [now rewrite (scanRoutes_cached d w3 e' He'), Hpe'|].
  split; [assumption|].
  unfold walkOf in Hw'. destruct (w_walks w3 !! p) as [wk|] eqn:Ep; [|discriminate].
  cbn in Hw'. injection Hw' as Hd Hr. split.
  - intros routes. unfold promiseValue. rewrite Ep.
    destruct (walk_settled wk); [|discriminate]. congruence.
  - unfold promiseValue. rewrite settleWalk_walks, Ep, Nat.eqb_refl. unfold hasRead.
    rewrite Hr. cbn [andb].
    destruct (walk_settled wk) eqn:Es; cbn [negb walk_settled walk_result];
      [rewrite Es|]; congruence.
Qed.

End CacheRuns.

(** Two calls around an invalidation, with the walks read and settled. *)
Lemma scanRoutes_cache_transparent_witness :
  let fs := pagesOf ["about.vue"; "[id].vue"] in
  let es := [CallScan "/app/pages"; Invalidate "/app/pages"; CallScan "/app/pages";
             ReadDir 1; Settle 1; Settle 0] in
  fst (run codeCompare (initialWorld fs) es) = [0; 1]%nat
  /\ Forall2 (fun d p =>
                (walkOf (snd (run codeCompare (initialWorld fs) es)) p = Some (d, None)
                 \/ walkOf (snd (run codeCompare (initialWorld fs) es)) p
                    = Some (d, Some (scanPageRoutes codeCompare fs d)))
                /\ promiseValue
                     (settleWalk p (readDir codeCompare p
                                      (snd (run codeCompare (initialWorld fs) es)))) p
                   = Some (scanPageRoutes codeCompare fs d))
       ["/app/pages"; "/app/pages"] [0; 1]%nat.
Proof.
  intros fs es.
  pose proof (scanRoutes_cache_transparent codeCompare fs es) as [_ H].
  split; [vm_compute; reflexivity|].
  exact (proj1 (H eq_refl)).
Defined.

(** Calls for two directories, the first one asked for twice. *)
Lemma scanRoutes_one_walk_per_directory_witness :
  let es := [CallScan "/app/pages"; CallScan "/srv/pages"; ReadDir 0; Settle 0;
             CallScan "/app/pages"] in
  fst (run codeCompare (initialWorld (pagesOf ["about.vue"])) es) = [0; 1; 0]%nat
  /\ fst (run codeCompare (initialWorld (pagesOf ["about.vue"])) es) !! 0%nat
     = fst (run codeCompare (initialWorld (pagesOf ["about.vue"])) es) !! 2%nat.
Proof.
  intros es. split; [vm_compute; reflexivity|].
  exact (proj2 (proj2 (scanRoutes_one_walk_per_directory codeCompare
                         (pagesOf ["about.vue"]) es eq_refl)
                  0%nat 2%nat "/app/pages" eq_refl eq_refl)).
Defined.

(** The first scan has settled; the directory is invalidated and scanned
    again, and a page is added before the new walk reads the directory. *)
Lemma invalidate_refreshes_witness :
  let d := "/app/pages" in
  let w := snd (run codeCompare (initialWorld (pagesOf ["about.vue"]))
                  [CallScan d; ReadDir 0; Settle 0]) in
  let w1 := snd (scanRoutes d (invalidateRouteCache d w)) in
  let es1 := [WriteFs d (Some ["about.vue"; "[id].vue"]); CallScan d] in
  let es2 := [Settle 1; CallScan d] in
  let w3 := snd (run codeCompare w1 (es1 ++ ReadDir 1 :: es2)) in
  map pattern <$> promiseValue w3 1 = Some ["/about"; "/:id"]
  /\ scanRoutes d w3 = (1%nat, w3).
Proof.
  intros d w w1 es1 es2 w3.
  assert (Hsettled : settledFor d w).
  { intros q wk Hq _. destruct q as [|q]; [|now destruct q].
    vm_compute in Hq. now injection Hq as <-. }
  pose proof (invalidate_refreshes codeCompare d w es1 es2 Hsettled eq_refl eq_refl)
    as (_ & _ & _ & _ & _ & Hcall & _).
  split; [vm_compute; reflexivity | exact Hcall].
Defined.

(** ** The parameters of a page and the names a match binds *)

Lemma matchPatternLoop_keys (pats parts_url : list string) (n i : nat)
    (acc ps : gmap string ParamValue) :
  matchPatternLoop n i pats parts_url acc = Some ps ->
  (forall k, is_Some (ps !! k) -> is_Some (acc !! k) \/ k ∈ omap boundName pats)
  /\ (forall k, is_Some (acc !! k) -> is_Some (ps !! k))
  /\ (catchAllLast pats -> forall k, k ∈ omap boundName pats -> is_Some (ps !! k)).
Proof.
  revert i acc. induction pats as [|seg rest IH]; intros i acc Hm.
  - cbn [matchPatternLoop] in Hm. destruct (Nat.eqb _ n); [|discriminate].
    injection Hm as <-. split; [auto|]. split; [auto|].
    intros _ k Hk. now apply elem_of_nil in Hk.
  - cbn [matchPatternLoop] in Hm. cbn [omap list_omap catchAllLast].
    assert (Hins : forall name v, isCatchAll seg = true -> ps = <[name := v]> acc ->
              (forall k, is_Some (ps !! k) ->
                 is_Some (acc !! k) \/ k ∈ name :: omap boundName rest)
              /\ (forall k, is_Some (acc !! k) -> is_Some (ps !! k))
              /\ ((isCatchAll seg = true -> rest = []) /\ catchAllLast rest ->
                  forall k, k ∈ name :: omap boundName rest -> is_Some (ps !! k))).
    { intros name v Hc ->. split; [|split].
      - intros k. destruct (decide (k = name)) as [->|Hne].
        + intros _. right. apply list_elem_of_here.
        + rewrite lookup_insert_ne by congruence. now left.
      - intros k Hk. destruct (decide (k = name)) as [->|Hne].
        + rewrite lookup_insert_eq. eauto.
        + now rewrite lookup_insert_ne by congruence.
      - intros [Hend _] k. rewrite (Hend Hc). cbn [omap list_omap].
        intros Hk. apply list_elem_of_singleton in Hk as ->.
        rewrite lookup_insert_eq. eauto. }
    assert (Hrec : forall acc' name, matchPatternLoop n (S i) rest parts_url acc' = Some ps ->
              (forall k, is_Some (acc' !! k) <-> is_Some (acc !! k) \/ k ∈ name) ->
              (forall k, is_Some (ps !! k) ->
                 is_Some (acc !! k) \/ k ∈ name ++ omap boundName rest)
              /\ (forall k, is_Some (acc !! k) -> is_Some (ps !! k))
              /\ ((isCatchAll seg = true -> rest = []) /\ catchAllLast rest ->
                  forall k, k ∈ name ++ omap boundName rest -> is_Some (ps !! k))).
    { intros acc' name Hm' Hacc. destruct (IH _ _ Hm') as (H1 & H2 & H3). split; [|split].
      - intros k Hk. rewrite elem_of_app. destruct (H1 k Hk) as [Ha|Hr]; [|auto].
        apply Hacc in Ha. tauto.
      - intros k Hk. apply H2, Hacc. now left.
      - intros [_ Hlast] k. rewrite elem_of_app. intros [Hk|Hk]; [|now apply H3].
        apply H2, Hacc. now right. }
    destruct (Str.endsWith "+" seg) eqn:Eplus.
    { assert (Hc : isCatchAll seg = true) by (unfold isCatchAll; now rewrite Eplus).
      assert (Hb : boundName seg = Some (Str.slice1m1 seg))
        by (unfold boundName; now rewrite Hc).
      rewrite Hb. destruct (drop i parts_url); [discriminate|]. injection Hm as Hps.
      exact (Hins _ _ Hc (eq_sym Hps)). }
    destruct (Str.endsWith "*" seg) eqn:Estar.
    { assert (Hc : isCatchAll seg = true)
        by (unfold isCatchAll; rewrite Estar; apply orb_true_r).
      assert (Hb : boundName seg = Some (Str.slice1m1 seg))
        by (unfold boundName; now rewrite Hc).
      rewrite Hb. injection Hm as Hps. exact (Hins _ _ Hc (eq_sym Hps)). }
    assert (Hc : isCatchAll seg = false) by (unfold isCatchAll; now rewrite Eplus, Estar).
    destruct (Str.startsWith ":" seg) eqn:Ecolon.
    + assert (Hb : boundName seg = Some (Str.drop 1 seg))
        by (unfold boundName; now rewrite Hc, Ecolon).
      rewrite Hb. destruct (parts_url !! i) as [u|]; [|discriminate].
      apply (Hrec _ [Str.drop 1 seg] Hm). intros k.
      rewrite list_elem_of_singleton. destruct (decide (k = Str.drop 1 seg)) as [->|Hne].
      * rewrite lookup_insert_eq. split; eauto.
      * rewrite lookup_insert_ne by congruence. tauto.
    + assert (Hb : boundName seg = None) by (unfold boundName; now rewrite Hc, Ecolon).
      rewrite Hb. destruct (parts_url !! i) as [u|]; [|discriminate].
      destruct (String.eqb u seg); [|discriminate].
      apply (Hrec _ [] Hm). intros k. rewrite elem_of_nil. tauto.
Qed.

(** The token and the name of a segment of a page path. *)
Lemma pageSegment_token (seg : string) :
  pageSegment seg ->
  Str.includes "/" seg = false
  /\ urlSegment (fst (pageSegmentToUrl seg))
  /\ boundName (fst (pageSegmentToUrl seg)) = snd (pageSegmentToUrl seg)
  /\ (forall name, snd (pageSegmentToUrl seg) = Some name -> Str.isWord name = true).
Proof.
  intros [(Hne & Hs & Hp & Hl)|(name & W & Hseg)].
  - rewrite (pageSegmentToUrl_plain seg Hp). cbn [fst snd].
    split; [assumption|]. split; [now split|]. split; [|discriminate].
    unfold boundName, isCatchAll.
    now destruct (literalSegment_tests seg Hl) as (-> & -> & ->).
  - destruct (brackets_no_slash name W) as (Hb1 & Hb2 & Hb3).
    destruct (token_dynamic name W) as (Hd1 & Hd2 & Hd3 & Hd4 & Hd5).
    destruct (token_catch_all name W) as (Hc1 & _ & Hc3 & Hc4).
    destruct (token_optional name W) as (Ho1 & Ho2 & Ho3 & Ho4).
    unfold boundName, isCatchAll.
    destruct Hseg as [->|[->| ->]].
    + rewrite (pageSegmentToUrl_dynamic name W). cbn [fst snd].
      rewrite Hd1, Hd2, Hd3, Hd4. repeat split; try assumption; try apply Hd5. congruence.
    + rewrite (pageSegmentToUrl_catch_all name W). cbn [fst snd].
      rewrite Hc1, Hc3. repeat split; try assumption; try apply Hc4. congruence.
    + rewrite (pageSegmentToUrl_optional name W). cbn [fst snd].
      rewrite Ho1, Ho2, Ho3. repeat split; try assumption; try apply Ho4. congruence.
Qed.

Lemma mapPageSegments_names (segs ps : list string) (d : bool) :
  Forall pageSegment segs ->
  let toks := fst (fst (mapPageSegments segs ps d)) in
  snd (fst (mapPageSegments segs ps d)) = ps ++ omap boundName toks
  /\ Forall urlSegment toks
  /\ (snd (mapPageSegments segs ps d) = true <-> d = true \/ omap boundName toks <> [])
  /\ (Forall (fun n => Str.isWord n = true) ps ->
      Forall (fun n => Str.isWord n = true) (snd (fst (mapPageSegments segs ps d)))).
Proof.
  intros H. revert ps d. induction H as [|seg segs Hseg _ IH]; intros ps d toks.
  - subst toks. cbn. rewrite app_nil_r. split; [reflexivity|]. split; [constructor|].
    split; [|auto]. split; [now left | now intros [?|?]].
  - subst toks. cbn [mapPageSegments].
    destruct (pageSegment_token seg Hseg) as (_ & Hu & Hb & Hw).
    destruct (pageSegmentToUrl seg) as [tok [name|]]; cbn [fst snd] in Hu, Hb, Hw.
    + specialize (IH (ps ++ [name]) true).
      destruct (mapPageSegments segs (ps ++ [name]) true) as [[toks ps'] d'].
      cbn [fst snd] in *. destruct IH as (E & Hall & Hd & Hwords).
      cbn [omap list_omap]. rewrite Hb.
      split; [now rewrite E, <- app_assoc|]. split; [now constructor|].
      split; [split; [intros _; right; discriminate | intros _; apply Hd; now left]|].
      intros Hps. apply Hwords. apply Forall_app. split; [assumption|].
      constructor; [now apply Hw | constructor].
    + specialize (IH ps d).
      destruct (mapPageSegments segs ps d) as [[toks ps'] d'].
      cbn [fst snd] in *. destruct IH as (E & Hall & Hd & Hwords).
      cbn [omap list_omap]. rewrite Hb.
      split; [assumption|]. split; [now constructor|]. split; assumption.
Qed.

Lemma Forall_removelast {A : Type} (P : A -> Prop) (l : list A) :
  Forall P l -> Forall P (removelast l).
Proof.
  induction 1 as [|x l Hx Hl IH]; [constructor|].
  destruct l as [|y l]; [constructor|]. cbn [removelast] in *. now constructor.
Qed.

(** X18. The fields of a page and the matcher agree. For a page file
    whose path is made of plain names and bracket forms, [params] lists,
    in order, the names that the matcher reads off the segments of the
    derived pattern, every one a word, and [isDynamic] says whether there
    is any. A match of the pattern binds no name outside [params], and
    binds every name of [params] when a catch-all, if there is one, ends
    the pattern. *)
Theorem page_params_are_the_bound_names (segs : list string) (ext : string) :
  segs <> [] -> Forall pageSegment segs -> ext ∈ PAGE_EXTENSIONS ->
  let fields := fileToFields (Str.join "/" segs +:+ ext) in
  let pat := fst (fst fields) in
  let names := snd fields in
  names = omap boundName (Str.segments pat)
  /\ (snd (fst fields) = true <-> names <> [])
  /\ Forall (fun n => Str.isWord n = true) names
  /\ forall url m, matchPattern url pat = Some m ->
       (forall k, is_Some (m !! k) -> k ∈ names)
       /\ (catchAllLast (Str.segments pat) -> forall k, k ∈ names -> is_Some (m !! k)).
Proof.
  intros Hne Hsegs Hext fields pat names.
  assert (Hslash : Forall (fun s => Str.includes "/" s = false) segs).
  { eapply Forall_impl; [exact Hsegs|]. intros s Hs. now apply pageSegment_token in Hs. }
  assert (Hfields : fields
            = let '(toks, ps, d) :=
                mapPageSegments
                  (if String.eqb (lastOf segs) "index" then removelast segs else segs)
                  [] false in
              ("/" +:+ Str.join "/" toks, d, ps))
    by (subst fields; now apply fileToFields_segments).
  assert (Hsegs' : Forall pageSegment
            (if String.eqb (lastOf segs) "index" then removelast segs else segs))
    by (destruct (String.eqb _ _); [now apply Forall_removelast | assumption]).
  pose proof (mapPageSegments_names _ [] false Hsegs') as (Hnames & Hurl & Hdyn & Hwords).
  destruct (mapPageSegments _ [] false) as [[toks ps] d]. cbn [fst snd app] in *.
  subst pat names. rewrite Hfields. cbn [fst snd].
  rewrite (segments_join toks Hurl).
  split; [assumption|]. split.
  { rewrite Hdyn, Hnames. split; [now intros [?|?] | now right]. }
  split; [now apply Hwords|].
  intros url m Hm. unfold matchPattern in Hm. rewrite (segments_join toks Hurl) in Hm.
  destruct (matchPatternLoop_keys _ _ _ _ _ _ Hm) as (H1 & _ & H3). rewrite Hnames. split.
  - intros k Hk. destruct (H1 k Hk) as [He|]; [|assumption].
    rewrite lookup_empty in He. now destruct He.
  - exact H3.
Qed.

(** The page [shop/[category]/[...rest].vue]. *)
Lemma page_params_are_the_bound_names_witness :
  fileToFields "shop/[category]/[...rest].vue" = ("/shop/:category/:rest+", true, ["category"; "rest"])
  /\ ["category"; "rest"] = omap boundName (Str.segments "/shop/:category/:rest+")
  /\ forall url m, matchPattern url "/shop/:category/:rest+" = Some m ->
       forall k, is_Some (m !! k) -> k ∈ ["category"; "rest"].
Proof.
  assert (Hsegs : Forall pageSegment ["shop"; "[category]"; "[...rest]"]).
  { constructor; [|constructor; [|constructor; [|constructor]]].
    - left. split; [discriminate|]. split; [reflexivity|].
      split; [apply plainSegment_literal; discriminate | reflexivity].
    - right. exists "category". split; [reflexivity | now left].
    - right. exists "rest". split; [reflexivity | right; now left]. }
  pose proof (page_params_are_the_bound_names ["shop"; "[category]"; "[...rest]"] ".vue"
                ltac:(discriminate) Hsegs ltac:(apply list_elem_of_here))
    as (Hnames & _ & _ & Hmatch).
  split; [reflexivity|]. split; [exact Hnames|].
  intros url m Hm. exact (proj1 (Hmatch url m Hm)).
Defined.

(** ** Middleware files *)

Lemma parseMiddlewareName_parts (filename : string) :
  stripTsJs filename
  = fst (parseMiddlewareName filename)
    +:+ (if snd (parseMiddlewareName filename) then ".global" else "").
Proof.
  unfold parseMiddlewareName.
  destruct (Str.endsWith ".global" (stripTsJs filename)) eqn:E; cbn [fst snd].
  - apply StrFacts.endsWith_inv in E as [a ->]. now rewrite StrFacts.dropEnd_app.
  - now rewrite StrFacts.app_nil_r.
Qed.

(** X19. The name and the flag that [parseMiddlewareName] reads off a
    file name. [name.global.ts] and [name.global.js] give the name and
    the flag set; [name.ts] and [name.js] give the name and the flag
    clear, unless the name itself ends in [.global]; and for every file
    name, the name read, followed by [.global] when the flag is set, is
    the file name without its extension. *)
Theorem parseMiddlewareName_round_trip (name ext filename : string) :
  ext ∈ MIDDLEWARE_EXTENSIONS ->
  parseMiddlewareName (name +:+ ".global" +:+ ext) = (name, true)
  /\ (Str.endsWith ".global" name = false -> parseMiddlewareName (name +:+ ext) = (name, false))
  /\ stripTsJs filename
     = fst (parseMiddlewareName filename)
       +:+ (if snd (parseMiddlewareName filename) then ".global" else "").
Proof.
  intros Hext. split; [|split; [|apply parseMiddlewareName_parts]].
  - unfold parseMiddlewareName.
    replace (name +:+ ".global" +:+ ext) with ((name +:+ ".global") +:+ ext)
      by apply StrFacts.app_assoc.
    rewrite stripTsJs_app by assumption.
    now rewrite StrFacts.endsWith_app, StrFacts.dropEnd_app.
  - intros Hname. unfold parseMiddlewareName.
    rewrite stripTsJs_app by assumption. now rewrite Hname.
Qed.

(** [auth.global.ts] and [auth.ts]. *)
Lemma parseMiddlewareName_round_trip_witness :
  parseMiddlewareName "auth.global.ts" = ("auth", true)
  /\ parseMiddlewareName "auth.ts" = ("auth", false).
Proof.
  pose proof (parseMiddlewareName_round_trip "auth" ".ts" "auth.ts"
                ltac:(apply list_elem_of_here)) as (H1 & H2 & _).
  split; [exact H1 | exact (H2 eq_refl)].
Defined.

Lemma collectMiddleware_entries (files : list string) (dir : string)
    (entries : list MiddlewareEntry) :
  exists added,
    collectMiddleware files dir entries = entries ++ added
    /\ Forall2 (fun file e =>
                  mw_file_path e = pathJoin dir file
                  /\ (mw_name e, mw_global e) = parseMiddlewareName (basename file))
         files added.
Proof.
  revert entries. induction files as [|file files IH]; intros entries; cbn [collectMiddleware].
  - exists []. split; [now rewrite app_nil_r | constructor].
  - destruct (parseMiddlewareName (basename file)) as [name g] eqn:E.
    destruct (IH (entries ++ [mkMiddlewareEntry name (pathJoin dir file) g]))
      as (added & -> & Hall).
    exists (mkMiddlewareEntry name (pathJoin dir file) g :: added).
    split; [now rewrite <- app_assoc|]. constructor; [|assumption].
    cbn [mw_file_path mw_name mw_global]. now rewrite E.
Qed.

(** X20. The middleware scans return one entry for each file that the
    walk of [middleware] (of [server/middleware] for the server scan)
    yields, in the order of the walk: the entry holds the path of the
    file joined to that directory; its name, followed by [.global] when
    it is flagged global, is the base name of the file without the
    extension. The walk yields the files of the directory that end in
    [.ts] or [.js] and have no file or directory name that starts with a
    dot on their path. A directory that is missing gives the empty list.
    Where the root is absolute and has no [.] and [..] segment, the path
    of an entry is made of the segments of the root, of the directory and
    of the file, joined by single slashes. *)
Theorem scanMiddleware_entries (fs : FileSystem) (root : string) :
  let entry_of dir file e :=
    mw_file_path e = pathJoin dir file
    /\ stripTsJs (basename file) = mw_name e +:+ (if mw_global e then ".global" else "") in
  let dir_route := pathJoinN [root; "middleware"] in
  let dir_server := pathJoinN [root; "server"; "middleware"] in
  Forall2 (entry_of dir_route) (glob MIDDLEWARE_EXTENSIONS fs dir_route)
    (scanMiddleware fs root)
  /\ Forall2 (entry_of dir_server) (glob MIDDLEWARE_EXTENSIONS fs dir_server)
       (scanServerMiddleware fs root)
  /\ (forall d file,
        file ∈ glob MIDDLEWARE_EXTENSIONS fs d
        <-> (exists files, fs d = Some files /\ file ∈ files)
            /\ (Str.endsWith ".ts" file = true \/ Str.endsWith ".js" file = true)
            /\ hasDotSegment file = false)
  /\ (fs dir_route = None -> scanMiddleware fs root = [])
  /\ (fs dir_server = None -> scanServerMiddleware fs root = [])
  /\ (resolvedRoot root ->
      (forall file, file ∈ glob MIDDLEWARE_EXTENSIONS fs dir_route ->
         pathJoin dir_route file
         = "/" +:+ Str.join "/" (Str.segments root ++ ["middleware"] ++ Str.segments file))
      /\ (forall file, file ∈ glob MIDDLEWARE_EXTENSIONS fs dir_server ->
            pathJoin dir_server file
            = "/" +:+ Str.join "/" (Str.segments root ++ ["server"; "middleware"]
                                     ++ Str.segments file))).
Proof.
  intros entry_of dir_route dir_server.
  assert (Hscan : forall dir, Forall2 (entry_of dir) (glob MIDDLEWARE_EXTENSIONS fs dir)
                                (scanDir fs dir)).
  { intros dir. unfold scanDir, existsSync.
    destruct (fs dir) as [files|] eqn:E; cbn [negb].
    - destruct (collectMiddleware_entries (glob MIDDLEWARE_EXTENSIONS fs dir) dir [])
        as (added & -> & Hall).
      cbn [app]. eapply Forall2_impl; [exact Hall|].
      intros file e [Hp Hn]. split; [assumption|].
      rewrite (parseMiddlewareName_parts (basename file)), <- Hn. reflexivity.
    - rewrite (glob_missing _ _ _ E). constructor. }
  assert (Hmissing : forall dir, fs dir = None -> scanDir fs dir = []).
  { intros dir E. unfold scanDir, existsSync. now rewrite E. }
  split; [apply Hscan|]. split; [apply Hscan|].
  split; [intros d file; apply glob_ts_js|].
  split; [apply Hmissing|]. split; [apply Hmissing|].
  intros Hroot. split; intros file Hfile.
  - apply (pathJoin_walked fs root ["middleware"]); try assumption.
    + discriminate.
    + apply pathJoinN_one; [assumption | split; [discriminate | reflexivity] | reflexivity].
    + constructor; [repeat split; discriminate | constructor].
  - apply (pathJoin_walked fs root ["server"; "middleware"]); try assumption.
    + discriminate.
    + apply pathJoinN_server; [assumption | split; [discriminate | reflexivity] | reflexivity].
    + constructor; [repeat split; discriminate|].
      constructor; [repeat split; discriminate | constructor].
Qed.

(** A project with [middleware/auth.global.ts], [middleware/log.js] and a
    hidden file beside them, and no [server/middleware]; its root is
    written with a slash at the end. *)
Lemma scanMiddleware_entries_witness :
  let fs := fun dir => if String.eqb dir "/app/middleware"
                       then Some ["auth.global.ts"; "log.js"; "notes.md"; ".draft.ts"]
                       else None in
  scanMiddleware fs "/app/"
  = [mkMiddlewareEntry "auth" "/app/middleware/auth.global.ts" true;
     mkMiddlewareEntry "log" "/app/middleware/log.js" false]
  /\ scanServerMiddleware fs "/app/" = []
  /\ pathJoin (pathJoinN ["/app/"; "middleware"]) "log.js"
     = "/" +:+ Str.join "/" (Str.segments "/app/" ++ ["middleware"] ++ Str.segments "log.js").
Proof.
  intros fs.
  pose proof (scanMiddleware_entries fs "/app/") as (_ & _ & Hglob & _ & Hmissing & Hpath).
  split; [vm_compute; reflexivity|]. split; [exact (Hmissing eq_refl)|].
  apply (Hpath ltac:(split; [reflexivity | repeat constructor])).
  apply Hglob. split; [|split; [now right | reflexivity]].
  exists ["auth.global.ts"; "log.js"; "notes.md"; ".draft.ts"]. split; [reflexivity|].
  apply list_elem_of_further, list_elem_of_here.
Defined.

(** ** Static pages first *)

(** A table of routes without children is scanned for the first pattern
    that matches. *)
Lemma matchRouteLoop_leaves (u : string) (routes : list Route) (i : nat) (a : Route)
    (ps : gmap string ParamValue) :
  Forall (fun r => children r = []) routes ->
  routes !! i = Some a -> matchPattern u (pattern a) = Some ps ->
  exists j r ps',
    (j <= i)%nat /\ routes !! j = Some r /\ matchPattern u (pattern r) = Some ps'
    /\ matchRouteLoop u routes = Some (mkMatch r ps').
Proof.
  intros Hleaves. revert i. induction Hleaves as [|r routes Hr _ IH]; intros i Hi Hm;
    [discriminate|].
  cbn [matchRouteLoop]. unfold matchRouteStep. rewrite Hr.
  destruct (matchPattern u (pattern r)) as [ps0|] eqn:E0.
  - exists 0%nat, r, ps0. split; [lia | auto].
  - destruct i as [|i]; [cbn in Hi; congruence|]. cbn in Hi.
    destruct (IH i Hi Hm) as (j & r' & ps' & Hj & Hr' & Hp & Hres).
    exists (S j), r', ps'. split; [lia | auto].
Qed.

Section StaticFirst.

Variable localeCompare : string -> string -> Z.
Variable decodeURIComponent : string -> option string.

(** X22. Static pages win in a flat table. When no route of a scan has
    children and the scan holds a page whose pattern has no token and
    has the segments of the normalized URL, [matchRoute] answers with a
    page of that kind, binding nothing: no page with a dynamic segment
    or a catch-all is preferred to it, in whatever order the walk
    yielded the files. *)
Theorem static_page_wins (fs : FileSystem) (pagesDir url : string) (a : Route) :
  ConsistentCompare localeCompare ->
  let routes := scanPageRoutes localeCompare fs pagesDir in
  let u := normalizeUrl decodeURIComponent url in
  Forall (fun r => children r = []) routes ->
  a ∈ routes ->
  Forall (fun seg => literalSegment seg = true) (Str.segments (pattern a)) ->
  Str.segments u = Str.segments (pattern a) ->
  exists r,
    matchRoute decodeURIComponent url routes = Some (mkMatch r ∅)
    /\ r ∈ routes
    /\ Forall (fun seg => literalSegment seg = true) (Str.segments (pattern r))
    /\ Str.segments (pattern r) = Str.segments u.
Proof.
  intros Hc routes u Hleaves Ha Hlit Hsegs.
  apply list_elem_of_lookup_1 in Ha as [i Hi].
  assert (Hma : matchPattern u (pattern a) = Some ∅).
  { unfold matchPattern. rewrite matchPatternLoop_literal by (assumption || lia).
    now rewrite decide_True. }
  destruct (matchRouteLoop_leaves u routes i a ∅ Hleaves Hi Hma)
    as (j & r & ps' & Hj & Hr & Hp & Hres).
  assert (Hlit_r : Forall (fun seg => literalSegment seg = true) (Str.segments (pattern r))).
  { destruct (decide (j = i)) as [->|Hne]; [congruence|].
    pose proof (scanPageRoutes_in_order localeCompare Hc fs pagesDir) as [Hs _].
    pose proof (Sorted_precedence localeCompare Hc routes j i r a Hs ltac:(lia) Hr Hi) as Hle.
    pose proof (precedenceLoop_bounds (Str.segments (pattern r)) 0 0 ltac:(lia))
      as (Hr0 & Hzr & _).
    pose proof (precedenceLoop_bounds (Str.segments (pattern a)) 0 0 ltac:(lia))
      as (_ & Hza & _).
    apply Hzr. apply Hza in Hlit. unfold routePrecedence in Hle. lia. }
  unfold matchPattern in Hp. rewrite matchPatternLoop_literal in Hp by (assumption || lia).
  destruct (decide (drop 0 (Str.segments u) = Str.segments (pattern r))) as [E|];
    [|discriminate].
  injection Hp as <-. exists r.
  split; [exact Hres|]. split; [now apply list_elem_of_lookup_2 in Hr|].
  split; [assumption | now rewrite <- E].
Qed.

End StaticFirst.

(** [/about] in the scan of [[id].vue], [[...slug].vue] and [about.vue]. *)
Lemma static_page_wins_witness :
  let routes :=
    scanPageRoutes codeCompare (pagesOf ["[id].vue"; "[...slug].vue"; "about.vue"]) "/app/pages" in
  exists r,
    matchRoute Uri.decodeURIComponent "/about/?ref=home" routes = Some (mkMatch r ∅)
    /\ r ∈ routes
    /\ Forall (fun seg => literalSegment seg = true) (Str.segments (pattern r))
    /\ Str.segments (pattern r)
       = Str.segments (normalizeUrl Uri.decodeURIComponent "/about/?ref=home").
Proof.
  intros routes.
  refine (static_page_wins codeCompare Uri.decodeURIComponent
            (pagesOf ["[id].vue"; "[...slug].vue"; "about.vue"]) "/app/pages" "/about/?ref=home"
            (mkRoute "/about" "/app/pages/about.vue" false [] [])
            codeCompare_consistent _ _ _ _).
  - vm_compute. repeat constructor.
  - vm_compute. apply list_elem_of_here.
  - vm_compute. repeat constructor.
  - vm_compute. reflexivity.
Defined.

(** With nesting the order of the top level does not decide alone: a
    catch-all nested under [docs.vue] answers for the static page
    [docs/a/b.vue], which stays at the top level behind [/docs]. *)
Example static_page_behind_nested_catch_all :
  let routes :=
    scanPageRoutes codeCompare
      (pagesOf ["docs.vue"; "docs/[...slug].vue"; "docs/a/b.vue"]) "/app/pages" in
  map (fun r => (pattern r, map pattern (children r))) routes
  = [("/docs", [":slug+"]); ("/docs/a/b", [])]
  /\ (filePath ∘ m_route) <$> matchRoute Uri.decodeURIComponent "/docs/a/b" routes
     = Some "/app/pages/docs/[...slug].vue".
Proof. vm_compute. split; reflexivity. Qed.
